(** * A shallow embedding of the storage engine ([tsdb_fdb.py]) and of the
    window / scalar functions of the query engine ([query_engine.py]).

    Python floats are IEEE binary64, modelled by Rocq's primitive floats
    ([PrimFloat.float]); a Python [None] is [None] of an [option]. *)

From Stdlib Require Import ZArith Lia Bool.
From Stdlib Require Import PrimFloat SpecFloat FloatOps FloatAxioms Uint63.
From Stdlib Require Import QArith Qcanon.
From stdpp Require Import base gmap strings list sorting.

Local Open Scope Z_scope.

(* ------------------------------------------------------------------ *)
(** ** Python numbers *)

Module Py.

(** [float(n)] for a Python int with [|n| < 2^63] (correctly rounded). *)
Definition float_of_Z (n : Z) : float :=
  if n <? 0
  then PrimFloat.opp (PrimFloat.of_uint63 (Uint63.of_Z (- n)))
  else PrimFloat.of_uint63 (Uint63.of_Z n).

(** [float(n)] for any Python int: [n] correctly rounded to nearest,
    ties to even. CPython raises [OverflowError] where this rounding
    overflows, i.e. where the result here is infinite. *)
Definition float_of_int (n : Z) : float :=
  SF2Prim (binary_normalize prec emax n 0 false).

(** The arithmetic the window functions use on their values: [0.0],
    [+], [-] and [x / n] with an int [n]. Python evaluates them on
    floats; the same code read over exact rationals is the second
    instance. *)
Class Arith (F : Type) := {
  f_zero : F;
  f_add : F -> F -> F;
  f_sub : F -> F -> F;
  f_div_int : F -> Z -> F
}.

#[global] Instance float_arith : Arith float := {
  f_zero := 0%float;
  f_add := PrimFloat.add;
  f_sub := PrimFloat.sub;
  f_div_int x n := PrimFloat.div x (float_of_Z n)
}.

#[global] Instance Qc_arith : Arith Qc := {
  f_zero := Q2Qc 0;
  f_add := Qcplus;
  f_sub := Qcminus;
  f_div_int x n := Qcdiv x (Q2Qc (inject_Z n))
}.

End Py.

(* ------------------------------------------------------------------ *)
(** ** query_engine.py : window and scalar functions *)

Module QueryEngine.
Import Py.

(** [_parse_int_arg(value, default)] applied to the Arrow array of the
    second argument of a window function: an empty array or a NULL first
    element gives the default, otherwise the first element. *)
Definition _parse_int_arg (value : list (option Z)) (default : Z) : Z :=
  match value with
  | [] => default
  | None :: _ => default
  | Some v :: _ => v
  end.

(** [DiffWindow.evaluate_all]. *)
Definition DiffWindow_evaluate_all (series : list (option float))
    (arg : list (option Z)) : list (option float) :=
  let periods := Z.max 1 (_parse_int_arg arg 1) in
  imap (fun idx curr =>
          if Z.of_nat idx <? periods then None else
          match curr with
          | None => None
          | Some c =>
              match series !! (idx - Z.to_nat periods)%nat with
              | Some (Some prev) => Some (PrimFloat.sub c prev)
              | _ => None
              end
          end) series.

(** [PeriodDiffWindow.evaluate_all] (a class of its own in the source). *)
Definition PeriodDiffWindow_evaluate_all (series : list (option float))
    (arg : list (option Z)) : list (option float) :=
  let periods := Z.max 1 (_parse_int_arg arg 1) in
  imap (fun idx curr =>
          if Z.of_nat idx <? periods then None else
          match curr with
          | None => None
          | Some c =>
              match series !! (idx - Z.to_nat periods)%nat with
              | Some (Some prev) => Some (PrimFloat.sub c prev)
              | _ => None
              end
          end) series.

(** The loop state of [RollingMeanWindow.evaluate_all]: the deque
    [window_vals], [running_sum], [running_count] and [out]. *)
Record rm_state (F : Type) := {
  window_vals : list (option F);
  running_sum : F;
  running_count : Z;
  rm_out : list (option F)
}.
Arguments window_vals {F}. Arguments running_sum {F}.
Arguments running_count {F}. Arguments rm_out {F}.
Arguments Build_rm_state {F}.

(** One iteration of [for val in series:]. *)
Definition rolling_mean_step {F} `{Arith F} (window : Z) (st : rm_state F)
    (val : option F) : rm_state F :=
  let wv := window_vals st ++ [val] in
  let '(sum, cnt) :=
    match val with
    | Some v => (f_add (running_sum st) v, running_count st + 1)
    | None => (running_sum st, running_count st)
    end in
  let '(wv, sum, cnt) :=
    if window <? Z.of_nat (length wv) then
      match wv with
      | Some old :: rest => (rest, f_sub sum old, cnt - 1)
      | None :: rest => (rest, sum, cnt)
      | [] => (wv, sum, cnt)
      end
    else (wv, sum, cnt) in
  Build_rm_state wv sum cnt
    (rm_out st ++ [if cnt =? 0 then None else Some (f_div_int sum cnt)]).

(** [RollingMeanWindow.evaluate_all]. *)
Definition RollingMeanWindow_evaluate_all {F} `{Arith F}
    (series : list (option F)) (arg : list (option Z)) : list (option F) :=
  let window := Z.max 1 (_parse_int_arg arg 1) in
  rm_out (fold_left (rolling_mean_step window) series
            (Build_rm_state [] f_zero 0 [])).

(** [rate_value(c, p, b)] inside the [bucket_rate] UDF, which applies it
    to its scalar arguments or element-wise to its array arguments. *)
Definition rate_value (c p : option float) (b : option Z) : option float :=
  match c, p, b with
  | Some c, Some p, Some b =>
      if b <=? 0 then None else
      let delta := PrimFloat.sub c p in
      if PrimFloat.ltb delta 0%float then None
      else Some (PrimFloat.div delta (float_of_Z b))
  | _, _, _ => None
  end.

(** [PctChangeWindow.evaluate_all]; [prev in (None, 0)] compares a float
    with [0], which holds for [0.0] and [-0.0]. *)
Definition PctChangeWindow_evaluate_all (series : list (option float))
    (arg : list (option Z)) : list (option float) :=
  let periods := Z.max 1 (_parse_int_arg arg 1) in
  imap (fun idx curr =>
          if Z.of_nat idx <? periods then None else
          match curr with
          | None => None
          | Some c =>
              match series !! (idx - Z.to_nat periods)%nat with
              | Some (Some prev) =>
                  if PrimFloat.eqb prev 0%float then None
                  else Some (PrimFloat.div (PrimFloat.sub c prev) prev)
              | _ => None
              end
          end) series.

(** One iteration of the loop of [RollingSumWindow.evaluate_all]: the
    same deque, sum and count as [RollingMeanWindow], but it appends
    [None if running_count == 0 else running_sum]. *)
Definition rolling_sum_step {F} `{Arith F} (window : Z) (st : rm_state F)
    (val : option F) : rm_state F :=
  let wv := window_vals st ++ [val] in
  let '(sum, cnt) :=
    match val with
    | Some v => (f_add (running_sum st) v, running_count st + 1)
    | None => (running_sum st, running_count st)
    end in
  let '(wv, sum, cnt) :=
    if window <? Z.of_nat (length wv) then
      match wv with
      | Some old :: rest => (rest, f_sub sum old, cnt - 1)
      | None :: rest => (rest, sum, cnt)
      | [] => (wv, sum, cnt)
      end
    else (wv, sum, cnt) in
  Build_rm_state wv sum cnt
    (rm_out st ++ [if cnt =? 0 then None else Some sum]).

(** [RollingSumWindow.evaluate_all]. *)
Definition RollingSumWindow_evaluate_all {F} `{Arith F}
    (series : list (option F)) (arg : list (option Z)) : list (option F) :=
  let window := Z.max 1 (_parse_int_arg arg 1) in
  rm_out (fold_left (rolling_sum_step window) series
            (Build_rm_state [] f_zero 0 [])).

(** The row [idx] of [CounterRateWindow.evaluate_all]; [None] is an
    exception: the [IndexError] of [counters[idx]] or [timestamps[idx]],
    or the [OverflowError] of a float divided by an int too large to
    convert. *)
Definition counter_rate_row (counters : list (option float))
    (timestamps : list (option Z)) (idx : nat) : option (option float) :=
  match counters !! idx, timestamps !! idx with
  | Some curr, Some t1 =>
      if (idx =? 0)%nat then Some None else
      match counters !! (idx - 1)%nat, timestamps !! (idx - 1)%nat with
      | Some prev, Some t0 =>
          match curr, prev, t1, t0 with
          | Some c, Some p, Some t1, Some t0 =>
              if (t1 <=? t0) || PrimFloat.ltb c p then Some None
              else
                let dt := float_of_int (t1 - t0) in
                if PrimFloat.is_infinity dt then None
                else Some (Some (PrimFloat.div (PrimFloat.sub c p) dt))
          | _, _, _, _ => Some None
          end
      | _, _ => None
      end
  | _, _ => None
  end.

(** [CounterRateWindow.evaluate_all(values, num_rows)]: [for idx in
    range(num_rows)]; [None] when a row raises. *)
Definition CounterRateWindow_evaluate_all (counters : list (option float))
    (timestamps : list (option Z)) (num_rows : nat) : option (list (option float)) :=
  mapM (counter_rate_row counters timestamps) (seq 0 num_rows).

(** [bucket_value(ts_val, step_val)] of the [ts_bucket] UDF. *)
Definition bucket_value (ts_val step_val : option Z) : option Z :=
  match ts_val, step_val with
  | Some t, Some st => if st =? 0 then None else Some ((t / st) * st)
  | _, _ => None
  end.

(** [align_value(ts_val, step_val, origin_val)] of the [align_time] UDF;
    [base = origin_val or 0]. *)
Definition align_value (ts_val step_val origin_val : option Z) : option Z :=
  match ts_val, step_val with
  | Some t, Some st =>
      if st =? 0 then None else
      let base := match origin_val with Some o => if o =? 0 then 0 else o | None => 0 end in
      Some (((t - base) / st) * st + base)
  | _, _ => None
  end.

(** The builtins [min(a, b)] and [max(a, b)] on two floats: the second
    argument replaces the first only if it is strictly smaller (larger). *)
Definition py_min (a b : float) : float := if PrimFloat.ltb b a then b else a.
Definition py_max (a b : float) : float := if PrimFloat.ltb a b then b else a.

(** [clamp_value(val, lo, hi)] of the [clamp] UDF. *)
Definition clamp_value (val lo hi : option float) : option float :=
  match val, lo, hi with
  | Some v, Some l, Some h => Some (py_max l (py_min v h))
  | _, _, _ => None
  end.

(** [keep_or_null(val, lo, hi)] of the [null_if_outside] UDF. *)
Definition keep_or_null (val lo hi : option float) : option float :=
  match val, lo, hi with
  | Some v, Some l, Some h =>
      if PrimFloat.leb l v && PrimFloat.leb v h then Some v else None
  | _, _, _ => None
  end.
End QueryEngine.

(* ------------------------------------------------------------------ *)
(** ** tsdb_fdb.py : the storage engine *)

Module Tsdb.
Import Py.

(** Exceptions the engine raises: [ValueError] (the spec's validation
    errors), [struct.error] from packing a field out of its range,
    [OverflowError] (a float too large for the [f] format, an int too
    large for [to_bytes]) and [ZeroDivisionError] from [//] and [%]. *)
Inductive error :=
  | ValueError (msg : string)
  | StructError
  | OverflowError
  | ZeroDivisionError.

(** A tags dict [Dict[str, str]], in insertion order. *)
Abbreviation tags := (list (string * string)) (only parsing).

(** A stored value record. [_VALUE_FMT = "<I f B"] packs
    [(window, value, flags)] into 9 bytes; [RawRecord] is such a record,
    decoded. [RawOther n] is a value of another length [n] (never written by
    this code). *)
Inductive raw_value :=
  | RawRecord (window : Z) (value : float) (flags : Z)
  | RawOther (len : nat).

(** The JSON meta-info [{"name": ..., "tags": {...}}]. *)
Record meta_info := { info_name : string; info_tags : tags }.

(** The key families of the KV store that the engine uses, one finite map
    each: the prefixes [0x01], [0x02], [0x04] and the tuple families
    [(5, name, tag_items)] and [(6,)]. The key [(3, metric_id)] is only
    ever cleared and dashboards [(7, slug)] are not used here. *)
Record store := {
  values : gmap (Z * Z) raw_value;           (* (metric_id, slot) *)
  metas : gmap Z (Z * Z * Z);                (* metric_id -> (step, slots, typ) *)
  infos : gmap Z meta_info;                  (* metric_id -> meta-info *)
  descriptors : gmap (string * tags) Z;      (* (name, sorted tags) -> metric_id *)
  id_counter : option Z
}.

Definition empty_store : store :=
  {| values := ∅; metas := ∅; infos := ∅; descriptors := ∅; id_counter := None |}.

Definition set_values (s : store) v : store :=
  {| values := v; metas := metas s; infos := infos s;
     descriptors := descriptors s; id_counter := id_counter s |}.
Definition set_metas (s : store) m : store :=
  {| values := values s; metas := m; infos := infos s;
     descriptors := descriptors s; id_counter := id_counter s |}.
Definition set_infos (s : store) i : store :=
  {| values := values s; metas := metas s; infos := i;
     descriptors := descriptors s; id_counter := id_counter s |}.
Definition set_descriptors (s : store) d : store :=
  {| values := values s; metas := metas s; infos := infos s;
     descriptors := d; id_counter := id_counter s |}.
Definition set_id_counter (s : store) c : store :=
  {| values := values s; metas := metas s; infos := infos s;
     descriptors := descriptors s; id_counter := c |}.

(** [FdbTsdb(db, default_step, default_slots)]. *)
Record tsdb := { default_step : Z; default_slots : Z }.

(** A transaction: it reads and writes the store, and an exception
    cancels it ([_run_transaction] commits only on success). *)
Definition txn (A : Type) := store -> error + (A * store).
Definition tret {A} (a : A) : txn A := fun s => inr (a, s).
Definition traise {A} (e : error) : txn A := fun _ => inl e.
Definition tbind {A B} (m : txn A) (k : A -> txn B) : txn B :=
  fun s => match m s with inl e => inl e | inr (a, s') => k a s' end.
Definition tget : txn store := fun s => inr (s, s).
Definition tput (s' : store) : txn unit := fun _ => inr (tt, s').
Definition tcheck (e : error + unit) : txn unit :=
  fun s => match e with inl e => inl e | inr u => inr (u, s) end.

(** A method call of [FdbTsdb]: a sequence of committed transactions;
    an exception keeps what earlier transactions committed. *)
Definition op (A : Type) := store -> (error + A) * store.
Definition oret {A} (a : A) : op A := fun s => (inr a, s).
Definition oraise {A} (e : error) : op A := fun s => (inl e, s).
Definition obind {A B} (m : op A) (k : A -> op B) : op B :=
  fun s => match m s with (inl e, s') => (inl e, s') | (inr a, s') => k a s' end.

Definition _run_transaction {A} (t : txn A) : op A :=
  fun s => match t s with inl e => (inl e, s) | inr (a, s') => (inr a, s') end.

Declare Scope txn_scope.
Notation "x <- m ;; k" := (tbind m (fun x => k))
  (at level 100, m at next level, right associativity) : txn_scope.
Notation "m ;;; k" := (tbind m (fun _ => k))
  (at level 100, right associativity) : txn_scope.
Notation "x <~ m ;; k" := (obind m (fun x => k))
  (at level 100, m at next level, right associativity) : txn_scope.
Notation "m ;;~ k" := (obind m (fun _ => k))
  (at level 100, right associativity) : txn_scope.
Local Open Scope txn_scope.

(** Python's [//] and [%] on ints (floor division; [Z.div] and [Z.modulo]
    round the same way). *)
Definition floordiv (a b : Z) : error + Z :=
  if b =? 0 then inl ZeroDivisionError else inr (a / b).
Definition pymod (a b : Z) : error + Z :=
  if b =? 0 then inl ZeroDivisionError else inr (a mod b).
Definition tlift {A} (r : error + A) : txn A :=
  fun s => match r with inl e => inl e | inr a => inr (a, s) end.
Definition olift {A} (r : error + A) : op A :=
  fun s => match r with inl e => (inl e, s) | inr a => (inr a, s) end.

(** [x or default] for an optional int argument: [None] and [0] are
    falsy. *)
Definition py_or_int (x : option Z) (d : Z) : Z :=
  match x with Some v => if v =? 0 then d else v | None => d end.

(** [struct.pack("<f", x)]: the C cast to float (round to nearest even,
    24-bit significand, subnormals down to 2^-149), [OverflowError] when a
    finite value rounds to infinity; the result read back as a double. *)
Definition f32_pack (x : float) : error + float :=
  match Prim2SF x with
  | S754_finite sx mx ex =>
      match binary_round 24 128 sx mx ex with
      | S754_infinity _ => inl OverflowError
      | r => inr (SF2Prim r)
      end
  | _ => inr x
  end.

Definition in_range (lo x hi : Z) : bool := (lo <=? x) && (x <? hi).

(** [_pack_meta(step, slots, typ)] with [_META_FMT = "<i i B"]. *)
Definition _pack_meta (step slots typ : Z) : error + (Z * Z * Z) :=
  if in_range (- 2 ^ 31) step (2 ^ 31) && in_range (- 2 ^ 31) slots (2 ^ 31)
     && in_range 0 typ 256
  then inr (step, slots, typ) else inl StructError.

(** [_pack_value_record(window, value, flags)] with [_VALUE_FMT]. *)
Definition _pack_value_record (window : Z) (value : float) (flags : Z)
    : error + raw_value :=
  if negb (in_range 0 window (2 ^ 32)) then inl StructError else
  match f32_pack value with
  | inl e => inl e
  | inr v => if in_range 0 flags 256 then inr (RawRecord window v flags)
             else inl StructError
  end.

(** [struct.pack("<q", n)]. *)
Definition pack_q (n : Z) : error + Z :=
  if in_range (- 2 ^ 63) n (2 ^ 63) then inr n else inl StructError.

Definition FLAG_VALID : Z := 1.

Definition _ensure_u32 (metric_id : Z) : error + unit :=
  if (metric_id <? 0) || (0xFFFFFFFF <? metric_id)
  then inl (ValueError "metric_id must fit in uint32") else inr tt.

(** [_meta_key], [_meta_info_key], [_value_key]: the key checks. A slot
    goes through [slot.to_bytes(4, "big", signed=False)]. *)
Definition _meta_key (metric_id : Z) : txn Z :=
  tcheck (_ensure_u32 metric_id) ;;; tret metric_id.
Definition _meta_info_key (metric_id : Z) : txn Z :=
  tcheck (_ensure_u32 metric_id) ;;; tret metric_id.
Definition _value_key (metric_id slot : Z) : txn (Z * Z) :=
  tcheck (_ensure_u32 metric_id) ;;;
  if in_range 0 slot (2 ^ 32) then tret (metric_id, slot) else traise OverflowError.

(** [sorted(tags.items())]: pairs in lexicographic order. *)
Definition pair_ltb (a b : string * string) : bool :=
  match String.compare a.1 b.1 with
  | Lt => true
  | Gt => false
  | Eq => match String.compare a.2 b.2 with Lt => true | _ => false end
  end.
Fixpoint insert_pair (x : string * string) (l : tags) : tags :=
  match l with
  | [] => [x]
  | y :: l' => if pair_ltb x y then x :: l else y :: insert_pair x l'
  end.
Definition sort_tags (t : tags) : tags := fold_left (fun acc x => insert_pair x acc) t [].

Definition _descriptor_key (name : string) (t : tags) : string * tags :=
  (name, sort_tags t).

(** Python dict operations on the tag mapping. *)
Fixpoint dict_get (d : tags) (k : string) : option string :=
  match d with
  | [] => None
  | (k', v') :: d' => if String.eqb k k' then Some v' else dict_get d' k
  end.
Fixpoint dict_set (d : tags) (k v : string) : tags :=
  match d with
  | [] => [(k, v)]
  | (k', v') :: d' => if String.eqb k k' then (k, v) :: d' else (k', v') :: dict_set d' k v
  end.
Definition opt_str_eqb (a b : option string) : bool :=
  match a, b with
  | Some x, Some y => String.eqb x y
  | None, None => true
  | _, _ => false
  end.
(** [d1 == d2]. *)
Definition dict_eqb (d1 d2 : tags) : bool :=
  forallb (fun kv => opt_str_eqb (dict_get d2 kv.1) (Some kv.2)) d1 &&
  forallb (fun kv => opt_str_eqb (dict_get d1 kv.1) (Some kv.2)) d2.

Definition _load_meta_tr (metric_id : Z) : txn (option (Z * Z * Z)) :=
  k <- _meta_key metric_id ;; s <- tget ;; tret (metas s !! k).

Definition _load_meta_info_tr (metric_id : Z) : txn (option meta_info) :=
  k <- _meta_info_key metric_id ;; s <- tget ;; tret (infos s !! k).

Definition set_info (k : Z) (i : meta_info) : txn unit :=
  s <- tget ;; tput (set_infos s (<[k := i]> (infos s))).

(** The loop [for key, val in tags.items(): ...] of [_ensure_meta_info]. *)
Fixpoint merge_tags (merged : tags) (t : tags) : error + tags :=
  match t with
  | [] => inr merged
  | (k, v) :: t' =>
      match dict_get merged k with
      | None => merge_tags (dict_set merged k v) t'
      | Some cur =>
          if String.eqb cur v then merge_tags (dict_set merged k v) t'
          else inl (ValueError "metric tag already set")
      end
  end.

Definition py_truthy_str (n : option string) : option string :=
  match n with Some x => if String.eqb x "" then None else Some x | None => None end.
Definition py_truthy_tags (t : option tags) : option tags :=
  match t with Some (_ :: _) => t | _ => None end.

(** [_ensure_meta_info(tr, metric_id, name, tags)]. *)
Definition _ensure_meta_info (metric_id : Z) (name : option string) (t : option tags)
    : txn unit :=
  loaded <- _load_meta_info_tr metric_id ;;
  let info := default {| info_name := ""; info_tags := [] |} loaded in
  r1 <- match py_truthy_str name with
        | Some n =>
            let current := info_name info in
            if negb (String.eqb current "") && negb (String.eqb current n)
            then traise (ValueError "metric already registered with name")
            else if String.eqb current ""
            then tret ({| info_name := n; info_tags := info_tags info |}, true)
            else tret (info, false)
        | None => tret (info, false)
        end ;;
  let '(info, changed) := r1 in
  r2 <- match py_truthy_tags t with
        | Some t =>
            merged <- tlift (merge_tags (info_tags info) t) ;;
            if negb (dict_eqb merged (info_tags info))
            then tret ({| info_name := info_name info; info_tags := merged |}, true)
            else tret (info, changed)
        | None => tret (info, changed)
        end ;;
  let '(info, changed) := r2 in
  if changed then set_info metric_id info else
  again <- _load_meta_info_tr metric_id ;;
  match again with None => set_info metric_id info | Some _ => tret tt end.

(** [_ensure_descriptor(tr, metric_id, name, tags, typ, step, slots)]. *)
Definition _ensure_descriptor (metric_id : Z) (name : option string) (t : option tags)
    (typ step slots : Z) : txn unit :=
  match py_truthy_str name with
  | None => tret tt
  | Some n =>
      let key := _descriptor_key n (default [] t) in
      s <- tget ;;
      match descriptors s !! key with
      | Some existing_id =>
          if existing_id =? metric_id then tret tt
          else traise (ValueError "descriptor already bound to metric")
      | None =>
          v <- tlift (pack_q metric_id) ;;
          tput (set_descriptors s (<[key := v]> (descriptors s)))
      end
  end.

(** [_lookup_descriptor_tr(tr, name, tags)]. *)
Definition _lookup_descriptor_tr (name : string) (t : tags) : txn (option Z) :=
  s <- tget ;; tret (descriptors s !! _descriptor_key name t).

(** [_allocate_metric_id(tr)]. *)
Definition _allocate_metric_id : txn Z :=
  s <- tget ;;
  let next_id := match id_counter s with Some c => c + 1 | None => 1 end in
  v <- tlift (pack_q next_id) ;;
  tput (set_id_counter s (Some v)) ;;;
  tret next_id.

(** [ensure_metric_descriptor(metric_id, typ, step, slots, name, tags)]. *)
Definition ensure_metric_descriptor (self : tsdb) (metric_id : option Z) (typ : Z)
    (step slots : option Z) (name : option string) (t : option tags) : op Z :=
  olift (match metric_id with Some m => _ensure_u32 m | None => inr tt end) ;;~
  let step := py_or_int step (default_step self) in
  let slots := py_or_int slots (default_slots self) in
  let t := default [] t in
  let name := default "" name in
  if (bool_decide (metric_id = None)) && String.eqb name ""
  then oraise (ValueError "metric_id or name must be provided") else
  _run_transaction (
    found <- (if String.eqb name "" then tret None else
              existing_id <- _lookup_descriptor_tr name t ;;
              match existing_id with
              | None => tret None
              | Some eid =>
                  meta <- _load_meta_tr eid ;;
                  match meta with
                  | Some (_, _, mtyp) =>
                      if negb (mtyp =? typ)
                      then traise (ValueError "metric already registered with different type")
                      else tret tt
                  | None => tret tt
                  end ;;;
                  _ensure_meta_info eid (Some name) (Some t) ;;;
                  tret (Some eid)
              end) ;;
    match found with
    | Some eid => tret eid
    | None =>
        mid <- (match metric_id with Some m => tret m | None => _allocate_metric_id end) ;;
        meta_key <- _meta_key mid ;;
        meta_bytes <- tlift (_pack_meta step slots typ) ;;
        s <- tget ;;
        match metas s !! meta_key with
        | Some (current_step, current_slots, current_typ) =>
            if negb (current_step =? step) || negb (current_slots =? slots)
               || negb (current_typ =? typ)
            then traise (ValueError "metric already registered with different metadata")
            else tret tt
        | None => tput (set_metas s (<[meta_key := meta_bytes]> (metas s)))
        end ;;;
        _ensure_meta_info mid (py_truthy_str (Some name)) (Some t) ;;;
        _ensure_descriptor mid (py_truthy_str (Some name)) (Some t) typ step slots ;;;
        tret mid
    end).

(** [ensure_metric(metric_id, typ, step, slots, name, tags)]. *)
Definition ensure_metric (self : tsdb) (metric_id typ : Z) (step slots : option Z)
    (name : option string) (t : option tags) : op unit :=
  olift (_ensure_u32 metric_id) ;;~
  let step := py_or_int step (default_step self) in
  let slots := py_or_int slots (default_slots self) in
  if (step <=? 0) || (slots <=? 0)
  then oraise (ValueError "step and slots must be positive") else
  olift (_ensure_u32 metric_id) ;;~
  meta_bytes <~ olift (_pack_meta step slots typ) ;;
  _run_transaction (
    s <- tget ;;
    match metas s !! metric_id with
    | Some (current_step, current_slots, current_typ) =>
        if negb (current_step =? step) || negb (current_slots =? slots)
           || negb (current_typ =? typ)
        then traise (ValueError "metric already registered with different metadata")
        else tret tt
    | None => tput (set_metas s (<[metric_id := meta_bytes]> (metas s)))
    end ;;;
    _ensure_meta_info metric_id name t ;;;
    _ensure_descriptor metric_id name t typ step slots).

(** [_slot_for(ts, step, slots)]. *)
Definition _slot_for (ts step slots : Z) : error + Z :=
  if step <=? 0 then inl (ValueError "step must be positive") else
  match floordiv ts step with
  | inl e => inl e
  | inr w => pymod w slots
  end.

Definition set_value (k : Z * Z) (r : raw_value) : txn unit :=
  s <- tget ;; tput (set_values s (<[k := r]> (values s))).

(** [_write_value(metric_id, ts, value)]. *)
Definition _write_value (metric_id ts : Z) (value : float) : op unit :=
  _run_transaction (
    meta <- _load_meta_tr metric_id ;;
    match meta with
    | None => traise (ValueError "metric not found")
    | Some (step, slots, _typ) =>
        slot <- tlift (_slot_for ts step slots) ;;
        let flags := FLAG_VALID in
        window <- tlift (floordiv ts step) ;;
        key <- _value_key metric_id slot ;;
        r <- tlift (_pack_value_record window value flags) ;;
        set_value key r
    end).

(** [write_gauge(metric_id, ts, value, name, tags, step, slots)]. *)
Definition write_gauge (self : tsdb) (metric_id : option Z) (ts : Z) (value : float)
    (name : option string) (t : option tags) (step slots : option Z) : op Z :=
  mid <~ ensure_metric_descriptor self metric_id 0 step slots name t ;;
  _write_value mid ts value ;;~
  oret mid.

(** [write_counter(metric_id, ts, raw_value, name, tags, step, slots)]. *)
Definition write_counter (self : tsdb) (metric_id : option Z) (ts : Z) (raw_value : float)
    (name : option string) (t : option tags) (step slots : option Z) : op Z :=
  mid <~ ensure_metric_descriptor self metric_id 1 step slots name t ;;
  _run_transaction (
    meta <- _load_meta_tr mid ;;
    match meta with
    | None => traise (ValueError "metric not found")
    | Some (step_val, slots_val, _typ) =>
        slot <- tlift (_slot_for ts step_val slots_val) ;;
        window <- tlift (floordiv ts step_val) ;;
        packed_value <- tlift (_pack_value_record window raw_value FLAG_VALID) ;;
        key <- _value_key mid slot ;;
        set_value key packed_value
    end) ;;~
  oret mid.

(** A returned sample [(ts, value, type)]. *)
Definition row : Type := Z * float * Z.
Definition row_ts (r : row) : Z := r.1.1.

(** [_segments_for(start_slot, count, slots)]. *)
Definition _segments_for (start_slot count slots : Z) : list (Z * Z) :=
  if count <=? 0 then [] else
  if start_slot + count <=? slots then [(start_slot, start_slot + count - 1)] else
  let wrap := count - (slots - start_slot) in
  [(start_slot, slots - 1); (0, wrap - 1)].

(** The integers [a, a+1, ..., b-1]. *)
Definition Z_range (a b : Z) : list Z :=
  map (fun n => a + Z.of_nat n) (seq 0 (Z.to_nat (b - a))).

(** [tr.get_range(value_key(id, a), value_key(id, b))]: the value records
    of the slots [a <= slot < b], in key (= slot) order. *)
Definition get_range (s : store) (metric_id a b : Z) : list raw_value :=
  omap (fun k => values s !! (metric_id, k)) (Z_range a b).

(** The body of [for kv in tr.get_range(begin, end):]. *)
Definition scan_record (start_ts end_ts typ step : Z) (raw : raw_value)
    : error + option row :=
  match raw with
  | RawOther n => if (n <? 9)%nat then inr None else inl StructError
  | RawRecord window v flags =>
      if Z.land flags FLAG_VALID =? 0 then inr None else
      let ts := window * step in
      if (ts <? start_ts) || (end_ts <? ts) then inr None
      else inr (Some (ts, v, typ))
  end.

Fixpoint scan_records (start_ts end_ts typ step : Z) (raws : list raw_value)
    (rows : list row) : error + list row :=
  match raws with
  | [] => inr rows
  | raw :: raws' =>
      match scan_record start_ts end_ts typ step raw with
      | inl e => inl e
      | inr None => scan_records start_ts end_ts typ step raws' rows
      | inr (Some r) => scan_records start_ts end_ts typ step raws' (rows ++ [r])
      end
  end.

(** [rows.sort(key=lambda item: item[0])]: a stable sort on [ts]. *)
Fixpoint insert_row (r : row) (l : list row) : list row :=
  match l with
  | [] => [r]
  | r' :: l' => if row_ts r <? row_ts r' then r :: l else r' :: insert_row r l'
  end.
Definition sort_rows (l : list row) : list row :=
  fold_left (fun acc r => insert_row r acc) l [].

(** [_scan_segments(tr, metric_id, segments, start_ts, end_ts, typ, step)]. *)
Fixpoint scan_segs (metric_id : Z) (segments : list (Z * Z)) (start_ts end_ts typ step : Z)
    (rows : list row) : txn (list row) :=
  match segments with
  | [] => tret rows
  | (seg_start, seg_end) :: segs =>
      if seg_end <? seg_start
      then scan_segs metric_id segs start_ts end_ts typ step rows else
      _ <- _value_key metric_id seg_start ;;
      _ <- _value_key metric_id (seg_end + 1) ;;
      s <- tget ;;
      rows <- tlift (scan_records start_ts end_ts typ step
                       (get_range s metric_id seg_start (seg_end + 1)) rows) ;;
      scan_segs metric_id segs start_ts end_ts typ step rows
  end.

Definition _scan_segments (metric_id : Z) (segments : list (Z * Z))
    (start_ts end_ts typ step : Z) : txn (list row) :=
  rows <- scan_segs metric_id segments start_ts end_ts typ step [] ;;
  tret (sort_rows rows).

Definition _load_meta (metric_id : Z) : op (option (Z * Z * Z)) :=
  _run_transaction (_load_meta_tr metric_id).
Definition _load_meta_info (metric_id : Z) : op (option meta_info) :=
  _run_transaction (_load_meta_info_tr metric_id).

(** [read_range(metric_id, start_ts, end_ts)]. *)
Definition read_range (metric_id start_ts end_ts : Z) : op (list row) :=
  if end_ts <? start_ts then oret [] else
  meta <~ _load_meta metric_id ;;
  match meta with
  | None => oret []
  | Some (step, slots, typ) =>
      start_window <~ olift (floordiv start_ts step) ;;
      end_window <~ olift (floordiv end_ts step) ;;
      if end_window <? start_window then oret [] else
      let slot_count := Z.min slots (end_window - start_window + 1) in
      if slot_count <=? 0 then oret [] else
      start_slot <~ olift (pymod start_window slots) ;;
      let segments := _segments_for start_slot slot_count slots in
      _run_transaction (_scan_segments metric_id segments start_ts end_ts typ step)
  end.

(** [delete_metric(metric_id)]. The key [(3, metric_id)] it also clears is
    not modelled: nothing writes it. *)
Definition delete_metric (metric_id : Z) : op unit :=
  info <~ _load_meta_info metric_id ;;
  let name := option_map info_name info in
  let t := match info with Some i => info_tags i | None => [] end in
  _run_transaction (
    meta <- _load_meta_tr metric_id ;;
    match meta with
    | None => tret tt
    | Some _ =>
        s <- tget ;;
        let s := set_values s (filter (fun kv => kv.1.1 <> metric_id) (values s)) in
        k <- _meta_key metric_id ;;
        let s := set_metas s (delete k (metas s)) in
        k' <- _meta_info_key metric_id ;;
        let s := set_infos s (delete k' (infos s)) in
        match py_truthy_str name with
        | Some n => tput (set_descriptors s (delete (_descriptor_key n t) (descriptors s)))
        | None => tput s
        end
    end).

(** The replay loop [for ts, val, _ in rows: self._write_value(...)]. *)
Fixpoint replay (metric_id : Z) (rows : list row) : op unit :=
  match rows with
  | [] => oret tt
  | r :: rows' => _write_value metric_id (row_ts r) r.1.2 ;;~ replay metric_id rows'
  end.

(** [rewrite_metric_retention(metric_id, step, slots)]. *)
Definition rewrite_metric_retention (self : tsdb) (metric_id step slots : Z) : op unit :=
  if (step <=? 0) || (slots <=? 0)
  then oraise (ValueError "step and slots must be positive") else
  meta <~ _load_meta metric_id ;;
  info <~ _load_meta_info metric_id ;;
  match meta with
  | None => oraise (ValueError "metric not found")
  | Some (old_step, old_slots, typ) =>
      if negb (typ =? 0)
      then oraise (ValueError "retention rewrite only supported for gauge metrics") else
      let name := option_map info_name info in
      let t := match info with Some i => info_tags i | None => [] end in
      rows <~ read_range metric_id 0 (2 ^ 63 - 1) ;;
      delete_metric metric_id ;;~
      ensure_metric_descriptor self (Some metric_id) typ (Some step) (Some slots)
        name (Some t) ;;~
      replay metric_id rows
  end.

(** [init_tsdb(db)]. *)
Definition init_tsdb : tsdb := {| default_step := 1; default_slots := 3600 |}.

(** A row of [list_metrics]: the dict with keys "metric_id", "name",
    "tags", "type", "step" and "slots". *)
Record metric_row := {
  metric_id : Z; metric_name : string; metric_tags : tags;
  metric_type : Z; metric_step : Z; metric_slots : Z }.

(** The loop [for kv in rows: ...] of [list_metrics]. *)
Fixpoint list_metrics_loop (ids : list Z) (metrics : list metric_row) : op (list metric_row) :=
  match ids with
  | [] => oret metrics
  | mid :: ids' =>
      meta <~ _load_meta mid ;;
      match meta with
      | None => list_metrics_loop ids' metrics
      | Some (step, slots, typ) =>
          info <~ _load_meta_info mid ;;
          list_metrics_loop ids'
            (metrics ++ [{| metric_id := mid;
                            metric_name := match info with Some i => info_name i | None => "" end;
                            metric_tags := match info with Some i => info_tags i | None => [] end;
                            metric_type := typ; metric_step := step; metric_slots := slots |}])
      end
  end.

(** [db.get_range_startswith(_PREFIX_META, limit=10_000)]: the meta keys
    [_PREFIX_META + id.to_bytes(4, "big")] in key order, that is in the
    order of the ids, read back as ids. *)
Definition meta_key_ids (s : store) : list Z :=
  take (Z.to_nat 10000) (merge_sort Z.le (map fst (map_to_list (metas s)))).

(** The key [lambda m: m["metric_id"]] of the final sort. *)
Definition metric_id_le (a b : metric_row) : Prop := metric_id a <= metric_id b.
#[global] Instance metric_id_le_dec : RelDecision metric_id_le :=
  fun a b => Z.le_dec (metric_id a) (metric_id b).

(** [list_metrics()]. *)
Definition list_metrics : op (list metric_row) :=
  fun s =>
    (metrics <~ list_metrics_loop (meta_key_ids s) [] ;;
     oret (merge_sort metric_id_le metrics)) s.

(** The loop of [find_metrics]: [(results, hit_limit)]. *)
Fixpoint find_metrics_loop (name : option string) (t : tags) (limit : option Z)
    (metrics results : list metric_row) : list metric_row * bool :=
  match metrics with
  | [] => (results, false)
  | metric :: metrics' =>
      if match py_truthy_str name with
         | Some n => negb (String.eqb (metric_name metric) n)
         | None => false
         end
      then find_metrics_loop name t limit metrics' results else
      if existsb (fun kv => negb (opt_str_eqb (dict_get (metric_tags metric) kv.1) (Some kv.2))) t
      then find_metrics_loop name t limit metrics' results else
      let results := results ++ [metric] in
      if match limit with
         | Some l => negb (l =? 0) && (l <=? Z.of_nat (length results))
         | None => false
         end
      then (results, true)
      else find_metrics_loop name t limit metrics' results
  end.

(** [find_metrics(name, tags, limit, return_hit_limit=True)]; with
    [return_hit_limit=False] the method returns the first component. *)
Definition find_metrics (name : option string) (t : option tags) (limit : option Z)
    : op (list metric_row * bool) :=
  let t := default [] t in
  metrics <~ list_metrics ;;
  oret (find_metrics_loop name t limit metrics []).

(** The loop of [list_metric_names]. *)
Fixpoint list_metric_names_loop (limit : Z) (metrics : list metric_row)
    (names seen : list string) : list string :=
  match metrics with
  | [] => names
  | metric :: metrics' =>
      let n := metric_name metric in
      if String.eqb n "" || existsb (String.eqb n) seen
      then list_metric_names_loop limit metrics' names seen else
      let seen := n :: seen in
      let names := names ++ [n] in
      if limit <=? Z.of_nat (length names) then names
      else list_metric_names_loop limit metrics' names seen
  end.

(** Python's order on [str]: code points, which is the byte order of
    their UTF-8 encoding. *)
Definition str_le (a b : string) : Prop := String.leb a b = true.
#[global] Instance str_le_dec : RelDecision str_le :=
  fun a b => bool_eq_dec (String.leb a b) true.

(** [list_metric_names(limit)]. *)
Definition list_metric_names (limit : Z) : op (list string) :=
  metrics <~ list_metrics ;;
  oret (merge_sort str_le (list_metric_names_loop limit metrics [] [])).

(** [catalog.setdefault(k, set()).add(v)] on a dict of sets, a set kept
    as a list without duplicates. *)
Fixpoint catalog_add (catalog : list (string * list string)) (k v : string)
    : list (string * list string) :=
  match catalog with
  | [] => [(k, [v])]
  | (k', vals) :: catalog' =>
      if String.eqb k k'
      then (k', if existsb (String.eqb v) vals then vals else vals ++ [v]) :: catalog'
      else (k', vals) :: catalog_add catalog' k v
  end.

(** The loop of [tag_catalog]. *)
Fixpoint tag_catalog_loop (name : option string) (limit : Z) (metrics : list metric_row)
    (catalog : list (string * list string)) (count : Z) : list (string * list string) :=
  match metrics with
  | [] => catalog
  | metric :: metrics' =>
      if match py_truthy_str name with
         | Some n => negb (String.eqb (metric_name metric) n)
         | None => false
         end
      then tag_catalog_loop name limit metrics' catalog count else
      let catalog := fold_left (fun c kv => catalog_add c kv.1 kv.2) (metric_tags metric) catalog in
      let count := count + 1 in
      if limit <=? count then catalog
      else tag_catalog_loop name limit metrics' catalog count
  end.

(** [tag_catalog(name, limit)]. *)
Definition tag_catalog (name : option string) (limit : Z) : op (list (string * list string)) :=
  metrics <~ list_metrics ;;
  oret (map (fun kv => (kv.1, merge_sort str_le kv.2)) (tag_catalog_loop name limit metrics [] 0)).

End Tsdb.

(* ------------------------------------------------------------------ *)
(** ** The spec's formulations, for comparison with the code *)

Module SpecSide.
Import Py QueryEngine.

(** The spec's [diff(value, periods)]: [value[i] - value[i - periods]],
    NULL for [i < periods] or a NULL endpoint. *)
Definition diff_at (series : list (option float)) (periods : Z) (i : nat) : option float :=
  if Z.of_nat i <? periods then None else
  match series !! i, series !! (i - Z.to_nat periods)%nat with
  | Some (Some c), Some (Some p) => Some (PrimFloat.sub c p)
  | _, _ => None
  end.

(** The spec's scenarios write a sequence of gauge samples by id, with
    the same [(step, slots)] arguments for each. *)
Import Tsdb.
Local Open Scope txn_scope.

Fixpoint write_gauges (self : tsdb) (metric_id : Z) (step slots : option Z)
    (samples : list (Z * float)) : op unit :=
  match samples with
  | [] => oret tt
  | (ts, v) :: rest =>
      write_gauge self (Some metric_id) ts v None None step slots ;;~
      write_gauges self metric_id step slots rest
  end.

(** Scenario A (ring wrap) and its variant with a gap: [slots = 3],
    [step = 1] as defaults, metric 7 created by [ensure_metric], then
    gauge writes with the default step and slots. *)
Definition cfg3 : tsdb := {| default_step := 1; default_slots := 3 |}.

Definition samples_A (T : Z) : list (Z * float) :=
  [(T, 0%float); (T + 1, 1%float); (T + 2, 2%float); (T + 3, 3%float)].

Definition scenario_A (T : Z) : op unit :=
  ensure_metric cfg3 7 0 None None None None ;;~
  write_gauges cfg3 7 None None (samples_A T).

Definition samples_gap : list (Z * float) :=
  [(0, 0%float); (1, 1%float); (2, 2%float); (4, 4%float)].

Definition scenario_gap : op unit :=
  ensure_metric cfg3 7 0 None None None None ;;~
  write_gauges cfg3 7 None None samples_gap.

(** The store once metric 7 is created in an empty database. *)
Definition store_A0 : store := snd (ensure_metric cfg3 7 0 None None None None empty_store).

(** A metric allocated by name: [ensure_metric_descriptor(None, typ=0,
    step=1, slots=10, name="foo")] on an empty database. *)
Definition store_E : store :=
  snd (ensure_metric_descriptor init_tsdb None 0 (Some 2) (Some 10) (Some "foo")
         (Some [("env", "qa")]) empty_store).
Definition store_B0 : store :=
  snd (ensure_metric_descriptor init_tsdb (Some 7) 1 None (Some 4) None None empty_store).
(** Scenario B: a counter with [slots=4], writes [(T, v1)] and [(T+1, v2)],
    then [read_range(T, T+1)]. *)
Definition scenario_B (T : Z) (v1 v2 : float) : op (list row) :=
  write_counter init_tsdb (Some 7) T v1 None None None (Some 4) ;;~
  write_counter init_tsdb (Some 7) (T + 1) v2 None None None (Some 4) ;;~
  read_range 7 T (T + 1).
(** The name and tags [rewrite_metric_retention] passes on from the
    meta-info: [info.get("name")] (an absent name acts as [""]) and
    [info.get("tags") or {}]. *)
Definition info_name_of (s : store) (id : Z) : string :=
  match infos s !! id with Some i => info_name i | None => "" end.
Definition info_tags_of (s : store) (id : Z) : tags :=
  match infos s !! id with Some i => info_tags i | None => [] end.
(** A gauge [7] with [(step, slots) = (1, 3)] holding the sample [(5, 1)]. *)
Definition store_C : store :=
  snd (write_gauge cfg3 (Some 7) 5 1 None None None None store_A0).
Definition store_foo : store :=
  snd (ensure_metric_descriptor init_tsdb None 0 (Some 1) (Some 10) (Some "foo") None
         empty_store).

(** The spec's [rolling_mean]: at row [i], the trailing window of the
    last [w] rows, its non-NULL values, and their arithmetic mean (NULL
    when there is none), read over exact rationals. *)
Fixpoint non_null {A} (xs : list (option A)) : list A :=
  match xs with
  | [] => []
  | Some v :: rest => v :: non_null rest
  | None :: rest => non_null rest
  end.
Definition trailing_window {A} (series : list (option A)) (w i : nat) : list (option A) :=
  drop (S i - w) (take (S i) series).
Definition all_null {A} (xs : list (option A)) : bool :=
  match non_null xs with [] => true | _ => false end.
Definition qsum (vs : list Qc) : Qc := fold_right Qcplus (Q2Qc 0) vs.
Definition Qc_mean (vs : list Qc) : Qc :=
  Qcdiv (qsum vs) (Q2Qc (inject_Z (Z.of_nat (length vs)))).
Definition rolling_mean_spec (series : list (option Qc)) (w i : nat) : option Qc :=
  match non_null (trailing_window series w i) with
  | [] => None
  | vs => Some (Qc_mean vs)
  end.
(** Whether a result row is NULL. *)
Definition is_null {A} (o : option A) : bool :=
  match o with None => true | Some _ => false end.

(** A series whose values differ by 16 orders of magnitude. *)
Definition series_cancel : list (option float) := [Some 1e16%float; Some 1%float].

(** The spec's [bucket_rate(curr, prev, b)]: NULL if an argument is NULL,
    [b <= 0] or [curr < prev]; otherwise [(curr - prev) / b]. *)
Definition bucket_rate_spec (curr prev : option float) (b : option Z) : option float :=
  match curr, prev, b with
  | Some c, Some p, Some b =>
      if (b <=? 0) || PrimFloat.ltb c p then None
      else Some (PrimFloat.div (PrimFloat.sub c p) (float_of_Z b))
  | _, _, _ => None
  end.

End SpecSide.

(* ------------------------------------------------------------------ *)
(** * Proofs *)

Import Py QueryEngine Tsdb SpecSide.
Local Open Scope txn_scope.

(** The order of rows by [ts]. *)
Definition ts_le (a b : row) : Prop := row_ts a <= row_ts b.

(** A row a read of [[start_ts, end_ts]] may return for a metric of
    step [step]. *)
Definition row_ok (start_ts end_ts step : Z) (r : row) : Prop :=
  start_ts <= row_ts r <= end_ts /\ (step | row_ts r).

(** The slots [(ss + j) % slots] for [j < c]: those the segments of
    [_segments_for(ss, c, slots)] cover, in scan order. *)
Definition ring_slots (ss c slots : Z) : list Z :=
  map (fun j => (ss + Z.of_nat j) mod slots) (seq 0 (Z.to_nat c)).

(** The value map after writing the samples [ws] of one metric. *)
Definition ring_fold (id P S : Z) (ws : list (Z * float)) (m : gmap (Z * Z) raw_value)
    : gmap (Z * Z) raw_value :=
  fold_left (fun m tv => <[(id, (tv.1 / P) mod S) := RawRecord (tv.1 / P) tv.2 FLAG_VALID]> m)
    ws m.

(** The sample a valid record in range becomes. *)
Definition row_of_raw (typ step : Z) (raw : raw_value) : row :=
  match raw with
  | RawRecord window v _ => (window * step, v, typ)
  | RawOther _ => (0, 0%float, typ)
  end.

(** The row a read returns for the sample [(ts, v)] of a gauge. *)
Definition sample_row (P : Z) (tv : Z * float) : row := ((tv.1 / P) * P, tv.2, 0).

(** [t1 - t0] for two timestamp cells that are both present. *)
Definition ts_delta (t1 t0 : option (option Z)) : option Z :=
  match t1, t0 with Some (Some a), Some (Some b) => Some (a - b) | _, _ => None end.

(** The order of IEEE doubles without NaN, as a lexicographic key:
    class (-inf, negative, zero, positive, +inf), then exponent, then
    mantissa, with the signs of the negative side flipped. *)
Definition lexcmp (a b : Z * Z * Z) : comparison :=
  match Z.compare a.1.1 b.1.1 with
  | Eq => match Z.compare a.1.2 b.1.2 with Eq => Z.compare a.2 b.2 | c => c end
  | c => c
  end.

Definition sf_key (x : spec_float) : Z * Z * Z :=
  match x with
  | S754_infinity true => (-2, 0, 0)
  | S754_finite true m e => (-1, - e, - Zpos m)
  | S754_zero _ => (0, 0, 0)
  | S754_finite false m e => (1, e, Zpos m)
  | S754_infinity false => (2, 0, 0)
  | S754_nan => (0, 0, 0)
  end.

Definition key_lt (a b : Z * Z * Z) : Prop :=
  a.1.1 < b.1.1 \/ (a.1.1 = b.1.1 /\ (a.1.2 < b.1.2 \/ (a.1.2 = b.1.2 /\ a.2 < b.2))).

Definition fkey (x : float) : Z * Z * Z := sf_key (Prim2SF x).
Definition is_nan_sf (x : float) : Prop := Prim2SF x = S754_nan.

(** The row [list_metrics] builds for the metric [mid]. *)
Definition metric_row_of (s : store) (mid : Z) : option metric_row :=
  match metas s !! mid with
  | None => None
  | Some (step, slots, typ) =>
      Some {| metric_id := mid;
              metric_name := match infos s !! mid with Some i => info_name i | None => "" end;
              metric_tags := match infos s !! mid with Some i => info_tags i | None => [] end;
              metric_type := typ; metric_step := step; metric_slots := slots |}
  end.

(** The filter of [find_metrics] as a predicate: the name (when given and
    non-empty) equals, and every requested tag [k = v] is set on the
    metric. *)
Definition metric_matches (name : option string) (t : tags) (m : metric_row) : bool :=
  match py_truthy_str name with Some n => String.eqb (metric_name m) n | None => true end &&
  forallb (fun kv => opt_str_eqb (dict_get (metric_tags m) kv.1) (Some kv.2)) t.

(** [k] has the value [v] in a catalog. *)
Definition cat_mem (catalog : list (string * list string)) (k v : string) : Prop :=
  exists vals, In (k, vals) catalog /\ In v vals.
Definition cat_ok (catalog : list (string * list string)) : Prop :=
  NoDup (map fst catalog) /\ forall k vals, In (k, vals) catalog -> NoDup vals.


(** Example data. *)
Definition store_two_desc : store :=
  snd ((ensure_metric_descriptor cfg3 (Some 7) 0 None None (Some "cpu") (Some [("host", "a")]) ;;~
        ensure_metric_descriptor cfg3 (Some 7) 0 None None (Some "cpu") (Some [("dc", "x")]))
       empty_store).

Definition info_two_desc : meta_info :=
  {| info_name := "cpu"; info_tags := [("host", "a"); ("dc", "x")] |}.

Definition store_id1 : store := snd (ensure_metric cfg3 1 0 None None None None empty_store).

Definition store_list : store :=
  snd ((ensure_metric_descriptor cfg3 None 0 None None (Some "cpu") (Some [("host", "a")]) ;;~
        ensure_metric_descriptor cfg3 None 0 None None (Some "mem") (Some [("host", "a")]) ;;~
        ensure_metric_descriptor cfg3 None 1 None None (Some "cpu") (Some [("host", "b")]))
       empty_store).

Definition rows_list : list metric_row :=
  match fst (list_metrics store_list) with inr r => r | inl _ => [] end.

Definition counters_ex : list (option float) := [Some 10%float; Some 16%float; Some 4%float].
Definition timestamps_ex : list (option Z) := [Some 0; Some 2; Some 4].

(** Unfold the monad plumbing of a transaction or a method call. *)
Ltac tsimpl_in H :=
  cbv beta iota zeta delta [tbind tret traise tget tput tcheck tlift
    obind oret oraise olift _run_transaction
    _value_key _meta_key _meta_info_key _load_meta_tr _load_meta_info_tr
    _load_meta _load_meta_info] in H.
Ltac tsimpl :=
  cbv beta iota zeta delta [tbind tret traise tget tput tcheck tlift
    obind oret oraise olift _run_transaction
    _value_key _meta_key _meta_info_key _load_meta_tr _load_meta_info_tr
    _load_meta _load_meta_info].

(** ** Sorting by [ts] *)

Lemma insert_row_perm (r : row) (l : list row) : insert_row r l ≡ₚ r :: l.
Proof.
  induction l as [|r' l IH]; simpl; [done|].
  destruct (row_ts r <? row_ts r'); [done|].
  rewrite IH. constructor.
Qed.

Lemma sort_rows_perm (l : list row) : sort_rows l ≡ₚ l.
Proof.
  unfold sort_rows.
  enough (H : forall acc, fold_left (fun acc r => insert_row r acc) l acc ≡ₚ rev l ++ acc).
  { rewrite H, app_nil_r. symmetry. apply Permutation_rev. }
  induction l as [|r l IH]; intros acc; simpl; [done|].
  rewrite IH, insert_row_perm, <- app_assoc. done.
Qed.

Lemma insert_row_sorted (r : row) (l : list row) :
  Sorted ts_le l -> Sorted ts_le (insert_row r l).
Proof.
  induction 1 as [|r' l Hs IH Hd]; simpl.
  - repeat constructor.
  - destruct (row_ts r <? row_ts r') eqn:E.
    + apply Z.ltb_lt in E. constructor; [by constructor|].
      constructor. unfold ts_le. lia.
    + apply Z.ltb_ge in E. constructor; [done|].
      destruct l as [|r'' l]; simpl.
      * constructor. unfold ts_le. lia.
      * inversion Hd; subst.
        destruct (row_ts r <? row_ts r''); constructor; unfold ts_le in *; lia.
Qed.

Lemma sort_rows_sorted (l : list row) : Sorted ts_le (sort_rows l).
Proof.
  unfold sort_rows.
  enough (H : forall acc, Sorted ts_le acc ->
            Sorted ts_le (fold_left (fun acc r => insert_row r acc) l acc)).
  { apply H. constructor. }
  induction l as [|r l IH]; intros acc Hacc; simpl; [done|].
  apply IH, insert_row_sorted, Hacc.
Qed.

(** ** C10: an inverted range reads as empty *)

(** C10: for every metric id and [end_ts < start_ts], [read_range]
    returns the empty list and raises nothing (nor touches the store). *)
Theorem read_range_inverted_empty (s : store) (metric_id start_ts end_ts : Z) :
  end_ts < start_ts -> read_range metric_id start_ts end_ts s = (inr [], s).
Proof.
  intros H. unfold read_range. rewrite (proj2 (Z.ltb_lt _ _) H). reflexivity.
Qed.

Lemma read_range_inverted_empty_witness :
  3 < 10 /\ read_range 42 10 3 empty_store = (inr [], empty_store).
Proof. split; [lia | apply read_range_inverted_empty; lia]. Defined.

(** ** C3: the rows of a range read *)

Lemma scan_records_ok start_ts end_ts typ step raws rows out :
  scan_records start_ts end_ts typ step raws rows = inr out ->
  Forall (row_ok start_ts end_ts step) rows ->
  Forall (row_ok start_ts end_ts step) out.
Proof.
  revert rows. induction raws as [|raw raws IH]; intros rows Hs Hrows; simpl in Hs.
  - by injection Hs as <-.
  - destruct raw as [window v flags|n]; simpl in Hs.
    + destruct (Z.land flags FLAG_VALID =? 0); [by eapply IH|].
      destruct ((window * step <? start_ts) || (end_ts <? window * step)) eqn:E;
        [by eapply IH|].
      apply (IH _ Hs). apply Forall_app; split; [done|].
      apply Forall_singleton. apply orb_false_iff in E as [E1 E2].
      apply Z.ltb_ge in E1. apply Z.ltb_ge in E2. unfold row_ok, row_ts; simpl.
      split; [lia|]. exists window. lia.
    + destruct (n <? 9)%nat; [by eapply IH | done].
Qed.

Lemma scan_segs_ok metric_id segs start_ts end_ts typ step rows s out s' :
  scan_segs metric_id segs start_ts end_ts typ step rows s = inr (out, s') ->
  Forall (row_ok start_ts end_ts step) rows ->
  s' = s /\ Forall (row_ok start_ts end_ts step) out.
Proof.
  revert rows. induction segs as [|[a b] segs IH]; intros rows Hs Hrows; simpl in Hs.
  - by injection Hs as <- <-.
  - destruct (b <? a); [by eapply IH|].
    tsimpl_in Hs.
    destruct (_ensure_u32 metric_id); [done|].
    destruct (in_range 0 a (2 ^ 32)); [|done].
    destruct (in_range 0 (b + 1) (2 ^ 32)); [|done].
    destruct (scan_records start_ts end_ts typ step (get_range s metric_id a (b + 1)) rows)
      as [e|rows'] eqn:E; [done|].
    eapply IH; [exact Hs|]. by eapply scan_records_ok.
Qed.

(** C3: every sample a range read returns has a [ts] that is a multiple
    of the metric's step and lies in [[start_ts, end_ts]], and the list is
    sorted by [ts] ascending. *)
Theorem read_range_rows_ok (s : store) (metric_id start_ts end_ts : Z)
    (rows : list row) (s' : store) :
  read_range metric_id start_ts end_ts s = (inr rows, s') ->
  Sorted ts_le rows /\
  Forall (fun r => start_ts <= row_ts r <= end_ts /\
           exists step slots typ, metas s !! metric_id = Some (step, slots, typ) /\
                                  (step | row_ts r)) rows.
Proof.
  unfold read_range. intros H.
  destruct (end_ts <? start_ts).
  { injection H as <- _. split; constructor. }
  tsimpl_in H.
  destruct (_ensure_u32 metric_id); [done|].
  destruct (metas s !! metric_id) as [[[step slots] typ]|] eqn:Em;
    [|injection H as <- _; split; constructor].
  destruct (floordiv start_ts step) as [|sw]; [done|].
  destruct (floordiv end_ts step) as [|ew]; [done|].
  destruct (ew <? sw); [injection H as <- _; split; constructor|].
  destruct (Z.min slots (ew - sw + 1) <=? 0); [injection H as <- _; split; constructor|].
  destruct (pymod sw slots) as [|ss]; [done|].
  unfold _scan_segments in H. tsimpl_in H.
  destruct (scan_segs _ _ _ _ _ _ _ s) as [e|[out s1]] eqn:E; [done|].
  injection H as <- _.
  apply scan_segs_ok in E as [_ Hok]; [|constructor].
  split; [apply sort_rows_sorted|].
  rewrite (sort_rows_perm out).
  eapply Forall_impl; [exact Hok|]. intros r [Hr Hd]. split; [done|].
  by exists step, slots, typ.
Qed.

Lemma read_range_rows_ok_witness :
  read_range 7 1000 1003 (snd (scenario_A 1000 empty_store)) =
    (inr [(1001, 1%float, 0); (1002, 2%float, 0); (1003, 3%float, 0)],
     snd (scenario_A 1000 empty_store)) /\
  Sorted ts_le [(1001, 1%float, 0); (1002, 2%float, 0); (1003, 3%float, 0)] /\
  Forall (fun r => 1000 <= row_ts r <= 1003 /\
           exists step slots typ,
             metas (snd (scenario_A 1000 empty_store)) !! 7 = Some (step, slots, typ) /\
             (step | row_ts r))
    [(1001, 1%float, 0); (1002, 2%float, 0); (1003, 3%float, 0)].
Proof.
  assert (H : read_range 7 1000 1003 (snd (scenario_A 1000 empty_store)) =
                (inr [(1001, 1%float, 0); (1002, 2%float, 0); (1003, 3%float, 0)],
                 snd (scenario_A 1000 empty_store)))
    by (vm_compute; reflexivity).
  split; [exact H|]. exact (read_range_rows_ok _ _ _ _ _ _ H).
Defined.

(** ** Dictionaries of tags *)

Lemma string_eqb_refl' (x : string) : String.eqb x x = true.
Proof. apply String.eqb_eq. reflexivity. Qed.

Lemma dict_set_get_same (d : tags) (k v : string) :
  dict_get d k = Some v -> dict_set d k v = d.
Proof.
  induction d as [|[k' v'] d IH]; simpl; [done|].
  destruct (String.eqb k k') eqn:E.
  - intros [= ->]. apply String.eqb_eq in E as ->. done.
  - intros H. by rewrite IH.
Qed.

(** The merge of tags already present changes nothing. *)
Lemma merge_tags_present (d t : tags) :
  Forall (fun kv => dict_get d kv.1 = Some kv.2) t -> merge_tags d t = inr d.
Proof.
  induction t as [|[k v] t IH]; intros Ht; simpl; [done|].
  apply Forall_cons in Ht as [Hk Ht]. simpl in Hk. rewrite Hk, string_eqb_refl'.
  rewrite dict_set_get_same by done. by apply IH.
Qed.

(** ** [_ensure_meta_info] when nothing is new *)

Lemma set_infos_same (s : store) : set_infos s (infos s) = s.
Proof. by destruct s. Qed.

Lemma ensure_meta_info_noop (s : store) (mid : Z) (name : option string) (t : tags)
    (i : meta_info) :
  _ensure_u32 mid = inr tt ->
  infos s !! mid = Some i ->
  match py_truthy_str name with Some n => info_name i = n | None => True end ->
  Forall (fun kv => dict_get (info_tags i) kv.1 = Some kv.2) t ->
  _ensure_meta_info mid name (Some t) s = inr (tt, s).
Proof.
  intros Hu Hi Hn Ht. unfold _ensure_meta_info. tsimpl. rewrite Hu, Hi. simpl.
  assert (Hset : set_info mid {| info_name := info_name i; info_tags := info_tags i |} s =
                 inr (tt, s)).
  { unfold set_info. tsimpl. destruct i as [n0 t0].
    by rewrite insert_id, set_infos_same by done. }
  destruct (py_truthy_str name) as [n|] eqn:En.
  - subst n. rewrite string_eqb_refl', andb_false_r.
    unfold py_truthy_str in En. destruct name as [n|]; [|done].
    destruct (String.eqb n "") eqn:E0; [done|]. injection En as <-.
    rewrite E0. simpl.
    destruct t as [|kv t]; cbv iota beta; [by rewrite ?Hu, ?Hi|].
    rewrite (merge_tags_present _ (kv :: t) Ht). cbv iota beta.
    destruct (dict_eqb (info_tags i) (info_tags i)); simpl; [by rewrite ?Hi|done].
  - destruct t as [|kv t]; cbv iota beta; [by rewrite ?Hu, ?Hi|].
    rewrite (merge_tags_present _ (kv :: t) Ht). cbv iota beta.
    destruct (dict_eqb (info_tags i) (info_tags i)); simpl; [by rewrite ?Hi|done].
Qed.

(** ** C9: [period_diff] and [diff] *)

(** C9: the [period_diff] window function is an exact alias of [diff]:
    on every series and periods argument both produce the same array, and
    that array is, row by row, [value[i] - value[i - periods]], NULL for
    [i < periods] or a NULL endpoint, where [periods] is the parsed
    argument clamped below by 1 ([max(1, ...)]). *)
Theorem period_diff_is_diff (series : list (option float)) (arg : list (option Z)) :
  PeriodDiffWindow_evaluate_all series arg = DiffWindow_evaluate_all series arg /\
  DiffWindow_evaluate_all series arg =
    map (diff_at series (Z.max 1 (_parse_int_arg arg 1))) (seq 0 (length series)).
Proof.
  split; [reflexivity|].
  apply list_eq. intros i. unfold DiffWindow_evaluate_all.
  rewrite list_lookup_imap, list_lookup_fmap.
  destruct (decide (i < length series)%nat) as [Hi|Hi].
  - rewrite lookup_seq_lt by done. simpl. unfold diff_at.
    destruct (series !! i) as [c|] eqn:E.
    + simpl. destruct (Z.of_nat i <? Z.max 1 (_parse_int_arg arg 1)); [done|].
      destruct c; done.
    + apply lookup_lt_is_Some_2 in Hi. rewrite E in Hi. by destruct Hi.
  - rewrite lookup_seq_ge by lia. rewrite (lookup_ge_None_2 series i) by lia. done.
Qed.

(** ** [ensure_metric_descriptor] by id, without name or tags *)

Lemma emd_by_id (self : tsdb) (s : store) (id ty : Z) (st sl : option Z)
    (P S P' S' ty0 : Z) (i : meta_info) :
  _ensure_u32 id = inr tt ->
  metas s !! id = Some (P, S, ty0) ->
  infos s !! id = Some i ->
  py_or_int st (default_step self) = P' ->
  py_or_int sl (default_slots self) = S' ->
  _pack_meta P' S' ty = inr (P', S', ty) ->
  ensure_metric_descriptor self (Some id) ty st sl None None s =
    (if (P =? P') && (S =? S') && (ty0 =? ty) then inr id
     else inl (ValueError "metric already registered with different metadata"), s).
Proof.
  intros Hu Hm Hi HP HS Hp. unfold ensure_metric_descriptor. tsimpl.
  rewrite Hu. simpl. rewrite HP, HS, Hp. simpl. rewrite Hm.
  destruct (P =? P'), (S =? S'), (ty0 =? ty); simpl; try done.
  rewrite (ensure_meta_info_noop s id None [] i Hu Hi I (List.Forall_nil _)). done.
Qed.

(** ** One value write *)

Lemma in_range_true (lo x hi : Z) : lo <= x < hi -> in_range lo x hi = true.
Proof. intros [H1 H2]. unfold in_range. apply andb_true_intro. split; lia. Qed.

Lemma ensure_u32_ok (id : Z) : 0 <= id <= 0xFFFFFFFF -> _ensure_u32 id = inr tt.
Proof.
  intros H. unfold _ensure_u32.
  replace ((id <? 0) || (0xFFFFFFFF <? id)) with false; [done|]. symmetry.
  apply orb_false_intro; lia.
Qed.

(** [_write_value] on a metric with a sane meta stores the record of the
    window [ts // step] in the slot [window % slots]. *)
Lemma write_value_ok (s : store) (id ts P S ty : Z) (v r : float) :
  _ensure_u32 id = inr tt ->
  metas s !! id = Some (P, S, ty) -> 0 < P -> 0 < S < 2 ^ 32 ->
  0 <= ts / P < 2 ^ 32 -> f32_pack v = inr r ->
  _write_value id ts v s =
    (inr tt, set_values s (<[(id, (ts / P) mod S) := RawRecord (ts / P) r FLAG_VALID]>
                             (values s))).
Proof.
  intros Hu Hm HP HS Hw Hf. unfold _write_value, set_value. tsimpl.
  rewrite Hu, Hm. cbn iota beta.
  unfold _slot_for, floordiv, pymod.
  replace (P <=? 0) with false by lia. replace (P =? 0) with false by lia.
  replace (S =? 0) with false by lia. cbn iota beta. rewrite ?Hu.
  rewrite (in_range_true 0 ((ts / P) mod S) (2 ^ 32))
    by (pose proof (Z.mod_pos_bound (ts / P) S); lia).
  cbn iota beta. unfold _pack_value_record.
  rewrite (in_range_true 0 (ts / P) (2 ^ 32)) by lia. rewrite Hf.
  rewrite (in_range_true 0 FLAG_VALID 256) by (unfold FLAG_VALID; lia). done.
Qed.

Lemma pack_meta_ok (P S ty : Z) :
  0 < P < 2 ^ 31 -> 0 < S < 2 ^ 31 -> 0 <= ty < 256 -> _pack_meta P S ty = inr (P, S, ty).
Proof.
  intros HP HS Ht. unfold _pack_meta.
  rewrite !in_range_true by lia. done.
Qed.

(** [write_gauge] by id, without name or tags, on a gauge whose meta is
    the effective [(step, slots)]: it stores one record and returns the id. *)
Lemma write_gauge_ok (self : tsdb) (s : store) (id : Z) (st sl : option Z)
    (P S ts : Z) (v r : float) (i : meta_info) :
  0 <= id <= 0xFFFFFFFF -> metas s !! id = Some (P, S, 0) -> infos s !! id = Some i ->
  py_or_int st (default_step self) = P -> py_or_int sl (default_slots self) = S ->
  0 < P < 2 ^ 31 -> 0 < S < 2 ^ 31 -> 0 <= ts / P < 2 ^ 32 -> f32_pack v = inr r ->
  write_gauge self (Some id) ts v None None st sl s =
    (inr id, set_values s (<[(id, (ts / P) mod S) := RawRecord (ts / P) r FLAG_VALID]>
                             (values s))).
Proof.
  intros Hu Hm Hi HP HS HP' HS' Hw Hf. apply ensure_u32_ok in Hu.
  unfold write_gauge. tsimpl.
  rewrite (emd_by_id self s id 0 st sl P S P S 0 i Hu Hm Hi HP HS)
    by (apply pack_meta_ok; lia).
  rewrite !Z.eqb_refl. cbn iota beta.
  simpl. rewrite (write_value_ok s id ts P S 0 v r Hu Hm) by (done || lia). done.
Qed.

(** ** A range read scans the ring from the start window's slot *)

Lemma scan_records_app start_ts end_ts typ step l1 l2 rows :
  scan_records start_ts end_ts typ step (l1 ++ l2) rows =
  match scan_records start_ts end_ts typ step l1 rows with
  | inl e => inl e
  | inr rows' => scan_records start_ts end_ts typ step l2 rows'
  end.
Proof.
  revert rows. induction l1 as [|raw l1 IH]; intros rows; simpl; [done|].
  destruct (scan_record start_ts end_ts typ step raw) as [e|[r|]]; auto.
Qed.

Lemma map_seq_ext {A} (f g : nat -> A) (m n k : nat) :
  (forall i, (i < k)%nat -> f (m + i)%nat = g (n + i)%nat) ->
  map f (seq m k) = map g (seq n k).
Proof.
  revert m n. induction k as [|k IH]; intros m n H; simpl; [done|].
  f_equal.
  - specialize (H 0%nat ltac:(lia)). by rewrite !Nat.add_0_r in H.
  - apply IH. intros i Hi. specialize (H (S i) ltac:(lia)).
    by rewrite <- !Nat.add_succ_comm in H.
Qed.

Lemma ring_slots_one (ss c slots : Z) :
  0 <= ss -> 0 < c -> ss + c <= slots ->
  ring_slots ss c slots = Z_range ss (ss + c - 1 + 1).
Proof.
  intros H1 H2 H3. unfold ring_slots, Z_range.
  replace (ss + c - 1 + 1 - ss) with c by lia.
  apply map_seq_ext. intros i Hi. simpl. apply Z.mod_small. lia.
Qed.

Lemma ring_slots_two (ss c slots : Z) :
  0 <= ss < slots -> 0 < c <= slots -> slots < ss + c ->
  ring_slots ss c slots =
    Z_range ss (slots - 1 + 1) ++ Z_range 0 (c - (slots - ss) - 1 + 1).
Proof.
  intros H1 H2 H3. unfold ring_slots, Z_range.
  replace (Z.to_nat c) with (Z.to_nat (slots - ss) + Z.to_nat (c - (slots - ss)))%nat
    by lia.
  rewrite seq_app, map_app. f_equal.
  - replace (slots - 1 + 1 - ss) with (slots - ss) by lia.
    apply map_seq_ext. intros i Hi. simpl. apply Z.mod_small. lia.
  - replace (c - (slots - ss) - 1 + 1 - 0) with (c - (slots - ss)) by lia.
    apply map_seq_ext. intros i Hi. simpl.
    replace (ss + Z.of_nat (Z.to_nat (slots - ss) + i)) with (Z.of_nat i + 1 * slots)
      by lia.
    rewrite Z.mod_add by lia. apply Z.mod_small. lia.
Qed.

(** [read_range] on a metric with a sane meta and [start_ts <= end_ts]:
    the records of the [min(slots, windows)] slots from the start
    window's slot on, filtered by [scan_records], then sorted. *)
Lemma read_range_ring (s : store) (id a b P S ty : Z) :
  _ensure_u32 id = inr tt -> metas s !! id = Some (P, S, ty) ->
  0 < P -> 0 < S < 2 ^ 32 -> a <= b ->
  read_range id a b s =
    (match scan_records a b ty P
             (omap (fun k => values s !! (id, k))
                (ring_slots ((a / P) mod S) (Z.min S (b / P - a / P + 1)) S)) [] with
     | inl e => inl e
     | inr rows => inr (sort_rows rows)
     end, s).
Proof.
  intros Hu Hm HP HS Hab. unfold read_range.
  replace (b <? a) with false by lia. tsimpl. rewrite Hu, Hm. cbn iota beta.
  unfold floordiv, pymod.
  replace (P =? 0) with false by lia. replace (S =? 0) with false by lia.
  cbn iota beta.
  assert (Hw : a / P <= b / P) by (apply Z.div_le_mono; lia).
  replace (b / P <? a / P) with false by lia.
  replace (Z.min S (b / P - a / P + 1) <=? 0) with false by lia.
  cbn iota beta.
  set (ss := (a / P) mod S). set (c := Z.min S (b / P - a / P + 1)).
  assert (Hss : 0 <= ss < S) by (apply Z.mod_pos_bound; lia).
  assert (Hc : 0 < c <= S) by lia.
  unfold _scan_segments, _segments_for. tsimpl.
  replace (c <=? 0) with false by lia.
  destruct (ss + c <=? S) eqn:E.
  - simpl. replace (ss + c - 1 <? ss) with false by lia. tsimpl. rewrite Hu.
    rewrite (in_range_true 0 ss (2 ^ 32)) by lia.
    rewrite (in_range_true 0 (ss + c - 1 + 1) (2 ^ 32)) by lia. simpl.
    unfold get_range. rewrite ring_slots_one by lia.
    by destruct (scan_records _ _ _ _ _ _).
  - simpl. replace (S - 1 <? ss) with false by lia. tsimpl. rewrite Hu.
    rewrite (in_range_true 0 ss (2 ^ 32)) by lia.
    rewrite (in_range_true 0 (S - 1 + 1) (2 ^ 32)) by lia. simpl.
    replace (c - (S - ss) - 1 <? 0) with false by lia. simpl.
    rewrite (in_range_true 0 (c - (S - ss) - 1 + 1) (2 ^ 32)) by lia. simpl.
    unfold get_range. rewrite (ring_slots_two ss c S) by lia.
    rewrite omap_app, scan_records_app.
    destruct (scan_records _ _ _ _ (omap _ (Z_range ss _)) _); [done|].
    by destruct (scan_records _ _ _ _ _ _).
Qed.

(** ** A sequence of gauge writes *)

Lemma set_values_twice (s : store) m1 m2 :
  set_values (set_values s m1) m2 = set_values s m2.
Proof. by destruct s. Qed.

Lemma write_gauges_ok (self : tsdb) (s : store) (id : Z) (st sl : option Z)
    (P S : Z) (i : meta_info) (ws : list (Z * float)) :
  0 <= id <= 0xFFFFFFFF -> metas s !! id = Some (P, S, 0) -> infos s !! id = Some i ->
  py_or_int st (default_step self) = P -> py_or_int sl (default_slots self) = S ->
  0 < P < 2 ^ 31 -> 0 < S < 2 ^ 31 ->
  Forall (fun tv => 0 <= tv.1 / P < 2 ^ 32 /\ f32_pack tv.2 = inr tv.2) ws ->
  write_gauges self id st sl ws s = (inr tt, set_values s (ring_fold id P S ws (values s))).
Proof.
  intros Hu Hm Hi HP HS HP' HS' Hws. revert s Hm Hi.
  induction ws as [|[t v] ws IH]; intros s Hm Hi; simpl.
  - by destruct s.
  - apply Forall_cons in Hws as [[Hw Hf] Hws]. simpl in Hw, Hf.
    tsimpl. rewrite (write_gauge_ok self s id st sl P S t v v i) by done.
    rewrite IH by done. by rewrite set_values_twice.
Qed.

Lemma mod_neq (S x y : Z) : 0 < y - x < S -> x mod S <> y mod S.
Proof.
  intros H E.
  pose proof (Z.div_mod x S ltac:(lia)) as Hx.
  pose proof (Z.div_mod y S ltac:(lia)) as Hy.
  assert (Hq : y - x = S * (y / S - x / S)) by lia.
  destruct (Z.le_gt_cases (y / S - x / S) 0); nia.
Qed.

(** After consecutive windows, the slot of each of the last [S] writes
    holds that write. *)
Lemma ring_fold_last (id P S w0 : Z) (ws : list (Z * float)) m (i : nat) t v :
  0 < S ->
  (forall j t v, ws !! j = Some (t, v) -> t / P = w0 + Z.of_nat j) ->
  ws !! i = Some (t, v) -> (length ws <= i + Z.to_nat S)%nat ->
  ring_fold id P S ws m !! (id, (t / P) mod S) = Some (RawRecord (t / P) v FLAG_VALID).
Proof.
  intros HS. induction ws as [|[t' v'] ws IH] using rev_ind; intros Hw Hi Hlen;
    [done|].
  unfold ring_fold. rewrite fold_left_app. simpl.
  rewrite length_app in Hlen. simpl in Hlen.
  assert (Hlast := Hw (length ws) t' v' ltac:(by rewrite lookup_app_r, Nat.sub_diag by lia)).
  destruct (decide (i = length ws)) as [->|Hne].
  - rewrite lookup_app_r, Nat.sub_diag in Hi by lia. injection Hi as <- <-.
    by rewrite lookup_insert_eq.
  - assert (Hil : (i < length ws)%nat).
    { apply lookup_lt_Some in Hi. rewrite length_app in Hi. simpl in Hi. lia. }
    rewrite lookup_app_l in Hi by done.
    assert (Hti := Hw i t v ltac:(by rewrite lookup_app_l)).
    rewrite lookup_insert_ne.
    + apply IH; [|done|lia]. intros j tj vj Hj. apply (Hw j tj vj).
      rewrite lookup_app_l; [done|]. by apply lookup_lt_Some in Hj.
    + intros [= E]. rewrite Hlast, Hti in E.
      apply (mod_neq S (w0 + Z.of_nat i) (w0 + Z.of_nat (length ws))); [lia|done].
Qed.

(** ** The last [S] windows, indexed by slot *)

Lemma Z_range_In (a b x : Z) : In x (Z_range a b) <-> a <= x < b.
Proof.
  unfold Z_range. rewrite in_map_iff. split.
  - intros [m [<- Hm]]. apply in_seq in Hm. lia.
  - intros H. exists (Z.to_nat (x - a)). split; [lia|]. apply in_seq. lia.
Qed.

Lemma Z_range_NoDup (a b : Z) : NoDup (Z_range a b).
Proof.
  unfold Z_range. apply NoDup_ListNoDup, NoDup_map_NoDup_ForallPairs; [|apply seq_NoDup].
  intros x y _ _ E. lia.
Qed.

Lemma Z_range_cons (a b : Z) : a < b -> Z_range a b = a :: Z_range (a + 1) b.
Proof.
  intros H. unfold Z_range.
  replace (Z.to_nat (b - a)) with (S (Z.to_nat (b - (a + 1)))) by lia.
  simpl. f_equal; [lia|]. apply map_seq_ext. intros i _. lia.
Qed.

Lemma omap_Z_range_drop {A} (l : list A) (a : Z) :
  0 <= a <= Z.of_nat (length l) ->
  omap (fun i => l !! Z.to_nat i) (Z_range a (Z.of_nat (length l))) = drop (Z.to_nat a) l.
Proof.
  remember (Z.to_nat (Z.of_nat (length l) - a)) as k eqn:Hk. revert a Hk.
  induction k as [|k IH]; intros a Hk Ha.
  - replace (Z.to_nat a) with (length l) by lia. rewrite drop_all.
    unfold Z_range. by rewrite <- Hk.
  - rewrite Z_range_cons by lia.
    destruct (l !! Z.to_nat a) as [x|] eqn:Ex.
    + simpl. rewrite Ex. rewrite (drop_S l x (Z.to_nat a)) by done.
      f_equal. replace (S (Z.to_nat a)) with (Z.to_nat (a + 1)) by lia.
      apply IH; lia.
    + apply lookup_ge_None_1 in Ex. lia.
Qed.

Section LastWindows.
(** [n] writes of consecutive windows [w0, w0 + 1, ...] into [S] slots. *)
Variables (n S w0 : Z).
Hypothesis HS : 0 < S.

(** The index of the last write that lands in slot [k]. *)
Definition i_of (k : Z) : Z := n - S + ((k - (w0 + n - S)) mod S).

Lemma i_of_slot_mod (k : Z) : (w0 + i_of k) mod S = k mod S.
Proof.
  unfold i_of.
  replace (w0 + (n - S + (k - (w0 + n - S)) mod S))
    with ((w0 + n - S) + (k - (w0 + n - S)) mod S) by lia.
  rewrite Z.add_mod_idemp_r by lia. f_equal. lia.
Qed.

Lemma i_of_range (k : Z) : n - S <= i_of k < n.
Proof. unfold i_of. pose proof (Z.mod_pos_bound (k - (w0 + n - S)) S HS). lia. Qed.

Lemma i_of_of_index (i : Z) : n - S <= i < n -> i_of ((w0 + i) mod S) = i.
Proof.
  intros H. unfold i_of. rewrite Zminus_mod_idemp_l.
  replace (w0 + i - (w0 + n - S)) with (i - (n - S)) by lia.
  rewrite Z.mod_small by lia. lia.
Qed.

Lemma ring_slots_indices (ss : Z) :
  0 <= ss < S ->
  Permutation (map i_of (ring_slots ss S S)) (Z_range (n - S) n).
Proof.
  intros Hss. apply NoDup_Permutation.
  - unfold ring_slots. rewrite map_map.
    apply NoDup_ListNoDup, NoDup_map_NoDup_ForallPairs; [|apply seq_NoDup].
    intros j1 j2 Hj1 Hj2 E. apply in_seq in Hj1, Hj2.
    assert (E' : (ss + Z.of_nat j1) mod S = (ss + Z.of_nat j2) mod S).
    { pose proof (i_of_slot_mod ((ss + Z.of_nat j1) mod S)) as M1.
      pose proof (i_of_slot_mod ((ss + Z.of_nat j2) mod S)) as M2.
      rewrite E, M2, !Z.mod_mod in M1 by lia. done. }
    destruct (Nat.lt_trichotomy j1 j2) as [Hlt|[Heq|Hlt]]; [|done|].
    + exfalso. revert E'. apply mod_neq. lia.
    + exfalso. symmetry in E'. revert E'. apply mod_neq. lia.
  - apply Z_range_NoDup.
  - intros x. rewrite !list_elem_of_In, Z_range_In. split.
    + intros Hx. apply in_map_iff in Hx as [k [<- _]]. apply i_of_range.
    + intros Hx. apply in_map_iff.
      exists ((w0 + x) mod S). split; [by apply i_of_of_index|].
      unfold ring_slots. apply in_map_iff.
      exists (Z.to_nat (((w0 + x) mod S - ss) mod S)).
      pose proof (Z.mod_pos_bound ((w0 + x) mod S - ss) S HS).
      split; [|apply in_seq; lia].
      rewrite Z2Nat.id by lia. rewrite Z.add_mod_idemp_r by lia.
      replace (ss + ((w0 + x) mod S - ss)) with ((w0 + x) mod S) by lia.
      apply Z.mod_mod. lia.
Qed.

End LastWindows.

(** ** Ring wrap with consecutive windows *)

Lemma scan_records_all start_ts end_ts typ step raws rows :
  Forall (fun raw => scan_record start_ts end_ts typ step raw =
                     inr (Some (row_of_raw typ step raw))) raws ->
  scan_records start_ts end_ts typ step raws rows =
    inr (rows ++ map (row_of_raw typ step) raws).
Proof.
  revert rows. induction raws as [|raw raws IH]; intros rows H; simpl.
  - by rewrite app_nil_r.
  - apply Forall_cons in H as [H1 H2]. rewrite H1, IH by done.
    by rewrite <- app_assoc.
Qed.

Lemma omap_map_ext {A B C} (f : A -> option C) (g : B -> option C) (h : A -> B) l :
  (forall x, In x l -> f x = g (h x)) -> omap f l = omap g (map h l).
Proof.
  induction l as [|x l IH]; intros H; simpl; [done|].
  rewrite (H x (or_introl eq_refl)).
  assert (E : omap f l = omap g (map h l)).
  { apply IH. intros y Hy. apply H. by right. }
  destruct (g (h x)); [f_equal|]; apply E.
Qed.

Lemma omap_option_map {A B C} (g : A -> option B) (f : B -> C) l :
  omap (fun x => option_map f (g x)) l = map f (omap g l).
Proof.
  induction l as [|x l IH]; simpl; [done|].
  destruct (g x); simpl; [f_equal|]; apply IH.
Qed.

Lemma Sorted_by_lookup {A} (R : relation A) (l : list A) :
  (forall j x y, l !! j = Some x -> l !! S j = Some y -> R x y) -> Sorted R l.
Proof.
  induction l as [|x l IH]; intros H; [constructor|].
  constructor.
  - apply IH. intros j y z Hy Hz. by apply (H (S j)).
  - destruct l as [|y l]; constructor. by apply (H 0%nat).
Qed.

#[local] Instance ts_le_trans : Transitive ts_le.
Proof. intros x y z. unfold ts_le. lia. Qed.

Lemma last_rows_lookup (P w0 : Z) (ws : list (Z * float)) (k j : nat) (x : row) :
  (forall j t v, ws !! j = Some (t, v) -> t / P = w0 + Z.of_nat j) ->
  map (sample_row P) (drop k ws) !! j = Some x ->
  exists t v, ws !! (k + j)%nat = Some (t, v) /\ t / P = w0 + Z.of_nat (k + j) /\
              x = ((w0 + Z.of_nat (k + j)) * P, v, 0).
Proof.
  intros Hw Hx. rewrite list_lookup_fmap, lookup_drop in Hx.
  destruct (ws !! (k + j)%nat) as [[t v]|] eqn:E; [|done].
  injection Hx as <-. exists t, v. pose proof (Hw _ _ _ E) as Ht.
  split; [done|]. split; [done|]. unfold sample_row. simpl. by rewrite Ht.
Qed.

(** Writes of [n > S] consecutive windows, then a read covering all of
    them: the ring holds, and the read returns, the last [S] samples in
    window order. *)
Lemma ring_last_writes (self : tsdb) (s : store) (id : Z) (st sl : option Z)
    (P S w0 a b : Z) (i : meta_info) (ws : list (Z * float)) :
  0 <= id <= 0xFFFFFFFF -> metas s !! id = Some (P, S, 0) -> infos s !! id = Some i ->
  py_or_int st (default_step self) = P -> py_or_int sl (default_slots self) = S ->
  0 < P < 2 ^ 31 -> 0 < S < 2 ^ 31 ->
  0 <= w0 -> w0 + Z.of_nat (length ws) <= 2 ^ 32 ->
  (forall j t v, ws !! j = Some (t, v) -> t / P = w0 + Z.of_nat j) ->
  S < Z.of_nat (length ws) ->
  Forall (fun tv => a <= tv.1 <= b /\ f32_pack tv.2 = inr tv.2) ws ->
  exists s', write_gauges self id st sl ws s = (inr tt, s') /\
    read_range id a b s' = (inr (map (sample_row P) (drop (length ws - Z.to_nat S) ws)), s').
Proof.
  intros Hid Hm Hi HP HS HP' HS' Hw0 Hwn Hw Hn Hws.
  assert (Hwr : Forall (fun tv => 0 <= tv.1 / P < 2 ^ 32 /\ f32_pack tv.2 = inr tv.2) ws).
  { apply Forall_lookup. intros j [t v] Hj. rewrite Forall_lookup in Hws.
    destruct (Hws j _ Hj) as [_ Hf]. split; [|done]. simpl.
    rewrite (Hw j t v Hj). apply lookup_lt_Some in Hj. lia. }
  set (M := ring_fold id P S ws (values s)).
  exists (set_values s M). split; [by apply (write_gauges_ok self s id st sl P S i ws)|].
  rewrite Forall_lookup in Hws.
  destruct (ws !! 0%nat) as [[t0 v0]|] eqn:H0; [|apply lookup_ge_None_1 in H0; lia].
  destruct (ws !! (length ws - 1)%nat) as [[tl vl]|] eqn:Hl;
    [|apply lookup_ge_None_1 in Hl; lia].
  pose proof (Hw _ _ _ H0) as Ht0. pose proof (Hw _ _ _ Hl) as Htl.
  destruct (Hws _ _ H0) as [[Ha0 Hb0] _]. destruct (Hws _ _ Hl) as [[Hal Hbl] _].
  simpl in Ha0, Hb0, Hal, Hbl.
  assert (Hu : _ensure_u32 id = inr tt) by (by apply ensure_u32_ok).
  rewrite (read_range_ring (set_values s M) id a b P S 0 Hu Hm) by lia.
  assert (Hc : Z.min S (b / P - a / P + 1) = S).
  { assert (a / P <= t0 / P) by (apply Z.div_le_mono; lia).
    assert (tl / P <= b / P) by (apply Z.div_le_mono; lia). lia. }
  rewrite Hc.
  set (ss := (a / P) mod S).
  assert (Hss : 0 <= ss < S) by (apply Z.mod_pos_bound; lia).
  set (rec := fun tv : Z * float => RawRecord (tv.1 / P) tv.2 FLAG_VALID).
  set (k := (length ws - Z.to_nat S)%nat).
  (* the slots hold the last writes *)
  assert (Hraws : omap (fun k => values (set_values s M) !! (id, k)) (ring_slots ss S S) =
                  omap (fun x => option_map rec (ws !! Z.to_nat x))
                    (map (i_of (Z.of_nat (length ws)) S w0) (ring_slots ss S S))).
  { apply omap_map_ext. intros sl' Hsl.
    assert (Hsl' : 0 <= sl' < S).
    { unfold ring_slots in Hsl. apply in_map_iff in Hsl as [j [<- _]].
      apply Z.mod_pos_bound; lia. }
    pose proof (i_of_range (Z.of_nat (length ws)) S w0 ltac:(lia) sl') as Hr.
    destruct (ws !! Z.to_nat (i_of (Z.of_nat (length ws)) S w0 sl')) as [[t v]|] eqn:E;
      [|apply lookup_ge_None_1 in E; lia].
    pose proof (Hw _ _ _ E) as Ht. rewrite Z2Nat.id in Ht by lia.
    assert (Hslot : (t / P) mod S = sl').
    { rewrite Ht, i_of_slot_mod by lia. apply Z.mod_small. lia. }
    rewrite <- Hslot. simpl. unfold M.
    apply (ring_fold_last id P S w0 ws (values s) (Z.to_nat (i_of (Z.of_nat (length ws)) S w0 sl')) t v); [lia|done|done|lia]. }
  assert (Hperm : omap (fun k => values (set_values s M) !! (id, k)) (ring_slots ss S S)
                  ≡ₚ map rec (drop k ws)).
  { rewrite Hraws.
    rewrite (ring_slots_indices (Z.of_nat (length ws)) S w0 ltac:(lia) ss Hss).
    rewrite omap_option_map. apply Permutation_map.
    rewrite omap_Z_range_drop by lia. unfold k.
    replace (Z.to_nat (Z.of_nat (length ws) - S)) with (length ws - Z.to_nat S)%nat
      by lia. done. }
  set (raws := omap (fun k => values (set_values s M) !! (id, k)) (ring_slots ss S S))
    in *.
  (* every record of the ring is valid and in range *)
  assert (Hpass : Forall (fun raw => scan_record a b 0 P raw =
                                     inr (Some (row_of_raw 0 P raw))) raws).
  { apply Forall_forall. intros raw Hraw. apply list_elem_of_In, (Permutation_in _ Hperm) in Hraw.
    apply in_map_iff in Hraw as [[t v] [<- Htv]].
    apply list_elem_of_In, list_elem_of_lookup in Htv as [j Hj].
    rewrite lookup_drop in Hj.
    pose proof (Hw _ _ _ Hj) as Ht. destruct (Hws _ _ Hj) as [[Hat Hbt] _].
    simpl in Hat, Hbt. apply lookup_lt_Some in Hj.
    assert (a <= t / P * P).
    { pose proof (Z.mul_succ_div_gt t0 P ltac:(lia)). unfold k in Ht. nia. }
    assert (t / P * P <= b) by (pose proof (Z.mul_div_le t P ltac:(lia)); lia).
    unfold scan_record, rec, row_of_raw. cbn [fst snd].
    replace (Z.land FLAG_VALID FLAG_VALID =? 0) with false by reflexivity.
    replace ((t / P * P <? a) || (b <? t / P * P)) with false by lia. done. }
  rewrite (scan_records_all a b 0 P raws [] Hpass). simpl.
  assert (Hrows : sort_rows (map (row_of_raw 0 P) raws) ≡ₚ map (sample_row P) (drop k ws)).
  { rewrite sort_rows_perm.
    transitivity (map (row_of_raw 0 P) (map rec (drop k ws))); [by apply Permutation_map|].
    rewrite map_map. apply Permutation_refl'. apply map_ext. by intros [t v]. }
  do 2 f_equal. apply (@Sorted_unique_strong _ ts_le _).
  - intros x1 x2 Hx1 Hx2 H12 H21. rewrite Hrows in Hx1.
    apply list_elem_of_lookup in Hx1 as [j1 Hj1]. apply list_elem_of_lookup in Hx2 as [j2 Hj2].
    apply (last_rows_lookup P w0 ws _ _ _ Hw) in Hj1 as (t1 & v1 & E1 & T1 & ->).
    apply (last_rows_lookup P w0 ws _ _ _ Hw) in Hj2 as (t2 & v2 & E2 & T2 & ->).
    unfold ts_le, row_ts in *. simpl in *.
    assert (j1 = j2) by nia. subst j2. rewrite E1 in E2. by injection E2 as <- <-.
  - apply sort_rows_sorted.
  - apply Sorted_by_lookup. intros j x y Hx Hy.
    apply (last_rows_lookup P w0 ws _ _ _ Hw) in Hx as (t1 & v1 & E1 & T1 & ->).
    apply (last_rows_lookup P w0 ws _ _ _ Hw) in Hy as (t2 & v2 & E2 & T2 & ->).
    unfold ts_le, row_ts. simpl. nia.
  - exact Hrows.
Qed.

Lemma store_A0_meta : metas store_A0 !! 7 = Some (1, 3, 0).
Proof. vm_compute. reflexivity. Qed.

Lemma store_A0_info : infos store_A0 !! 7 = Some {| info_name := ""; info_tags := [] |}.
Proof. vm_compute. reflexivity. Qed.

Lemma scenario_A_create : ensure_metric cfg3 7 0 None None None None empty_store = (inr tt, store_A0).
Proof. vm_compute. reflexivity. Qed.

(** Scenario A for every start [T] whose windows fit the record format. *)
Lemma ring_wrap_scenario_A (T : Z) :
  0 <= T -> T + 3 < 2 ^ 32 ->
  exists s', scenario_A T empty_store = (inr tt, s') /\
    read_range 7 T (T + 3) s' = (inr [(T + 1, 1%float, 0); (T + 2, 2%float, 0);
                                      (T + 3, 3%float, 0)], s').
Proof.
  intros H0 H1.
  destruct (ring_last_writes cfg3 store_A0 7 None None 1 3 T T (T + 3) _ (samples_A T)
              ltac:(lia) store_A0_meta store_A0_info eq_refl eq_refl ltac:(lia) ltac:(lia)
              H0) as [s' [Hw Hr]].
  - simpl. lia.
  - intros j t v Hj. rewrite Z.div_1_r.
    destruct j as [|[|[|[|j]]]]; simpl in Hj;
      [injection Hj as <- <-; lia ..|by rewrite lookup_nil in Hj].
  - simpl. lia.
  - repeat constructor; simpl; (lia || reflexivity).
  - exists s'. split.
    + unfold scenario_A. tsimpl. rewrite scenario_A_create. exact Hw.
    + rewrite Hr. simpl. unfold sample_row. simpl. rewrite !Z.div_1_r, !Z.mul_1_r. done.
Qed.

(** C1 (amended): for a gauge with [slots = S] and [step = P], written
    by id with a sequence of more than [S] samples whose windows
    [ts // P] are consecutive ([w0, w0 + 1, ...], all in the record's
    uint32 range) and whose values are float32 values, a read covering
    all of them returns exactly the last [S] samples in window order, each
    as [(window * P, value, 0)]. *)
Theorem ring_wrap_consecutive (self : tsdb) (s : store) (id : Z) (st sl : option Z)
    (P S w0 a b : Z) (i : meta_info) (ws : list (Z * float)) :
  0 <= id <= 0xFFFFFFFF -> metas s !! id = Some (P, S, 0) -> infos s !! id = Some i ->
  py_or_int st (default_step self) = P -> py_or_int sl (default_slots self) = S ->
  0 < P < 2 ^ 31 -> 0 < S < 2 ^ 31 ->
  0 <= w0 -> w0 + Z.of_nat (length ws) <= 2 ^ 32 ->
  (forall j t v, ws !! j = Some (t, v) -> t / P = w0 + Z.of_nat j) ->
  S < Z.of_nat (length ws) ->
  Forall (fun tv => a <= tv.1 <= b /\ f32_pack tv.2 = inr tv.2) ws ->
  exists s', write_gauges self id st sl ws s = (inr tt, s') /\
    read_range id a b s' =
      (inr (map (fun tv => ((tv.1 / P) * P, tv.2, 0)) (drop (length ws - Z.to_nat S) ws)), s').
Proof. exact (ring_last_writes self s id st sl P S w0 a b i ws). Qed.

Lemma ring_wrap_consecutive_witness :
  exists s', write_gauges cfg3 7 None None (samples_A 1000) store_A0 = (inr tt, s') /\
    read_range 7 1000 1003 s' =
      (inr [(1001, 1%float, 0); (1002, 2%float, 0); (1003, 3%float, 0)], s').
Proof.
  destruct (ring_wrap_consecutive cfg3 store_A0 7 None None 1 3 1000 1000 1003 _
              (samples_A 1000) ltac:(lia) store_A0_meta store_A0_info eq_refl eq_refl
              ltac:(lia) ltac:(lia) ltac:(lia)) as [s' [Hw Hr]].
  - simpl. lia.
  - intros j t v Hj. rewrite Z.div_1_r.
    destruct j as [|[|[|[|j]]]]; simpl in Hj;
      [injection Hj as <- <-; lia ..|by rewrite lookup_nil in Hj].
  - simpl. lia.
  - repeat constructor; simpl; (lia || reflexivity).
  - exists s'. split; [exact Hw|]. rewrite Hr. reflexivity.
Defined.

(** C1 (counterexample): with [slots = 3], [step = 1], writes at ts
    0, 1, 2, 4 (windows spanning 5 > 3) then a read of [0, 4] return
    the samples of windows 0, 2, 4: window 3 was never written, so slot 0
    still holds window 0, not the three most recent samples (windows 1, 2,
    4; window 1 was overwritten by window 4). *)
Lemma ring_wrap_gap_counterexample :
  exists s', scenario_gap empty_store = (inr tt, s') /\
    read_range 7 0 4 s' = (inr [(0, 0%float, 0); (2, 2%float, 0); (4, 4%float, 0)], s') /\
    [(0, 0%float, 0); (2, 2%float, 0); (4, 4%float, 0)] <>
      [(1, 1%float, 0); (2, 2%float, 0); (4, 4%float, 0)].
Proof.
  exists (snd (scenario_gap empty_store)).
  split; [vm_compute; reflexivity|]. split; [vm_compute; reflexivity|].
  intros H. apply (f_equal (fun l : list row => match l with r :: _ => row_ts r | [] => 0 end)) in H.
  discriminate.
Qed.

(** ** [ensure_metric_descriptor] by a bound name *)

Lemma emd_by_name (self : tsdb) (s : store) (mid : option Z) (ty : Z) (st sl : option Z)
    (n : string) (t t0 : tags) (eid P S ty0 : Z) :
  match mid with Some m => _ensure_u32 m = inr tt | None => True end ->
  String.eqb n "" = false ->
  descriptors s !! _descriptor_key n t = Some eid ->
  _ensure_u32 eid = inr tt ->
  metas s !! eid = Some (P, S, ty0) ->
  infos s !! eid = Some {| info_name := n; info_tags := t0 |} ->
  Forall (fun kv => dict_get t0 kv.1 = Some kv.2) t ->
  ensure_metric_descriptor self mid ty st sl (Some n) (Some t) s =
    (if ty0 =? ty then inr eid
     else inl (ValueError "metric already registered with different type"), s).
Proof.
  intros Hmid Hn Hd Hu Hm Hi Ht. unfold ensure_metric_descriptor. tsimpl.
  destruct mid as [m|]; [rewrite Hmid|]; cbn iota beta; simpl; rewrite Hn; simpl;
    rewrite Hd; simpl; rewrite Hu; simpl; rewrite Hm; simpl;
    (destruct (ty0 =? ty) eqn:Ety; simpl; [|done]);
    rewrite (ensure_meta_info_noop s eid (Some n) t _ Hu Hi) by (simpl; by rewrite ?Hn);
    done.
Qed.

(** C2 (amended): Given the [metric_id] (in the uint32 range) of a metric whose meta (step, slots, type) and meta info are stored, with no name and no tags, ensure_metric_descriptor first packs the requested triple, where step and slots default to the engine's defaults when None or 0. If step or slots fall outside the signed 32-bit range or typ outside 0..255, it raises struct.error. Otherwise it compares the triple exactly with the stored one: a mismatch fails with ValueError and an exact match returns the id. The store is unchanged in every case. When the metric is instead named by its non-empty name whose tagless descriptor is bound to it, with or without a [metric_id] and with no tags, only the type is compared: a different type fails with ValueError, while any step or slots is accepted, returning the existing id with the store unchanged. *)
Theorem ensure_descriptor_meta_check (self : tsdb) (s : store) (id ty : Z)
    (st sl : option Z) (P S ty0 P' S' : Z) (i : meta_info) :
  _ensure_u32 id = inr tt ->
  metas s !! id = Some (P, S, ty0) ->
  infos s !! id = Some i ->
  py_or_int st (default_step self) = P' ->
  py_or_int sl (default_slots self) = S' ->
  ensure_metric_descriptor self (Some id) ty st sl None None s =
    (match _pack_meta P' S' ty with
     | inl e => inl e
     | inr _ =>
         if (P =? P') && (S =? S') && (ty0 =? ty) then inr id
         else inl (ValueError "metric already registered with different metadata")
     end, s) /\
  (forall mid : option Z,
   match mid with Some m => _ensure_u32 m = inr tt | None => True end ->
   String.eqb (info_name i) "" = false ->
   descriptors s !! _descriptor_key (info_name i) [] = Some id ->
   ensure_metric_descriptor self mid ty st sl (Some (info_name i)) None s =
     (if ty0 =? ty then inr id
      else inl (ValueError "metric already registered with different type"), s)).
Proof.
  intros Hu Hm Hi HP HS. split.
  - destruct (_pack_meta P' S' ty) as [e|q] eqn:Hp.
    + unfold ensure_metric_descriptor. tsimpl.
      rewrite Hu. simpl. rewrite HP, HS, Hp. reflexivity.
    + assert (Hq : q = (P', S', ty)).
      { unfold _pack_meta in Hp. destruct (_ && _ && _); [|discriminate].
        by injection Hp as <-. }
      subst q. exact (emd_by_id self s id ty st sl P S P' S' ty0 i Hu Hm Hi HP HS Hp).
  - intros mid Hmid Hn Hd. destruct i as [n t0]. simpl in *.
    exact (emd_by_name self s mid ty st sl n [] t0 id P S ty0 Hmid Hn Hd Hu Hm Hi
             (List.Forall_nil _)).
Qed.

Lemma ensure_descriptor_meta_check_witness :
  ensure_metric_descriptor init_tsdb (Some 1) 0 (Some 2) (Some 10) None None store_foo =
    (inl (ValueError "metric already registered with different metadata"), store_foo) /\
  ensure_metric_descriptor init_tsdb None 0 (Some 2) (Some 10) (Some "foo") None store_foo =
    (inr 1, store_foo).
Proof.
  destruct (ensure_descriptor_meta_check init_tsdb store_foo 1 0 (Some 2) (Some 10)
              1 10 0 2 10 {| info_name := "foo"; info_tags := [] |}
              ltac:(reflexivity) ltac:(vm_compute; reflexivity) ltac:(vm_compute; reflexivity)
              ltac:(reflexivity) ltac:(reflexivity)) as [HA HB].
  split; [exact HA|]. exact (HB None I ltac:(reflexivity) ltac:(vm_compute; reflexivity)).
Defined.

(** C2 (counterexample): metric 1, allocated by name "foo" with
    [(step, slots, typ) = (1, 10, 0)], is named again by its id and name
    with the conflicting triple [(2, 10, 0)]: the call succeeds, returns
    1 and changes nothing; the stored step stays 1. *)
Lemma ensure_descriptor_conflict_counterexample :
  metas store_foo !! 1 = Some (1, 10, 0) /\
  ensure_metric_descriptor init_tsdb (Some 1) 0 (Some 2) (Some 10) (Some "foo") None store_foo =
    (inr 1, store_foo).
Proof. split; vm_compute; reflexivity. Qed.

(** ** What a successful [_ensure_meta_info] leaves behind *)

Lemma dict_get_set_eq (d : tags) (k v : string) : dict_get (dict_set d k v) k = Some v.
Proof.
  induction d as [|[k' v'] d IH]; simpl; [by rewrite string_eqb_refl'|].
  destruct (String.eqb k k') eqn:E; simpl; [by rewrite string_eqb_refl'|].
  by rewrite E.
Qed.

Lemma dict_get_set_ne (d : tags) (k k2 v : string) :
  String.eqb k2 k = false -> dict_get (dict_set d k v) k2 = dict_get d k2.
Proof.
  intros Hne. induction d as [|[k' v'] d IH]; simpl; [by rewrite Hne|].
  destruct (String.eqb k k') eqn:E; simpl.
  - apply String.eqb_eq in E as <-. by rewrite Hne.
  - by rewrite IH.
Qed.

Lemma merge_tags_keeps (m t m' : tags) (k v : string) :
  merge_tags m t = inr m' -> dict_get m k = Some v -> dict_get m' k = Some v.
Proof.
  revert m. induction t as [|[k2 v2] t IH]; intros m Hm Hk; simpl in Hm.
  - by injection Hm as <-.
  - apply (IH (dict_set m k2 v2)).
    + destruct (dict_get m k2) as [cur|]; [|done].
      destruct (String.eqb cur v2); done.
    + destruct (String.eqb k k2) eqn:E.
      * apply String.eqb_eq in E as <-. rewrite Hk in Hm.
        destruct (String.eqb v v2) eqn:Ev; [|done].
        apply String.eqb_eq in Ev as ->. apply dict_get_set_eq.
      * by rewrite dict_get_set_ne.
Qed.

Lemma merge_tags_post (m t m' : tags) :
  merge_tags m t = inr m' -> Forall (fun kv => dict_get m' kv.1 = Some kv.2) t.
Proof.
  revert m. induction t as [|[k v] t IH]; intros m Hm; [constructor|].
  simpl in Hm.
  assert (Hm' : merge_tags (dict_set m k v) t = inr m').
  { destruct (dict_get m k) as [cur|]; [|done]. by destruct (String.eqb cur v). }
  constructor; [|by eapply IH].
  simpl. eapply merge_tags_keeps; [exact Hm'|]. apply dict_get_set_eq.
Qed.

Lemma dict_get_in (d : tags) (k v : string) : dict_get d k = Some v -> In (k, v) d.
Proof.
  induction d as [|[k' v'] d IH]; simpl; [done|].
  destruct (String.eqb k k') eqn:E.
  - intros [= ->]. apply String.eqb_eq in E as ->. by left.
  - intros H. right. by apply IH.
Qed.

Lemma dict_eqb_sub (d1 d2 : tags) (k v : string) :
  dict_eqb d1 d2 = true -> dict_get d1 k = Some v -> dict_get d2 k = Some v.
Proof.
  unfold dict_eqb. intros H Hk. apply andb_true_iff in H as [H _].
  rewrite forallb_forall in H. specialize (H (k, v) (dict_get_in _ _ _ Hk)).
  simpl in H. unfold opt_str_eqb in H.
  destruct (dict_get d2 k) as [v'|]; [|done]. apply String.eqb_eq in H. by subst.
Qed.

(** ** Idempotence of descriptor allocation *)

Lemma ensure_meta_info_post (s s' : store) (X : Z) (n : string) (t : tags) :
  String.eqb n "" = false ->
  _ensure_meta_info X (Some n) (Some t) s = inr (tt, s') ->
  _ensure_u32 X = inr tt /\
  (exists i, infos s' !! X = Some i /\ info_name i = n /\
     Forall (fun kv => dict_get (info_tags i) kv.1 = Some kv.2) t) /\
  metas s' = metas s /\ descriptors s' = descriptors s /\
  id_counter s' = id_counter s /\ values s' = values s.
Proof.
  intros Hn H. unfold _ensure_meta_info in H. tsimpl_in H.
  destruct (_ensure_u32 X) as [e|[]] eqn:Hu; [done|]. split; [done|].
  simpl in H. rewrite Hn in H.
  destruct (infos s !! X) as [i0|] eqn:Ei; simpl in H;
    (destruct t as [|[k v] l]; cbn -[merge_tags dict_eqb] in H).
  all: repeat (first [ match type of H with context [if ?b then _ else _] =>
                         lazymatch type of b with bool => destruct b eqn:? end end
                     | match type of H with context [match merge_tags ?a ?b with _ => _ end] =>
                         destruct (merge_tags a b) eqn:? end ];
               cbn -[merge_tags dict_eqb] in H; try discriminate H).
  all: rewrite ?Ei in H; cbn -[merge_tags dict_eqb] in H; injection H as <-; (split; [|simpl; done]).
  all: eexists; split; [first [unfold set_infos; simpl; apply lookup_insert_eq | exact Ei]|];
    cbn [info_name info_tags]; split.
  all: try done.
  all: try match goal with
       | H1 : negb _ && negb (String.eqb ?a ?nn) = false, H2 : String.eqb ?a "" = false
         |- ?a = ?nn =>
           rewrite ?H2 in H1; simpl in H1; apply String.eqb_eq; destruct (String.eqb a nn); done
       end.
  all: try apply List.Forall_nil.
  all: match goal with
       | Hm : merge_tags _ ?t = inr ?m |- Forall _ ?t =>
           pose proof (merge_tags_post _ _ _ Hm) as Hf;
           first [ exact Hf
                 | match goal with
                   | He : negb (dict_eqb m ?d) = false |- _ =>
                       apply negb_false_iff in He;
                       eapply Forall_impl; [exact Hf|]; intros kv Hkv;
                       exact (dict_eqb_sub _ _ _ _ He Hkv)
                   end ]
       end.
Qed.

Lemma emd_found (self : tsdb) (s : store) (mid : option Z) (ty : Z) (st sl : option Z)
    (n : string) (t : tags) (eid : Z) (i : meta_info) :
  match mid with Some m => _ensure_u32 m = inr tt | None => True end ->
  String.eqb n "" = false ->
  descriptors s !! _descriptor_key n t = Some eid ->
  _ensure_u32 eid = inr tt ->
  match metas s !! eid with Some (_, _, ty0) => ty0 = ty | None => True end ->
  infos s !! eid = Some i ->
  info_name i = n ->
  Forall (fun kv => dict_get (info_tags i) kv.1 = Some kv.2) t ->
  ensure_metric_descriptor self mid ty st sl (Some n) (Some t) s = (inr eid, s).
Proof.
  intros Hmid Hn Hd Hu Hm Hi Hni Ht. unfold ensure_metric_descriptor. tsimpl.
  assert (Hnoop : _ensure_meta_info eid (Some n) (Some t) s = inr (tt, s)).
  { apply (ensure_meta_info_noop s eid (Some n) t i Hu Hi); [|done]. simpl. by rewrite Hn. }
  destruct mid as [m|]; [rewrite Hmid|]; cbn iota beta; simpl; rewrite Hn; simpl;
    rewrite Hd; simpl; rewrite Hu; simpl;
    (destruct (metas s !! eid) as [[[P S] ty0]|]; simpl;
     [subst ty0; rewrite Z.eqb_refl; simpl|]); rewrite Hnoop; done.
Qed.

Lemma alloc_idem_core (self : tsdb) (s s1 : store) (ty : Z)
    (st sl : option Z) (n : string) (t : tags) (X : Z) :
  ensure_metric_descriptor self None ty st sl (Some n) (Some t) s = (inr X, s1) ->
  ensure_metric_descriptor self None ty st sl (Some n) (Some t) s1 = (inr X, s1).
Proof.
  intros H. destruct (String.eqb n "") eqn:Hn.
  { unfold ensure_metric_descriptor in H. tsimpl_in H. simpl in H. by rewrite Hn in H. }
  unfold ensure_metric_descriptor in H; tsimpl_in H; simpl in H; rewrite Hn in H; simpl in H.
  destruct (descriptors s !! _descriptor_key n t) as [eid|] eqn:Hd; simpl in H.
  - destruct (_ensure_u32 eid) eqn:Hu; simpl in H; [discriminate|].
    destruct (metas s !! eid) as [[[P S] ty0]|] eqn:Hm; simpl in H;
      [destruct (ty0 =? ty) eqn:Ety; simpl in H; [|discriminate]|];
      (destruct (_ensure_meta_info eid (Some n) (Some t) s) as [e|[[] s']] eqn:He;
       simpl in H; [discriminate|]);
      injection H as <- <-;
      destruct (ensure_meta_info_post _ _ _ _ _ Hn He) as (Hu' & (i & Hi & Hni & Hti) & Hm' & Hd' & _);
      (apply (emd_found self s' None ty st sl n t eid i); try done; [by rewrite Hd'|]);
      rewrite Hm', Hm; [by apply Z.eqb_eq|done].
  - unfold _allocate_metric_id in H; tsimpl_in H; simpl in H.
    set (nx := match id_counter s with Some c => c + 1 | None => 1 end) in H.
    destruct (pack_q nx) as [e|q] eqn:Hq; simpl in H; [discriminate|].
    assert (q = nx) as ->.
    { unfold pack_q in Hq. destruct (in_range _ nx _); congruence. }
    destruct (_ensure_u32 nx) eqn:Hu; simpl in H; [discriminate|].
    destruct (_pack_meta (py_or_int st (default_step self)) (py_or_int sl (default_slots self)) ty)
      as [e|p] eqn:Hp; simpl in H; [discriminate|].
    assert (p = (py_or_int st (default_step self), py_or_int sl (default_slots self), ty)) as ->.
    { unfold _pack_meta in Hp. destruct (_ && _ && _); congruence. }
    set (sa := set_id_counter s (Some nx)) in H.
    destruct (metas s !! nx) as [[[P S] ty0]|] eqn:Hm; simpl in H;
      [destruct (negb (P =? _) || negb (S =? _) || negb (ty0 =? ty)) eqn:Hc;
       simpl in H; [discriminate|]|];
      (match type of H with
       | context [_ensure_meta_info nx (Some n) (Some t) ?sb] =>
           destruct (_ensure_meta_info nx (Some n) (Some t) sb) as [e|[[] sc]] eqn:He;
           simpl in H; [discriminate|]
       end);
      destruct (ensure_meta_info_post _ _ _ _ _ Hn He)
        as (Hu' & (i & Hi & Hni & Hti) & Hm' & Hd' & _);
      unfold _ensure_descriptor in H; tsimpl_in H; simpl in H; rewrite Hn in H; simpl in H;
      rewrite Hd' in H; simpl in H; rewrite Hd, Hq in H; simpl in H;
      injection H as <- <-;
      apply (emd_found self _ None ty st sl n t nx i); try done;
      unfold set_descriptors; simpl.
    all: first [by rewrite lookup_insert_eq | rewrite Hm'; unfold sa, set_id_counter; simpl].
    + rewrite Hm. apply orb_false_iff in Hc as [_ Hc]. apply negb_false_iff in Hc.
      by apply Z.eqb_eq.
    + unfold set_metas. simpl. by rewrite lookup_insert_eq.
Qed.

(** C4: descriptor allocation is idempotent per (name, tags). When a call
    [ensure_metric_descriptor(None, typ, step, slots, name, tags)] succeeds
    with id [X], the identical call made next returns the same [X] and
    changes nothing: no second id is allocated. *)
Theorem descriptor_allocation_idempotent (self : tsdb) (s s1 : store) (ty : Z)
    (st sl : option Z) (n : string) (t : option tags) (X : Z) :
  ensure_metric_descriptor self None ty st sl (Some n) t s = (inr X, s1) ->
  ensure_metric_descriptor self None ty st sl (Some n) t s1 = (inr X, s1).
Proof.
  destruct t as [t|]; [apply alloc_idem_core|].
  exact (alloc_idem_core self s s1 ty st sl n [] X).
Qed.


Lemma descriptor_allocation_idempotent_witness :
  ensure_metric_descriptor init_tsdb None 0 (Some 2) (Some 10) (Some "foo")
    (Some [("env", "qa")]) empty_store = (inr 1, store_E) /\
  ensure_metric_descriptor init_tsdb None 0 (Some 2) (Some 10) (Some "foo")
    (Some [("env", "qa")]) store_E = (inr 1, store_E).
Proof.
  assert (H : ensure_metric_descriptor init_tsdb None 0 (Some 2) (Some 10) (Some "foo")
                (Some [("env", "qa")]) empty_store = (inr 1, store_E))
    by (vm_compute; reflexivity).
  split; [exact H|].
  exact (descriptor_allocation_idempotent _ _ _ _ _ _ _ _ _ H).
Defined.

(** ** Counter writes *)

(** [write_counter] by id once [ensure_metric_descriptor] has returned
    the id: it stores the float32 record of the window [ts // step]. *)
Lemma write_counter_ok (self : tsdb) (s s0 : store) (id : Z) (st sl : option Z)
    (P S ty ts : Z) (v r : float) :
  ensure_metric_descriptor self (Some id) 1 st sl None None s = (inr id, s0) ->
  _ensure_u32 id = inr tt ->
  metas s0 !! id = Some (P, S, ty) -> 0 < P -> 0 < S < 2 ^ 32 ->
  0 <= ts / P < 2 ^ 32 -> f32_pack v = inr r ->
  write_counter self (Some id) ts v None None st sl s =
    (inr id, set_values s0 (<[(id, (ts / P) mod S) := RawRecord (ts / P) r FLAG_VALID]>
                              (values s0))).
Proof.
  intros He Hu Hm HP HS Hw Hf. unfold write_counter, set_value. tsimpl.
  rewrite He. cbn iota beta. rewrite Hu, Hm. cbn iota beta.
  unfold _slot_for, floordiv, pymod.
  replace (P <=? 0) with false by lia. replace (P =? 0) with false by lia.
  replace (S =? 0) with false by lia. cbn iota beta.
  unfold _pack_value_record.
  rewrite (in_range_true 0 (ts / P) (2 ^ 32)) by lia. rewrite Hf.
  rewrite (in_range_true 0 FLAG_VALID 256) by (unfold FLAG_VALID; lia). cbn iota beta.
  rewrite ?Hu.
  rewrite (in_range_true 0 ((ts / P) mod S) (2 ^ 32))
    by (pose proof (Z.mod_pos_bound (ts / P) S); lia).
  done.
Qed.

Lemma store_B0_create :
  ensure_metric_descriptor init_tsdb (Some 7) 1 None (Some 4) None None empty_store =
    (inr 7, store_B0).
Proof. vm_compute. reflexivity. Qed.

Lemma store_B0_meta : metas store_B0 !! 7 = Some (1, 4, 1).
Proof. vm_compute. reflexivity. Qed.

Lemma store_B0_info : infos store_B0 !! 7 = Some {| info_name := ""; info_tags := [] |}.
Proof. vm_compute. reflexivity. Qed.

Lemma store_B0_values : values store_B0 = ∅.
Proof. vm_compute. reflexivity. Qed.

(** C6 (amended): a counter keeps no reset correction and computes no
    rate at storage time, but a value is stored as its float32 rounding
    ([struct.pack("<f")]), not verbatim. For a counter with [slots=4]
    written at [T] and [T+1] with any values [v1], [v2] whose float32
    roundings are [r1], [r2] (no overflow), [read_range(T, T+1)] returns
    [[(T, r1, 1), (T+1, r2, 1)]], whatever the order of [v1] and [v2]. *)
Theorem counter_raw_f32_roundtrip (T : Z) (v1 v2 r1 r2 : float) :
  0 <= T -> T + 1 < 2 ^ 32 -> f32_pack v1 = inr r1 -> f32_pack v2 = inr r2 ->
  exists s', scenario_B T v1 v2 empty_store = (inr [(T, r1, 1); (T + 1, r2, 1)], s').
Proof.
  intros H0 H1 Hf1 Hf2. unfold scenario_B. tsimpl.
  rewrite (write_counter_ok init_tsdb empty_store store_B0 7 None (Some 4) 1 4 1 T v1 r1
             store_B0_create eq_refl store_B0_meta) by (rewrite ?Z.div_1_r; lia || done).
  cbn iota beta. rewrite Z.div_1_r.
  set (s1 := set_values store_B0 _).
  assert (Hm1 : metas s1 !! 7 = Some (1, 4, 1)) by exact store_B0_meta.
  assert (He1 : ensure_metric_descriptor init_tsdb (Some 7) 1 None (Some 4) None None s1 =
                (inr 7, s1)).
  { rewrite (emd_by_id init_tsdb s1 7 1 None (Some 4) 1 4 1 4 1 _ eq_refl Hm1 store_B0_info
               eq_refl eq_refl) by (apply pack_meta_ok; lia).
    done. }
  rewrite (write_counter_ok init_tsdb s1 s1 7 None (Some 4) 1 4 1 (T + 1) v2 r2 He1 eq_refl Hm1)
    by (rewrite ?Z.div_1_r; lia || done).
  cbn iota beta. rewrite Z.div_1_r.
  set (s2 := set_values s1 _).
  rewrite (read_range_ring s2 7 T (T + 1) 1 4 1 eq_refl Hm1) by lia.
  eexists. f_equal.
  rewrite !Z.div_1_r. replace (Z.min 4 (T + 1 - T + 1)) with 2 by lia.
  unfold ring_slots. simpl.
  rewrite Z.add_0_r, Z.mod_mod, Z.add_mod_idemp_l by lia.
  assert (Hne : (7, (T + 1) mod 4) <> (7, T mod 4)).
  { intros [= E]. apply (mod_neq 4 T (T + 1)); [lia|]. by rewrite E. }
  unfold s2, s1, set_values. simpl. rewrite store_B0_values.
  rewrite lookup_insert_ne by done. rewrite !lookup_insert_eq. simpl.
  unfold FLAG_VALID. simpl. rewrite !Z.mul_1_r.
  replace (T <? T) with false by lia. replace (T + 1 <? T) with false by lia.
  replace (T + 1 <? T + 1) with false by lia. simpl.
  unfold sort_rows. simpl. unfold row_ts. simpl.
  replace (T + 1 <? T) with false by lia. done.
Qed.

Lemma counter_raw_f32_roundtrip_witness :
  exists s', scenario_B 1000 100 90 empty_store =
    (inr [(1000, 100%float, 1); (1001, 90%float, 1)], s').
Proof.
  apply (counter_raw_f32_roundtrip 1000 100 90 100 90);
    [lia | lia | vm_compute; reflexivity | vm_compute; reflexivity].
Defined.

(** C6 (counterexample): the raw value 16777217 (2^24 + 1, a double but
    not a float32) written to a counter reads back as 16777216. *)
Lemma counter_f32_rounding_counterexample :
  exists s', scenario_B 5 16777217 0 empty_store =
    (inr [(5, 16777216%float, 1); (6, 0%float, 1)], s') /\
    16777216%float <> 16777217%float.
Proof.
  eexists. split.
  - vm_compute. reflexivity.
  - intros H. apply (f_equal Prim2SF) in H. vm_compute in H. discriminate H.
Qed.

(** ** Retention rewrite *)

(** [delete_metric] on a metric with a meta: every key of the metric is
    cleared, the descriptor key of its name and tags included. *)
Lemma delete_metric_ok (s : store) (id P S ty : Z) :
  _ensure_u32 id = inr tt -> metas s !! id = Some (P, S, ty) ->
  delete_metric id s =
    (inr tt,
     {| values := filter (fun kv => kv.1.1 <> id) (values s);
        metas := delete id (metas s);
        infos := delete id (infos s);
        descriptors :=
          if String.eqb (info_name_of s id) "" then descriptors s
          else delete (_descriptor_key (info_name_of s id) (info_tags_of s id))
                 (descriptors s);
        id_counter := id_counter s |}).
Proof.
  intros Hu Hm. unfold delete_metric, info_name_of, info_tags_of. tsimpl.
  rewrite Hu. cbn iota beta. rewrite Hm. cbn iota beta.
  unfold set_descriptors, set_infos, set_metas, set_values.
  destruct (infos s !! id) as [i|]; simpl; [|done].
  destruct (String.eqb (info_name i) ""); simpl; done.
Qed.

Lemma dict_get_app_ne (d : tags) (k k' v : string) :
  String.eqb k' k = false -> dict_get (d ++ [(k, v)]) k' = dict_get d k'.
Proof.
  intros Hne. induction d as [|[k2 v2] d IH]; simpl; [by rewrite Hne|].
  destruct (String.eqb k' k2); [done|]. exact IH.
Qed.

Lemma dict_set_absent (d : tags) (k v : string) :
  dict_get d k = None -> dict_set d k v = d ++ [(k, v)].
Proof.
  induction d as [|[k2 v2] d IH]; simpl; [done|].
  destruct (String.eqb k k2) eqn:E; [done|]. intros H. by rewrite IH.
Qed.

Lemma merge_tags_fresh (d t : tags) :
  NoDup (map fst t) -> Forall (fun kv => dict_get d kv.1 = None) t ->
  merge_tags d t = inr (d ++ t).
Proof.
  revert d. induction t as [|[k v] t IH]; intros d Hnd Hf; simpl; [by rewrite app_nil_r|].
  apply NoDup_cons in Hnd as [Hk Hnd]. apply Forall_cons in Hf as [Hkv Hf]. simpl in Hkv.
  rewrite Hkv, dict_set_absent by done. rewrite IH; [by rewrite <- app_assoc|done|].
  apply Forall_forall. intros [k' v'] Hin. simpl.
  rewrite dict_get_app_ne.
  - rewrite Forall_forall in Hf. exact (Hf _ Hin).
  - apply String.eqb_neq. intros ->. apply Hk. apply list_elem_of_fmap.
    by exists (k, v').
Qed.

Lemma ensure_meta_info_fresh (s : store) (id : Z) (nm : string) (t : tags) :
  _ensure_u32 id = inr tt -> infos s !! id = None -> NoDup (map fst t) ->
  _ensure_meta_info id (py_truthy_str (Some nm)) (Some t) s =
    inr (tt, set_infos s (<[id := {| info_name := nm; info_tags := t |}]> (infos s))).
Proof.
  intros Hu Hi Hnd. unfold _ensure_meta_info, set_info. tsimpl.
  rewrite Hu, Hi. unfold py_truthy_str. cbn -[merge_tags dict_eqb].
  assert (Hmt : merge_tags [] t = inr t).
  { apply merge_tags_fresh; [done|]. apply Forall_forall. done. }
  destruct (String.eqb nm "") eqn:En; rewrite ?En; cbn -[merge_tags dict_eqb];
    (destruct t as [|[k v] t'] eqn:Et; cbn -[merge_tags dict_eqb];
     [|simpl in Hmt; simpl; rewrite Hmt; simpl]).
  - apply String.eqb_eq in En as ->. by rewrite Hi.
  - apply String.eqb_eq in En as ->. done.
  - done.
  - done.
Qed.
Lemma ensure_u32_range (id : Z) : _ensure_u32 id = inr tt -> 0 <= id <= 0xFFFFFFFF.
Proof.
  unfold _ensure_u32. destruct (id <? 0) eqn:E1; [done|].
  destruct (0xFFFFFFFF <? id) eqn:E2; [done|]. lia.
Qed.

Lemma ensure_descriptor_fresh (s : store) (id : Z) (nm : string) (t : tags) (ty st sl : Z) :
  _ensure_u32 id = inr tt ->
  (String.eqb nm "" = false -> descriptors s !! _descriptor_key nm t = None) ->
  _ensure_descriptor id (py_truthy_str (Some nm)) (Some t) ty st sl s =
    inr (tt, if String.eqb nm "" then s
             else set_descriptors s (<[_descriptor_key nm t := id]> (descriptors s))).
Proof.
  intros Hu Hd. apply ensure_u32_range in Hu. unfold _ensure_descriptor, py_truthy_str.
  destruct (String.eqb nm "") eqn:En; rewrite ?En; [done|]. tsimpl. simpl.
  rewrite Hd by done. unfold pack_q. rewrite in_range_true by lia. done.
Qed.

(** [ensure_metric_descriptor] by id on a metric whose keys were all
    cleared: it writes the meta, the meta-info and the descriptor. *)
Lemma recreate_ok (self : tsdb) (s : store) (id step slots : Z) (nm : string) (t : tags) :
  _ensure_u32 id = inr tt -> metas s !! id = None -> infos s !! id = None ->
  (String.eqb nm "" = false -> descriptors s !! _descriptor_key nm t = None) ->
  0 < step < 2 ^ 31 -> 0 < slots < 2 ^ 31 -> NoDup (map fst t) ->
  ensure_metric_descriptor self (Some id) 0 (Some step) (Some slots) (Some nm) (Some t) s =
    (inr id,
     {| values := values s;
        metas := <[id := (step, slots, 0)]> (metas s);
        infos := <[id := {| info_name := nm; info_tags := t |}]> (infos s);
        descriptors :=
          if String.eqb nm "" then descriptors s
          else <[_descriptor_key nm t := id]> (descriptors s);
        id_counter := id_counter s |}).
Proof.
  intros Hu Hm Hi Hd Hst Hsl Hnd. unfold ensure_metric_descriptor. tsimpl.
  rewrite Hu. cbn iota beta. unfold py_or_int.
  replace (step =? 0) with false by lia. replace (slots =? 0) with false by lia.
  simpl. rewrite pack_meta_ok by lia.
  set (s1 := set_metas s (<[id:=(step, slots, 0)]> (metas s))).
  pose proof (ensure_meta_info_fresh s1 id nm t Hu Hi Hnd) as Hf.
  set (s2 := set_infos s1 _) in Hf.
  pose proof (ensure_descriptor_fresh s2 id nm t 0 step slots Hu Hd) as Hg.
  unfold py_truthy_str in Hf, Hg.
  destruct (String.eqb nm "") eqn:En; rewrite ?En in Hf, Hg |- *; simpl;
    [|rewrite Hd by done; simpl]; rewrite Hm; simpl; fold s1; rewrite Hf; cbn iota beta;
    rewrite ?Hg; unfold s2, s1, set_descriptors, set_infos, set_metas; simpl; done.
Qed.

Lemma replay_ok (s : store) (id P S ty : Z) (rows : list row) :
  _ensure_u32 id = inr tt -> metas s !! id = Some (P, S, ty) -> 0 < P -> 0 < S < 2 ^ 32 ->
  Forall (fun r => 0 <= row_ts r / P < 2 ^ 32 /\ f32_pack r.1.2 = inr r.1.2) rows ->
  replay id rows s =
    (inr tt, set_values s (ring_fold id P S (map (fun r => (row_ts r, r.1.2)) rows) (values s))).
Proof.
  intros Hu Hm HP HS Hrows. revert s Hm.
  induction rows as [|r rows IH]; intros s Hm; simpl.
  - by destruct s.
  - apply Forall_cons in Hrows as [[Hw Hf] Hrows].
    tsimpl. rewrite (write_value_ok s id (row_ts r) P S ty r.1.2 r.1.2 Hu Hm) by done.
    cbn iota beta. rewrite IH by done. by rewrite set_values_twice.
Qed.

Lemma retention_rewrite_gauge (self : tsdb) (s : store) (id step slots P S : Z)
    (rows : list row) :
  _ensure_u32 id = inr tt -> metas s !! id = Some (P, S, 0) ->
  0 < step < 2 ^ 31 -> 0 < slots < 2 ^ 31 -> NoDup (map fst (info_tags_of s id)) ->
  read_range id 0 (2 ^ 63 - 1) s = (inr rows, s) ->
  Forall (fun r => 0 <= row_ts r / step < 2 ^ 32 /\ f32_pack r.1.2 = inr r.1.2) rows ->
  rewrite_metric_retention self id step slots s =
    (inr tt,
     {| values := ring_fold id step slots (map (fun r => (row_ts r, r.1.2)) rows)
                    (filter (fun kv => kv.1.1 <> id) (values s));
        metas := <[id := (step, slots, 0)]> (metas s);
        infos := <[id := {| info_name := info_name_of s id;
                            info_tags := info_tags_of s id |}]> (infos s);
        descriptors :=
          if String.eqb (info_name_of s id) "" then descriptors s
          else <[_descriptor_key (info_name_of s id) (info_tags_of s id) := id]>
                 (descriptors s);
        id_counter := id_counter s |}).
Proof.
  intros Hu Hm Hst Hsl Hnd Hr Hrows. unfold rewrite_metric_retention.
  replace ((step <=? 0) || (slots <=? 0)) with false by lia.
  tsimpl. rewrite Hu, Hm. cbn iota beta. rewrite ?Hu. cbn iota beta. simpl.
  rewrite Hr. rewrite (delete_metric_ok s id P S 0 Hu Hm).
  set (sd := {| values := _; metas := _; infos := _; descriptors := _; id_counter := _ |}).
  assert (Hrec : ensure_metric_descriptor self (Some id) 0 (Some step) (Some slots)
                   (option_map info_name (infos s !! id))
                   (Some match infos s !! id with Some i => info_tags i | None => [] end) sd =
                 ensure_metric_descriptor self (Some id) 0 (Some step) (Some slots)
                   (Some (info_name_of s id)) (Some (info_tags_of s id)) sd).
  { unfold info_name_of, info_tags_of. by destruct (infos s !! id). }
  rewrite Hrec.
  rewrite (recreate_ok self sd id step slots (info_name_of s id) (info_tags_of s id) Hu)
    by (try done; unfold sd; simpl; try apply lookup_delete_eq;
        intros Hn; rewrite Hn; apply lookup_delete_eq).
  cbn iota beta.
  rewrite (replay_ok _ id step slots 0 rows Hu) by (simpl; (apply lookup_insert_eq || lia || done)).
  unfold set_values. simpl. rewrite !insert_delete_eq.
  by destruct (String.eqb (info_name_of s id) ""); rewrite ?insert_delete_eq.
Qed.

Lemma retention_rewrite_non_gauge (self : tsdb) (s : store) (id step slots P S ty : Z) :
  metas s !! id = Some (P, S, ty) -> ty <> 0 ->
  exists msg, rewrite_metric_retention self id step slots s = (inl (ValueError msg), s).
Proof.
  intros Hm Hty. unfold rewrite_metric_retention.
  destruct ((step <=? 0) || (slots <=? 0)); [by eexists|].
  tsimpl. destruct (_ensure_u32 id) as [e|[]] eqn:Hu.
  - unfold _ensure_u32 in Hu. destruct (_ || _); [|done].
    injection Hu as <-. by eexists.
  - cbn iota beta. rewrite Hm, ?Hu. cbn iota beta.
    replace (ty =? 0) with false by lia. simpl. by eexists.
Qed.

(** C7 (amended): a retention rewrite of a counter fails with [ValueError]
    and leaves the store as it was. For a gauge [id] (a uint32) and
    [0 < step, slots < 2^31], with the meta-info's tags free of repeated
    keys, the snapshot [rows] = [read_range(id, 0, 2^63 - 1)] whose
    samples fit the new windows and are float32 values: the metric's old
    records are gone, its meta is [(step, slots, 0)], its meta-info and
    descriptor are written back with the same name and tags, and the ring
    is the replay of [rows] in order, each row [(ts, v)] stored in slot
    [(ts // step) % slots]. *)
Theorem retention_rewrite_gauges_only (self : tsdb) (s : store) (id step slots : Z) :
  (forall P S, metas s !! id = Some (P, S, 1) ->
     exists msg, rewrite_metric_retention self id step slots s = (inl (ValueError msg), s)) /\
  (forall P S rows,
     _ensure_u32 id = inr tt -> metas s !! id = Some (P, S, 0) ->
     0 < step < 2 ^ 31 -> 0 < slots < 2 ^ 31 -> NoDup (map fst (info_tags_of s id)) ->
     read_range id 0 (2 ^ 63 - 1) s = (inr rows, s) ->
     Forall (fun r => 0 <= row_ts r / step < 2 ^ 32 /\ f32_pack r.1.2 = inr r.1.2) rows ->
     rewrite_metric_retention self id step slots s =
       (inr tt,
        {| values := ring_fold id step slots (map (fun r => (row_ts r, r.1.2)) rows)
                       (filter (fun kv => kv.1.1 <> id) (values s));
           metas := <[id := (step, slots, 0)]> (metas s);
           infos := <[id := {| info_name := info_name_of s id;
                               info_tags := info_tags_of s id |}]> (infos s);
           descriptors :=
             if String.eqb (info_name_of s id) "" then descriptors s
             else <[_descriptor_key (info_name_of s id) (info_tags_of s id) := id]>
                    (descriptors s);
           id_counter := id_counter s |})).
Proof.
  split.
  - intros P S Hm. exact (retention_rewrite_non_gauge self s id step slots P S 1 Hm ltac:(lia)).
  - intros P S rows. exact (retention_rewrite_gauge self s id step slots P S rows).
Qed.

Lemma retention_rewrite_gauges_only_witness :
  (exists msg, rewrite_metric_retention init_tsdb 7 2 4 store_B0 =
                 (inl (ValueError msg), store_B0)) /\
  rewrite_metric_retention cfg3 7 2 4 store_C =
    (inr tt,
     {| values := ring_fold 7 2 4 [(5, 1%float)]
                    (filter (fun kv => kv.1.1 <> 7) (values store_C));
        metas := <[7 := (2, 4, 0)]> (metas store_C);
        infos := <[7 := {| info_name := ""; info_tags := [] |}]> (infos store_C);
        descriptors := descriptors store_C;
        id_counter := id_counter store_C |}).
Proof.
  split.
  - exact (proj1 (retention_rewrite_gauges_only init_tsdb store_B0 7 2 4) 1 4 store_B0_meta).
  - refine (proj2 (retention_rewrite_gauges_only cfg3 store_C 7 2 4) 1 3 [(5, 1%float, 0)]
             eq_refl _ _ _ _ _ _).
    + vm_compute. reflexivity.
    + lia.
    + lia.
    + vm_compute. constructor.
    + vm_compute. reflexivity.
    + constructor; [|constructor]. split; [split; [intros Hc; discriminate Hc|reflexivity]|].
      vm_compute. reflexivity.
Defined.

(** C7 (counterexample): a rewrite to a positive [step = 2^31], which the
    meta format ([struct] "<i") cannot hold, deletes the gauge and then
    fails with [struct.error] before recreating it: the meta and the sample
    are gone. *)
Lemma retention_rewrite_unbounded_counterexample :
  exists s', rewrite_metric_retention cfg3 7 (2 ^ 31) 3 store_C = (inl StructError, s') /\
    metas s' !! 7 = None /\ read_range 7 0 10 s' = (inr [], s').
Proof.
  eexists. split; [vm_compute; reflexivity|]. split; vm_compute; reflexivity.
Qed.

(* ------------------------------------------------------------------ *)
(** ** [rolling_mean] (claim C8) *)

Lemma non_null_app {A} (xs ys : list (option A)) :
  non_null (xs ++ ys) = non_null xs ++ non_null ys.
Proof. induction xs as [|[a|] xs IH]; simpl; rewrite ?IH; reflexivity. Qed.

Lemma trailing_window_app_lt {A} (p : list (option A)) x w i :
  (i < length p)%nat -> trailing_window (p ++ [x]) w i = trailing_window p w i.
Proof. intros Hi. unfold trailing_window. rewrite take_app_le by lia. reflexivity. Qed.

Lemma trailing_window_app_last {A} (p : list (option A)) x w :
  trailing_window (p ++ [x]) w (length p) = drop (S (length p) - w) (p ++ [x]).
Proof.
  unfold trailing_window. rewrite take_ge; [reflexivity|].
  rewrite length_app; simpl; lia.
Qed.

Lemma window_push {A} (p : list (option A)) x w :
  drop (length p - w) p ++ [x] = drop (length p - w) (p ++ [x]).
Proof. rewrite drop_app_le by lia. reflexivity. Qed.

Lemma window_pop {A} (p : list (option A)) x w :
  (w < length (drop (length p - w) p ++ [x]))%nat ->
  exists y, drop (length p - w) (p ++ [x]) = y :: drop (S (length p) - w) (p ++ [x]).
Proof.
  intros Hl. rewrite length_app, length_drop in Hl; simpl in Hl.
  assert (Hk : (S (length p) - w = S (length p - w))%nat) by lia.
  rewrite Hk.
  destruct (drop (length p - w) (p ++ [x])) as [|y rest] eqn:E.
  - apply (f_equal length) in E. rewrite length_drop, length_app in E; simpl in E; lia.
  - exists y. replace (S (length p - w)) with (length p - w + 1)%nat by lia.
    rewrite <- drop_drop, E. reflexivity.
Qed.

Lemma all_null_count {A} (xs : list (option A)) :
  all_null xs = (Z.of_nat (length (non_null xs)) =? 0).
Proof. unfold all_null. destruct (non_null xs); reflexivity. Qed.

Lemma rm_step_window {F} `{Arith F} (window : Z) (p : list (option F)) st x :
  1 <= window ->
  window_vals st = drop (length p - Z.to_nat window) p ->
  running_count st = Z.of_nat (length (non_null (window_vals st))) ->
  let st' := rolling_mean_step window st x in
  window_vals st' = drop (S (length p) - Z.to_nat window) (p ++ [x]) /\
  running_count st' = Z.of_nat (length (non_null (window_vals st'))) /\
  rm_out st' = rm_out st ++ [if running_count st' =? 0 then None
                             else Some (f_div_int (running_sum st') (running_count st'))].
Proof.
  intros Hw Hwv Hc st'. unfold st', rolling_mean_step. rewrite Hwv.
  destruct (window <? Z.of_nat (length (drop (length p - Z.to_nat window) p ++ [x]))) eqn:Hlt.
  - apply Z.ltb_lt in Hlt.
    destruct (window_pop p x (Z.to_nat window)) as [y Hy]; [lia|].
    rewrite window_push, Hy.
    rewrite Hwv in Hc.
    assert (Hn := f_equal non_null Hy). rewrite <- window_push, non_null_app in Hn.
    assert (Hl := f_equal length Hn). rewrite length_app in Hl.
    destruct x as [v|], y as [u|]; simpl in *; rewrite ?length_app in Hl; simpl in Hl;
      (split; [reflexivity|split; [lia|reflexivity]]).
  - apply Z.ltb_ge in Hlt. rewrite length_app, length_drop in Hlt; simpl in Hlt.
    replace (S (length p) - Z.to_nat window)%nat with (length p - Z.to_nat window)%nat by lia.
    rewrite window_push. rewrite Hwv in Hc.
    destruct x as [v|]; simpl; rewrite <- window_push, non_null_app; simpl;
      rewrite ?length_app; simpl; (split; [reflexivity|split; [lia|reflexivity]]).
Qed.


Lemma qsum_app (xs ys : list Qc) : qsum (xs ++ ys) = Qcplus (qsum xs) (qsum ys).
Proof.
  induction xs as [|a xs IH]; simpl.
  - rewrite Qcplus_0_l. reflexivity.
  - unfold qsum in *. rewrite IH. ring.
Qed.

Lemma rm_step_sum (window : Z) (p : list (option Qc)) st x :
  1 <= window ->
  window_vals st = drop (length p - Z.to_nat window) p ->
  running_sum st = qsum (non_null (window_vals st)) ->
  let st' := rolling_mean_step window st x in
  running_sum st' = qsum (non_null (window_vals st')).
Proof.
  intros Hw Hwv Hs st'. unfold st', rolling_mean_step. rewrite Hwv.
  rewrite Hwv in Hs.
  destruct (window <? Z.of_nat (length (drop (length p - Z.to_nat window) p ++ [x]))) eqn:Hlt.
  - apply Z.ltb_lt in Hlt.
    destruct (window_pop p x (Z.to_nat window)) as [y Hy]; [lia|].
    rewrite window_push, Hy.
    assert (Hn := f_equal (fun l => qsum (non_null l)) Hy). simpl in Hn.
    rewrite <- window_push, non_null_app, qsum_app in Hn.
    destruct x as [v|], y as [u|]; simpl in *; rewrite <- Hs in Hn;
      unfold qsum in *; simpl in *; unfold Qcminus;
      rewrite ?Qcplus_0_r in Hn;
      first [ rewrite Hn; ring | rewrite <- Hn; ring ].
  - simpl. destruct x as [v|]; simpl; rewrite non_null_app, qsum_app, <- Hs;
      unfold qsum; simpl; ring.
Qed.

Lemma rm_loop_generic {F} `{Arith F} (window : Z) (p : list (option F)) :
  1 <= window ->
  let st := fold_left (rolling_mean_step window) p (Build_rm_state [] f_zero 0 []) in
  window_vals st = drop (length p - Z.to_nat window) p /\
  running_count st = Z.of_nat (length (non_null (window_vals st))) /\
  map is_null (rm_out st) =
    map (fun i => all_null (trailing_window p (Z.to_nat window) i)) (seq 0 (length p)).
Proof.
  intros Hw. induction p as [|x p IH] using rev_ind; [simpl; auto|].
  cbv zeta in *. rewrite fold_left_app. cbn [fold_left].
  destruct IH as (Hwv & Hc & Ho).
  destruct (rm_step_window window p _ x Hw Hwv Hc) as (Hwv' & Hc' & Ho').
  set (st0 := fold_left (rolling_mean_step window) p _) in *.
  rewrite length_app, Nat.add_1_r.
  split; [exact Hwv'|split; [exact Hc'|]].
  rewrite Ho', seq_S, !map_app, Ho. simpl. f_equal.
  - apply map_ext_in. intros i Hi. apply in_seq in Hi.
    rewrite trailing_window_app_lt by lia. reflexivity.
  - rewrite trailing_window_app_last, <- Hwv', all_null_count, <- Hc'.
    destruct (running_count _ =? 0); reflexivity.
Qed.

Lemma rm_loop_Qc (window : Z) (p : list (option Qc)) :
  1 <= window ->
  let st := fold_left (rolling_mean_step window) p (Build_rm_state [] f_zero 0 []) in
  running_sum st = qsum (non_null (window_vals st)) /\
  rm_out st = map (rolling_mean_spec p (Z.to_nat window)) (seq 0 (length p)).
Proof.
  intros Hw. induction p as [|x p IH] using rev_ind; [simpl; auto|].
  cbv zeta in *. rewrite fold_left_app. cbn [fold_left].
  destruct IH as (Hs & Ho).
  destruct (rm_loop_generic window p Hw) as (Hwv & Hc & _).
  destruct (rm_step_window window p _ x Hw Hwv Hc) as (Hwv' & Hc' & Ho').
  pose proof (rm_step_sum window p _ x Hw Hwv Hs) as Hs'.
  set (st0 := fold_left (rolling_mean_step window) p _) in *.
  split; [exact Hs'|].
  rewrite Ho', length_app, Nat.add_1_r, seq_S, map_app, Ho. simpl. f_equal.
  - apply map_ext_in. intros i Hi. apply in_seq in Hi.
    unfold rolling_mean_spec. rewrite trailing_window_app_lt by lia. reflexivity.
  - f_equal. unfold rolling_mean_spec.
    rewrite trailing_window_app_last, <- Hwv'. rewrite Hc', Hs'.
    match goal with
    | |- context [non_null (window_vals ?st')] => destruct (non_null (window_vals st'))
    end; reflexivity.
Qed.

(** Claim C8 (amended). For every input series and window argument,
    with [w = max(1, window)]: over floats, row [i] of [rolling_mean] is
    NULL exactly when every value of the trailing window of the last [w]
    rows is NULL; and when the same loop runs over exact rationals, row
    [i] equals the arithmetic mean of the non-NULL values of that
    window. *)
Theorem rolling_mean_window_exact (series_f : list (option float))
    (series : list (option Qc)) (arg : list (option Z)) :
  let w := Z.to_nat (Z.max 1 (_parse_int_arg arg 1)) in
  map is_null (RollingMeanWindow_evaluate_all series_f arg) =
    map (fun i => all_null (trailing_window series_f w i)) (seq 0 (length series_f)) /\
  RollingMeanWindow_evaluate_all series arg =
    map (rolling_mean_spec series w) (seq 0 (length series)).
Proof.
  intros w. unfold RollingMeanWindow_evaluate_all. split.
  - apply (rm_loop_generic _ series_f). lia.
  - apply (rm_loop_Qc _ series). lia.
Qed.


(** Claim C8, counterexample: over floats the running sum is updated
    incrementally, so with window 1 and the series [1e16, 1], row 1
    gives 0 although its trailing window holds only the value 1. *)
Lemma rolling_mean_cancellation_counterexample :
  RollingMeanWindow_evaluate_all series_cancel [Some 1] = [Some 1e16%float; Some 0%float] /\
  non_null (trailing_window series_cancel 1 1) = [1%float] /\
  (0%float <> 1%float).
Proof.
  split; [vm_compute; reflexivity|split; [vm_compute; reflexivity|]].
  intros H. apply (f_equal Prim2SF) in H. vm_compute in H. discriminate H.
Qed.

(* ------------------------------------------------------------------ *)
(** ** Sign of a float difference, and [bucket_rate] (claim C5) *)

(** In binary64, [c - p < 0] exactly when [c < p]: a nonzero exact
    difference of two floats never rounds to a (signed) zero, and the
    order of canonical floats is the order of their aligned mantissas. *)

Lemma digits2_pos_size (p : positive) : digits2_pos p = Pos.size p.
Proof. induction p; simpl; rewrite ?IHp; reflexivity. Qed.

Lemma digits2_bounds (p : positive) :
  2 ^ (Zpos (digits2_pos p) - 1) <= Zpos p < 2 ^ Zpos (digits2_pos p).
Proof.
  rewrite digits2_pos_size. split.
  - pose proof (Pos.size_le p) as H.
    assert (Hz : Zpos (2 ^ Pos.size p) <= Zpos p~0) by exact H.
    rewrite Pos2Z.inj_pow in Hz. rewrite Pos2Z.inj_xO in Hz.
    assert (E : 2 ^ Zpos (Pos.size p) = 2 * 2 ^ (Zpos (Pos.size p) - 1)).
    { rewrite <- Z.pow_succ_r by lia. f_equal. lia. }
    lia.
  - pose proof (Pos.size_gt p) as H.
    assert (Hz : Zpos p < Zpos (2 ^ Pos.size p)) by exact H.
    rewrite Pos2Z.inj_pow in Hz. exact Hz.
Qed.

Lemma shr_1_div (x : shr_record) :
  0 <= shr_m x -> shr_m (shr_1 x) = shr_m x / 2.
Proof.
  destruct x as [[|[p|p|]|p] r s]; simpl; intros H; try lia; try reflexivity.
  - rewrite Pos2Z.inj_xI. rewrite Z.mul_comm, Z.add_comm, Z.div_add by lia. reflexivity.
  - rewrite Pos2Z.inj_xO. rewrite Z.mul_comm, Z.div_mul by lia. reflexivity.
Qed.

Lemma iter_shr_1_div (p : positive) (x : shr_record) :
  0 <= shr_m x -> shr_m (SpecFloat.iter_pos shr_1 p x) = shr_m x / 2 ^ Zpos p.
Proof.
  revert x. induction p as [p IH|p IH|]; intros x Hx; cbn [SpecFloat.iter_pos].
  - assert (H1 : 0 <= shr_m (shr_1 x)) by (rewrite shr_1_div by lia; apply Z.div_pos; lia).
    assert (H2 : 0 <= shr_m (SpecFloat.iter_pos shr_1 p (shr_1 x)))
      by (rewrite IH by lia; apply Z.div_pos; lia).
    rewrite IH, IH, shr_1_div by lia.
    rewrite !Z.div_div by (try apply Z.mul_pos_pos; lia).
    f_equal. replace (Zpos p~1) with (Zpos p + Zpos p + 1) by lia.
    rewrite !Z.pow_add_r by lia. lia.
  - assert (H2 : 0 <= shr_m (SpecFloat.iter_pos shr_1 p x))
      by (rewrite IH by lia; apply Z.div_pos; lia).
    rewrite IH, IH by lia.
    rewrite Z.div_div by lia.
    f_equal. replace (Zpos p~0) with (Zpos p + Zpos p) by lia.
    rewrite !Z.pow_add_r by lia. lia.
  - rewrite shr_1_div by lia. reflexivity.
Qed.

Lemma shr_fexp_pos (prec emax m e : Z) l :
  0 < prec -> 0 < m -> SpecFloat.emin prec emax <= e ->
  0 < shr_m (fst (shr_fexp prec emax m e l)) /\
  SpecFloat.emin prec emax <= snd (shr_fexp prec emax m e l).
Proof.
  intros Hp Hm He. destruct m as [|m|m]; try lia.
  assert (Hl : shr_m (shr_record_of_loc (Zpos m) l) = Zpos m) by (destruct l as [|[]]; reflexivity).
  unfold shr_fexp, shr. simpl Zdigits2.
  pose proof (digits2_bounds m) as [Hlo Hhi].
  set (D := Zpos (digits2_pos m)) in *.
  unfold fexp.
  destruct (Z.max (D + e - prec) (SpecFloat.emin prec emax) - e) as [|q|q] eqn:En; simpl; try (split; lia).
  rewrite iter_shr_1_div by lia. rewrite Hl. split.
  - apply Z.div_str_pos. split; [lia|].
    apply Z.le_trans with (2 := Hlo). apply Z.pow_le_mono_r; lia.
  - lia.
Qed.

Lemma binary_round_nonzero (prec emax : Z) sx m e :
  0 < prec -> SpecFloat.emin prec emax <= e ->
  (exists m' e', binary_round prec emax sx m e = S754_finite sx m' e') \/
  binary_round prec emax sx m e = S754_infinity sx.
Proof.
  intros Hp He. unfold binary_round, shl_align.
  set (f := fexp prec emax (Zpos (digits2_pos m) + e)).
  assert (Hf : SpecFloat.emin prec emax <= f) by (unfold f, fexp; lia).
  assert (Hx : exists mz ez, (match f - e with
                              | Zneg d => (Pos.iter xO m d, f)
                              | _ => (m, e) end) = (mz, ez) /\ SpecFloat.emin prec emax <= ez).
  { destruct (f - e); eexists; eexists; split; try reflexivity; lia. }
  destruct Hx as (mz & ez & -> & Hez).
  unfold binary_round_aux.
  destruct (shr_fexp_pos prec emax (Zpos mz) ez loc_Exact Hp ltac:(lia) Hez) as [H1 H1e].
  destruct (shr_fexp prec emax (Zpos mz) ez loc_Exact) as [r1 e1]. simpl in H1, H1e.
  assert (H2 : 0 < round_nearest_even (shr_m r1) (loc_of_shr_record r1)).
  { unfold round_nearest_even.
    destruct (loc_of_shr_record r1) as [|[]]; try destruct (Z.even _); lia. }
  destruct (shr_fexp_pos prec emax _ e1 loc_Exact Hp H2 H1e) as [H3 _].
  destruct (shr_fexp prec emax (round_nearest_even (shr_m r1) (loc_of_shr_record r1)) e1 loc_Exact)
    as [r2 e2]. simpl in H3.
  destruct (shr_m r2) as [|m2|m2]; try lia.
  destruct (e2 <=? emax - prec); [left; eauto|right; reflexivity].
Qed.

Lemma normalize_ltb_zero (prec emax M ez : Z) :
  0 < prec -> SpecFloat.emin prec emax <= ez ->
  SFltb (binary_normalize prec emax M ez false) (S754_zero false) = (M <? 0).
Proof.
  intros Hp He. destruct M as [|m|m]; simpl binary_normalize.
  - reflexivity.
  - destruct (binary_round_nonzero prec emax false m ez Hp He) as [(m' & e' & ->)| ->];
      reflexivity.
  - destruct (binary_round_nonzero prec emax true m ez Hp He) as [(m' & e' & ->)| ->];
      reflexivity.
Qed.

Lemma iter_xO_val (m d : positive) : Zpos (Pos.iter xO m d) = Zpos m * 2 ^ Zpos d.
Proof.
  induction d as [|d IH] using Pos.peano_ind.
  - simpl. lia.
  - rewrite Pos.iter_succ, Pos2Z.inj_succ, Z.pow_succ_r by lia.
    rewrite Pos2Z.inj_xO, IH. lia.
Qed.

Lemma shl_align_val (m : positive) (e ez : Z) :
  ez <= e -> Zpos (fst (shl_align m e ez)) = Zpos m * 2 ^ (e - ez).
Proof.
  intros H. unfold shl_align.
  destruct (ez - e) as [|d|d] eqn:E; cbn [fst].
  - replace (e - ez) with 0 by lia. rewrite Z.pow_0_r. lia.
  - lia.
  - rewrite iter_xO_val. replace (e - ez) with (Zpos d) by lia. reflexivity.
Qed.

Lemma bounded_facts (prec emax : Z) (m : positive) (e : Z) :
  0 < prec -> bounded prec emax m e = true ->
  Zpos (digits2_pos m) <= prec /\ SpecFloat.emin prec emax <= e /\
  (SpecFloat.emin prec emax < e -> Zpos (digits2_pos m) = prec).
Proof.
  intros Hp H. unfold bounded, canonical_mantissa, fexp in H.
  apply andb_prop in H as [H _]. apply Z.eqb_eq in H. lia.
Qed.

Lemma bounded_lt (prec emax : Z) (m1 m2 : positive) (e1 e2 : Z) :
  0 < prec -> bounded prec emax m1 e1 = true -> bounded prec emax m2 e2 = true ->
  e1 < e2 -> Zpos m1 < Zpos m2 * 2 ^ (e2 - e1).
Proof.
  intros Hp H1 H2 Hlt.
  destruct (bounded_facts _ _ _ _ Hp H1) as (D1 & E1 & _).
  destruct (bounded_facts _ _ _ _ Hp H2) as (D2 & E2 & N2).
  pose proof (digits2_bounds m1) as [_ B1].
  pose proof (digits2_bounds m2) as [B2 _].
  rewrite N2 in B2 by lia.
  assert (P1 : 2 ^ Zpos (digits2_pos m1) <= 2 ^ prec) by (apply Z.pow_le_mono_r; lia).
  assert (P2 : 2 <= 2 ^ (e2 - e1)).
  { replace 2 with (2 ^ 1) at 1 by reflexivity. apply Z.pow_le_mono_r; lia. }
  assert (P3 : 2 ^ prec = 2 * 2 ^ (prec - 1)).
  { rewrite <- Z.pow_succ_r by lia. f_equal. lia. }
  nia.
Qed.

Ltac solve_ltb :=
  first [ symmetry; apply Z.ltb_lt; unfold cond_Zopp; lia
        | symmetry; apply Z.ltb_ge; unfold cond_Zopp; lia ].

Lemma finite_ltb_sub (prec emax : Z) sx mx ex sy my ey :
  0 < prec -> bounded prec emax mx ex = true -> bounded prec emax my ey = true ->
  SFltb (S754_finite sx mx ex) (S754_finite sy my ey) =
  (cond_Zopp sx (Zpos (fst (shl_align mx ex (Z.min ex ey))))
   - cond_Zopp sy (Zpos (fst (shl_align my ey (Z.min ex ey)))) <? 0).
Proof.
  intros Hp Bx By.
  rewrite !shl_align_val by lia.
  unfold SFltb, SFcompare.
  destruct (Z.compare_spec ex ey) as [E|L|G].
  - subst ey. rewrite Z.min_id, Z.sub_diag, Z.pow_0_r, !Z.mul_1_r.
    change (Pos.compare_cont Eq mx my) with (Pos.compare mx my).
    destruct (Pos.compare_spec mx my) as [E|L|G]; [subst my| |];
      destruct sx, sy; simpl CompOpp; cbv iota; solve_ltb.
  - pose proof (bounded_lt _ _ _ _ _ _ Hp Bx By L).
    rewrite Z.min_l, Z.sub_diag, Z.pow_0_r, Z.mul_1_r by lia.
    assert (0 < 2 ^ (ey - ex)) by (apply Z.pow_pos_nonneg; lia).
    destruct sx, sy; cbv iota; solve_ltb.
  - pose proof (bounded_lt _ _ _ _ _ _ Hp By Bx G).
    rewrite Z.min_r, Z.sub_diag, Z.pow_0_r, Z.mul_1_r by lia.
    assert (0 < 2 ^ (ex - ey)) by (apply Z.pow_pos_nonneg; lia).
    destruct sx, sy; cbv iota; solve_ltb.
Qed.

Lemma SFsub_ltb_zero (prec emax : Z) x y :
  0 < prec -> SpecFloat.valid_binary prec emax x = true -> SpecFloat.valid_binary prec emax y = true ->
  SFltb (SFsub prec emax x y) (S754_zero false) = SFltb x y.
Proof.
  intros Hp Vx Vy.
  destruct x as [sx|sx| |sx mx ex], y as [sy|sy| |sy my ey];
    try (try destruct sx; try destruct sy; reflexivity).
  simpl in Vx, Vy. unfold SFsub.
  destruct (bounded_facts _ _ _ _ Hp Vx) as (_ & Ex & _).
  destruct (bounded_facts _ _ _ _ Hp Vy) as (_ & Ey & _).
  rewrite normalize_ltb_zero by lia.
  symmetry. apply (finite_ltb_sub prec emax); assumption.
Qed.

Lemma sub_ltb_zero (c p : float) : PrimFloat.ltb (PrimFloat.sub c p) 0%float = PrimFloat.ltb c p.
Proof.
  rewrite !FloatAxioms.ltb_spec, FloatAxioms.sub_spec.
  replace (Prim2SF 0%float) with (S754_zero false) by (vm_compute; reflexivity).
  apply SFsub_ltb_zero; [reflexivity|apply FloatAxioms.Prim2SF_valid|apply FloatAxioms.Prim2SF_valid].
Qed.

(** Claim C5. For all inputs [curr], [prev] and [b], [bucket_rate] is
    NULL if and only if an input is NULL, [b <= 0] or [curr < prev], and
    otherwise equals [(curr - prev) / b]: the code's test [delta < 0] on
    [delta = curr - prev] agrees with [curr < prev] on every pair of
    doubles. *)
Theorem bucket_rate_null_iff (curr prev : option float) (b : option Z) :
  rate_value curr prev b = bucket_rate_spec curr prev b.
Proof.
  destruct curr as [c|], prev as [p|], b as [b|]; try reflexivity.
  unfold rate_value, bucket_rate_spec. rewrite sub_ltb_zero.
  destruct (b <=? 0); reflexivity.
Qed.

(* ------------------------------------------------------------------ *)
(** ** Further properties of the query engine and the store *)

Lemma float_of_int_of_Z (n : Z) : 0 <= n < 2 ^ 63 -> float_of_int n = float_of_Z n.
Proof.
  intros H. unfold float_of_int, float_of_Z.
  replace (n <? 0) with false by lia.
  rewrite <- (FloatAxioms.SF2Prim_Prim2SF (of_uint63 (Uint63.of_Z n))).
  rewrite FloatAxioms.of_uint63_spec. rewrite Uint63.of_Z_spec.
  rewrite Z.mod_small by (unfold Uint63.wB, Uint63.size; simpl; lia). reflexivity.
Qed.

Lemma binary_round_aux_sign (prec emax : Z) sx mx ex lx :
  binary_round_aux prec emax sx mx ex lx = S754_zero sx \/
  (exists m e, binary_round_aux prec emax sx mx ex lx = S754_finite sx m e) \/
  binary_round_aux prec emax sx mx ex lx = S754_infinity sx \/
  binary_round_aux prec emax sx mx ex lx = S754_nan.
Proof.
  unfold binary_round_aux.
  destruct (shr_fexp prec emax mx ex lx) as [r1 e1].
  destruct (shr_fexp prec emax _ e1 loc_Exact) as [r2 e2].
  destruct (shr_m r2) as [|m|m]; auto.
  destruct (e2 <=? emax - prec); eauto 6.
Qed.

Lemma Prim2SF_zero : Prim2SF 0%float = S754_zero false.
Proof. vm_compute. reflexivity. Qed.

Lemma float_of_Z_pos (n : Z) : 0 < n < 2 ^ 63 ->
  (exists m e, Prim2SF (float_of_Z n) = S754_finite false m e) \/
  Prim2SF (float_of_Z n) = S754_infinity false.
Proof.
  intros H. unfold float_of_Z. replace (n <? 0) with false by lia.
  rewrite FloatAxioms.of_uint63_spec, Uint63.of_Z_spec.
  rewrite Z.mod_small by (unfold Uint63.wB, Uint63.size; simpl; lia).
  destruct n as [|p|p]; try lia. simpl binary_normalize.
  apply binary_round_nonzero; unfold prec, SpecFloat.emin, emax; simpl; lia.
Qed.

Lemma div_nonneg (x : float) (n : Z) :
  PrimFloat.ltb x 0%float = false -> 0 < n < 2 ^ 63 ->
  PrimFloat.ltb (PrimFloat.div x (float_of_Z n)) 0%float = false.
Proof.
  intros Hx Hn. rewrite FloatAxioms.ltb_spec, Prim2SF_zero in *.
  rewrite FloatAxioms.div_spec. unfold SF64div.
  destruct (float_of_Z_pos n Hn) as [(m & e & ->)| ->];
  destruct (Prim2SF x) as [sx|sx| |sx mx ex]; try destruct sx; try discriminate; try reflexivity.
  simpl. destruct (SFdiv_core_binary _ _ _ _ _ _) as [[mz ez] lz].
  destruct (binary_round_aux_sign prec emax false mz ez lz) as [->|[(? & ? & ->)|[->| ->]]];
    reflexivity.
Qed.

Lemma digits2_pos_bounds (p : positive) :
  2 ^ (Zpos (digits2_pos p) - 1) <= Zpos p < 2 ^ Zpos (digits2_pos p).
Proof.
  induction p as [p IH|p IH|].
  3: { simpl. lia. }
  all: cbn [digits2_pos]; rewrite Pos2Z.inj_succ.
  all: assert (Hd : 0 < Zpos (digits2_pos p)) by lia.
  all: remember (Zpos (digits2_pos p)) as d; clear Heqd.
  all: replace (Z.succ d - 1) with d by lia; rewrite Z.pow_succ_r by lia.
  all: assert (E : 2 ^ d = 2 * 2 ^ (d - 1)) by (rewrite <- Z.pow_succ_r by lia; f_equal; lia).
  all: rewrite E in IH |- *; lia.
Qed.

Lemma digits2_pos_iter_xO (p k : positive) :
  digits2_pos (Pos.iter xO p k) = (digits2_pos p + k)%positive /\
  Zpos (Pos.iter xO p k) = Zpos p * 2 ^ Zpos k.
Proof.
  induction k as [|k [IH1 IH2]] using Pos.peano_ind.
  - simpl. split; [lia|]. lia.
  - rewrite Pos.iter_succ. cbn [digits2_pos]. rewrite IH1. split; [lia|].
    rewrite Pos2Z.inj_xO, IH2, Pos2Z.inj_succ, Z.pow_succ_r by lia. lia.
Qed.

Lemma digits_small (p : positive) (k : Z) :
  0 <= k -> Zpos p <= 2 ^ k -> Zpos (digits2_pos p) <= k + 1.
Proof.
  intros Hk Hp. destruct (digits2_pos_bounds p) as [H1 _].
  destruct (Z.le_gt_cases (Zpos (digits2_pos p)) (k + 1)) as [H0|Hc]; [exact H0|].
  assert (2 ^ (k + 1) <= 2 ^ (Zpos (digits2_pos p) - 1)) by (apply Z.pow_le_mono_r; lia).
  rewrite Z.pow_add_r in H by lia. pose proof (Z.pow_pos_nonneg 2 k). lia.
Qed.

Lemma iter_pos_inv {A} (P : A -> Prop) (f : A -> A) (p : positive) (x : A) :
  P x -> (forall y, P y -> P (f y)) -> P (@SpecFloat.iter_pos A f p x).
Proof.
  intros Hx Hf. revert x Hx. induction p as [p IH|p IH|]; intros x Hx; simpl; auto.
Qed.

Lemma shr_1_m (r : shr_record) :
  0 <= shr_m r -> 0 <= shr_m (shr_1 r) <= shr_m r.
Proof.
  destruct r as [[|[p|p|]|p] rr ss]; simpl; lia.
Qed.

Lemma shr_bounds (mrs : shr_record) (e n : Z) :
  0 <= shr_m mrs ->
  0 <= shr_m (fst (shr mrs e n)) <= shr_m mrs /\ snd (shr mrs e n) <= Z.max e (e + n).
Proof.
  intros H. unfold shr. destruct n as [|p|p]; simpl; [lia| |lia].
  split; [|lia].
  apply (iter_pos_inv (fun y => 0 <= shr_m y <= shr_m mrs)); [lia|].
  intros y Hy. pose proof (shr_1_m y ltac:(lia)). lia.
Qed.

Lemma shr_fexp_bounds (m e : Z) (l : location) :
  0 <= m ->
  0 <= shr_m (fst (shr_fexp prec emax m e l)) <= m /\
  snd (shr_fexp prec emax m e l) <= Z.max e (fexp prec emax (Zdigits2 m + e)).
Proof.
  intros H. unfold shr_fexp.
  assert (Hm : shr_m (shr_record_of_loc m l) = m) by (destruct l as [|[]]; reflexivity).
  destruct (shr_bounds (shr_record_of_loc m l) e (fexp prec emax (Zdigits2 m + e) - e))
    as [H1 H2]; [lia|].
  rewrite Hm in H1. split; [exact H1|]. lia.
Qed.

Lemma rne_bounds (m : Z) (l : location) :
  0 <= m -> 0 <= round_nearest_even m l <= m + 1.
Proof. intros H. destruct l as [|[]]; simpl; try lia. destruct (Z.even m); lia. Qed.

Lemma binary_round_finite (p : positive) :
  Zpos p < 2 ^ 63 ->
  match binary_round prec emax false p 0 with
  | S754_infinity _ | S754_nan => False | _ => True end.
Proof.
  intros Hp. destruct (digits2_pos_bounds p) as [D1 D2].
  assert (Hd : Zpos (digits2_pos p) <= 63).
  { destruct (Z.le_gt_cases (Zpos (digits2_pos p)) 63) as [H0|Hc]; [exact H0|].
    assert (2 ^ 63 <= 2 ^ (Zpos (digits2_pos p) - 1)) by (apply Z.pow_le_mono_r; lia).
    lia. }
  set (d := Zpos (digits2_pos p)) in *.
  assert (Hf : fexp prec emax (d + 0) = d - 53)
    by (unfold fexp, SpecFloat.emin, prec, emax; lia).
  unfold binary_round. fold d. rewrite Hf.
  assert (Hal : exists mz ez, shl_align p 0 (d - 53) = (mz, ez) /\
            Zpos mz < 2 ^ 63 /\ ez <= 0 /\ Zdigits2 (Zpos mz) + ez = d).
  { unfold shl_align. rewrite Z.sub_0_r. destruct (d - 53) as [|k|k] eqn:Ek.
    - exists p, 0. split; [reflexivity|]. simpl. fold d. lia.
    - exists p, 0. split; [reflexivity|]. simpl. fold d. lia.
    - destruct (digits2_pos_iter_xO p k) as [I1 I2].
      exists (Pos.iter xO p k), (Zneg k). split; [reflexivity|].
      simpl Zdigits2. rewrite I1, I2. split; [|lia].
      assert (2 ^ d * 2 ^ Zpos k = 2 ^ 53)
        by (rewrite <- Z.pow_add_r by lia; f_equal; lia).
      assert (0 < 2 ^ Zpos k) by (apply Z.pow_pos_nonneg; lia).
      assert (2 ^ 53 < 2 ^ 63) by (apply Z.pow_lt_mono_r; lia). nia. }
  destruct Hal as (mz & ez & -> & Hmz & Hez & Hdz).
  unfold binary_round_aux.
  destruct (shr_fexp_bounds (Zpos mz) ez loc_Exact ltac:(lia)) as [B1 B2].
  destruct (shr_fexp prec emax (Zpos mz) ez loc_Exact) as [mrs1 e1] eqn:E1. cbn [fst snd] in B1, B2.
  rewrite Hdz in B2.
  assert (He1 : e1 <= 10) by (unfold fexp, SpecFloat.emin, prec, emax in B2; lia).
  set (r := round_nearest_even (shr_m mrs1) (loc_of_shr_record mrs1)).
  assert (Hr : 0 <= r <= 2 ^ 63) by (pose proof (rne_bounds (shr_m mrs1) (loc_of_shr_record mrs1)); unfold r; lia).
  assert (Hdr : Zdigits2 r <= 64).
  { destruct r as [|q|q] eqn:Er; simpl; [lia| |lia].
    apply (digits_small q 63); lia. }
  destruct (shr_fexp_bounds r e1 loc_Exact ltac:(lia)) as [C1 C2].
  destruct (shr_fexp prec emax r e1 loc_Exact) as [mrs2 e2]. cbn [fst snd] in C1, C2.
  assert (He2 : e2 <= emax - prec)
    by (assert (0 <= Zdigits2 r) by (destruct r; simpl; lia);
        unfold fexp, SpecFloat.emin, prec, emax in *; lia).
  destruct (shr_m mrs2) as [|q|q]; [exact I| |lia].
  rewrite (proj2 (Z.leb_le _ _) He2). exact I.
Qed.

(** An int below [2^63] converts to a float without overflow. *)
Lemma float_of_int_no_overflow (n : Z) :
  0 <= n < 2 ^ 63 -> PrimFloat.is_infinity (float_of_int n) = false.
Proof.
  intros Hn. rewrite (float_of_int_of_Z n Hn).
  assert (E : Prim2SF (float_of_Z n) = binary_normalize prec emax n 0 false).
  { unfold float_of_Z. replace (n <? 0) with false by lia.
    rewrite FloatAxioms.of_uint63_spec, Uint63.of_Z_spec.
    rewrite Z.mod_small by (unfold Uint63.wB, Uint63.size; simpl; lia). reflexivity. }
  unfold PrimFloat.is_infinity. rewrite FloatAxioms.eqb_spec, FloatAxioms.abs_spec, E.
  replace (Prim2SF infinity) with (S754_infinity false) by (vm_compute; reflexivity).
  destruct n as [|p|p]; [reflexivity| |lia].
  pose proof (binary_round_finite p ltac:(lia)) as Hf. simpl binary_normalize.
  destruct (binary_round prec emax false p 0) as [[]|[]| |[] m e]; try contradiction; reflexivity.
Qed.

Lemma rolling_sum_step_mean {F} `{Arith F} (window : Z) (st1 st2 : rm_state F) x :
  window_vals st1 = window_vals st2 -> running_sum st1 = running_sum st2 ->
  running_count st1 = running_count st2 ->
  let m := rolling_mean_step window st2 x in
  rolling_sum_step window st1 x =
    Build_rm_state (window_vals m) (running_sum m) (running_count m)
      (rm_out st1 ++ [if running_count m =? 0 then None else Some (running_sum m)]).
Proof.
  destruct st1 as [wv1 s1 c1 o1], st2 as [wv2 s2 c2 o2]; simpl; intros -> -> ->.
  unfold rolling_sum_step, rolling_mean_step; simpl.
  destruct (window <? Z.of_nat (length (wv2 ++ [x]))); [|destruct x; reflexivity].
  destruct (wv2 ++ [x]) as [|[u|] rest]; destruct x; reflexivity.
Qed.

Lemma rs_loop_generic {F} `{Arith F} (window : Z) (p : list (option F)) :
  1 <= window ->
  let ss := fold_left (rolling_sum_step window) p (Build_rm_state [] f_zero 0 []) in
  let sm := fold_left (rolling_mean_step window) p (Build_rm_state [] f_zero 0 []) in
  window_vals ss = window_vals sm /\ running_sum ss = running_sum sm /\
  running_count ss = running_count sm /\ length (rm_out ss) = length p /\
  rm_out sm = zip_with (fun o c => match o with Some s => Some (f_div_int s c) | None => None end)
    (rm_out ss)
    (map (fun i => Z.of_nat (length (non_null (trailing_window p (Z.to_nat window) i))))
       (seq 0 (length p))).
Proof.
  intros Hw. induction p as [|x p IH] using rev_ind; [simpl; auto|].
  cbv zeta in *. rewrite !fold_left_app. cbn [fold_left].
  destruct IH as (Hwv & Hs & Hc & Hl & Ho).
  destruct (rm_loop_generic window p Hw) as (Hwv0 & Hc0 & _).
  destruct (rm_step_window window p _ x Hw Hwv0 Hc0) as (Hwv' & Hc' & Ho').
  rewrite (rolling_sum_step_mean window _ _ x Hwv Hs Hc).
  set (ss0 := fold_left (rolling_sum_step window) p _) in *.
  set (sm0 := fold_left (rolling_mean_step window) p _) in *.
  set (m := rolling_mean_step window sm0 x) in *. simpl.
  split; [done|split; [done|split; [done|split]]].
  - rewrite !length_app, Hl. done.
  - rewrite Ho', Ho, length_app, Nat.add_1_r, seq_S, map_app.
    rewrite zip_with_app by (rewrite length_map, length_seq; done).
    f_equal.
    + f_equal. apply map_ext_in. intros i Hi. apply in_seq in Hi.
      rewrite trailing_window_app_lt by lia. reflexivity.
    + simpl. rewrite trailing_window_app_last, <- Hwv', <- Hc'.
      destruct (running_count m =? 0); reflexivity.
Qed.

Lemma rs_loop_Qc (window : Z) (p : list (option Qc)) :
  1 <= window ->
  rm_out (fold_left (rolling_sum_step window) p (Build_rm_state [] f_zero 0 [])) =
    map (fun i => match non_null (trailing_window p (Z.to_nat window) i) with
                  | [] => None | vs => Some (qsum vs) end) (seq 0 (length p)).
Proof.
  intros Hw. induction p as [|x p IH] using rev_ind; [done|].
  rewrite !fold_left_app. cbn [fold_left].
  destruct (rs_loop_generic window p Hw) as (Hwv & Hs & Hc & _).
  destruct (rm_loop_generic window p Hw) as (Hwv0 & Hc0 & _).
  destruct (rm_loop_Qc window p Hw) as (Hs0 & _).
  destruct (rm_step_window window p _ x Hw Hwv0 Hc0) as (Hwv' & Hc' & _).
  pose proof (rm_step_sum window p _ x Hw Hwv0 Hs0) as Hs'.
  rewrite (rolling_sum_step_mean window _ _ x Hwv Hs Hc). cbn [rm_out]. rewrite IH.
  set (sm0 := fold_left (rolling_mean_step window) p _) in *.
  rewrite length_app, Nat.add_1_r, seq_S, map_app. f_equal.
  - apply map_ext_in. intros i Hi. apply in_seq in Hi.
    rewrite trailing_window_app_lt by lia. reflexivity.
  - simpl. rewrite trailing_window_app_last, <- Hwv', Hc', Hs'.
    match goal with
    | |- context [non_null (window_vals ?st')] => destruct (non_null (window_vals st'))
    end; reflexivity.
Qed.

Lemma map_is_null_zip {A B C} (g : option A -> B -> option C) (l : list (option A)) cs :
  (forall o c, is_null (g o c) = is_null o) -> length l = length cs ->
  map is_null (zip_with g l cs) = map is_null l.
Proof.
  intros Hg. revert cs. induction l as [|o l IH]; intros [|c cs] Hl; simpl in *; try done.
  rewrite Hg, IH by lia. done.
Qed.

(** Extra X2. Row i of RollingSumWindow is null exactly when the last max(1, window) values up to row i are all null. Read over exact rationals, it is the sum of the non-null values of that trailing window. *)
Theorem rolling_sum_window_exact (series_f : list (option float))
    (series : list (option Qc)) (arg : list (option Z)) :
  let w := Z.to_nat (Z.max 1 (_parse_int_arg arg 1)) in
  map is_null (RollingSumWindow_evaluate_all series_f arg) =
    map (fun i => all_null (trailing_window series_f w i)) (seq 0 (length series_f)) /\
  RollingSumWindow_evaluate_all series arg =
    map (fun i => match non_null (trailing_window series w i) with
                  | [] => None | vs => Some (qsum vs) end) (seq 0 (length series)).
Proof.
  intros w. subst w. unfold RollingSumWindow_evaluate_all. split.
  - destruct (rs_loop_generic (Z.max 1 (_parse_int_arg arg 1)) series_f ltac:(lia))
      as (_ & _ & _ & Hl & Ho).
    destruct (rm_loop_generic (Z.max 1 (_parse_int_arg arg 1)) series_f ltac:(lia))
      as (_ & _ & Hn).
    rewrite <- Hn, Ho. symmetry. apply map_is_null_zip.
    + intros [o|] c; reflexivity.
    + rewrite Hl, length_map, length_seq. done.
  - apply (rs_loop_Qc _ series). lia.
Qed.

(** Extra X3. Over floats, row i of RollingMeanWindow is row i of RollingSumWindow (same window) divided by the number of non-null values in the trailing window. It is null where the rolling sum is null. *)
Theorem rolling_mean_is_sum_div_count (series : list (option float)) (arg : list (option Z)) :
  let w := Z.to_nat (Z.max 1 (_parse_int_arg arg 1)) in
  RollingMeanWindow_evaluate_all series arg =
    zip_with (fun o c => match o with
                         | Some s => Some (PrimFloat.div s (float_of_Z c))
                         | None => None end)
      (RollingSumWindow_evaluate_all series arg)
      (map (fun i => Z.of_nat (length (non_null (trailing_window series w i))))
         (seq 0 (length series))).
Proof.
  intros w. subst w. unfold RollingMeanWindow_evaluate_all, RollingSumWindow_evaluate_all.
  destruct (rs_loop_generic (Z.max 1 (_parse_int_arg arg 1)) series ltac:(lia))
    as (_ & _ & _ & _ & Ho).
  exact Ho.
Qed.

(** Extra X1. Row i of PctChangeWindow is row i of DiffWindow (same periods) divided by the value periods rows earlier. It is null where the diff is null, and where that earlier value is null or zero (0.0 or -0.0). *)
Theorem pct_change_from_diff (series : list (option float)) (arg : list (option Z)) (i : nat) :
  let periods := Z.max 1 (_parse_int_arg arg 1) in
  PctChangeWindow_evaluate_all series arg !! i =
    match DiffWindow_evaluate_all series arg !! i with
    | Some (Some d) =>
        Some (match series !! (i - Z.to_nat periods)%nat with
              | Some (Some p) => if PrimFloat.eqb p 0%float then None
                                 else Some (PrimFloat.div d p)
              | _ => None
              end)
    | o => o
    end.
Proof.
  intros periods. subst periods.
  unfold PctChangeWindow_evaluate_all, DiffWindow_evaluate_all.
  rewrite !list_lookup_imap. destruct (series !! i) as [[c|]|]; simpl; [|by destruct (_ <? _)|done].
  destruct (Z.of_nat i <? Z.max 1 (_parse_int_arg arg 1)); [done|].
  destruct (series !! (i - Z.to_nat (Z.max 1 (_parse_int_arg arg 1)))%nat) as [[p|]|]; done.
Qed.

(** Extra X4. The rate_value helper of the bucket_rate UDF never returns a negative rate, for any bucket width below 2^63. *)
Theorem bucket_rate_nonneg (c p : option float) (b : Z) (r : float) :
  b < 2 ^ 63 -> rate_value c p (Some b) = Some r -> PrimFloat.ltb r 0%float = false.
Proof.
  intros Hb. destruct c as [c|], p as [p|]; simpl; try discriminate.
  destruct (b <=? 0) eqn:E; [discriminate|].
  destruct (PrimFloat.ltb (PrimFloat.sub c p) 0%float) eqn:D; [discriminate|].
  intros [= <-]. apply div_nonneg; [exact D|lia].
Qed.

Lemma bucket_rate_nonneg_witness :
  rate_value (Some 5%float) (Some 2%float) (Some 3) = Some 1%float /\
  PrimFloat.ltb 1%float 0%float = false.
Proof.
  split; [vm_compute; reflexivity|].
  apply (bucket_rate_nonneg (Some 5%float) (Some 2%float) 3 1%float); [lia|vm_compute; reflexivity].
Defined.

Lemma mapM_Some_map {A B} (f : A -> option B) (g : A -> B) (l : list A) :
  (forall x, In x l -> f x = Some (g x)) -> mapM f l = Some (map g l).
Proof.
  induction l as [|x l IH]; intros H; [done|]. simpl.
  rewrite (H x (or_introl eq_refl)). simpl.
  rewrite IH by (intros y Hy; apply H; right; exact Hy). done.
Qed.

Lemma mapM_None {A B} (f : A -> option B) (l : list A) (x : A) :
  In x l -> f x = None -> mapM f l = None.
Proof.
  induction l as [|y l IH]; intros Hin Hx; [done|]. simpl.
  destruct Hin as [<-|Hin]; [by rewrite Hx|].
  destruct (f y); simpl; [|done]. by rewrite IH.
Qed.

(** Extra X5. With counter and timestamp columns of the same length and timestamps in [0, 2^63), CounterRateWindow over num_rows equal to that length raises nothing. Row 0 is null and row i is rate_value(counter[i], counter[i-1], t[i] - t[i-1]), the formula of bucket_rate; with num_rows larger than the columns it raises IndexError. *)
Theorem counter_rate_is_bucket_rate (counters : list (option float))
    (timestamps : list (option Z)) (num_rows : nat) :
  length timestamps = length counters ->
  Forall (fun t => match t with Some t => 0 <= t < 2 ^ 63 | None => True end) timestamps ->
  CounterRateWindow_evaluate_all counters timestamps (length counters) =
    Some (map (fun idx =>
                 if (idx =? 0)%nat then None else
                 rate_value (default None (counters !! idx))
                   (default None (counters !! (idx - 1)%nat))
                   (ts_delta (timestamps !! idx) (timestamps !! (idx - 1)%nat)))
              (seq 0 (length counters))) /\
  ((length counters < num_rows)%nat ->
   CounterRateWindow_evaluate_all counters timestamps num_rows = None).
Proof.
  intros Hlen Hts. split.
  - apply mapM_Some_map. intros idx Hin. apply in_seq in Hin.
    unfold counter_rate_row.
    destruct (lookup_lt_is_Some_2 counters idx ltac:(lia)) as [c Hc].
    destruct (lookup_lt_is_Some_2 timestamps idx ltac:(lia)) as [t1 Ht1].
    rewrite Hc, Ht1. simpl. destruct (idx =? 0)%nat eqn:E0; [done|].
    apply Nat.eqb_neq in E0.
    destruct (lookup_lt_is_Some_2 counters (idx - 1) ltac:(lia)) as [p Hp].
    destruct (lookup_lt_is_Some_2 timestamps (idx - 1) ltac:(lia)) as [t0 Ht0].
    rewrite Hp, Ht0. simpl.
    destruct c as [c|], p as [p|], t1 as [t1|], t0 as [t0|]; try reflexivity;
      try (destruct c; reflexivity).
    unfold ts_delta, rate_value.
    pose proof (proj1 (Forall_lookup _ _) Hts _ _ Ht1) as B1.
    pose proof (proj1 (Forall_lookup _ _) Hts _ _ Ht0) as B0. simpl in B1, B0.
    rewrite sub_ltb_zero.
    destruct (t1 <=? t0) eqn:Et; simpl; [replace (t1 - t0 <=? 0) with true by lia; done|].
    replace (t1 - t0 <=? 0) with false by lia.
    destruct (PrimFloat.ltb c p); [done|].
    rewrite float_of_int_no_overflow by lia.
    rewrite float_of_int_of_Z by lia. done.
  - intros Hn. apply (mapM_None _ _ (length counters)).
    + apply in_seq. lia.
    + unfold counter_rate_row. rewrite (lookup_ge_None_2 counters (length counters)) by lia.
      done.
Qed.

(** Extra X6. With timestamps in [0, 2^63), every non-null rate CounterRateWindow returns is non-negative. *)
Theorem counter_rate_nonneg (counters : list (option float))
    (timestamps : list (option Z)) (num_rows : nat) (out : list (option float)) :
  Forall (fun t => match t with Some t => 0 <= t < 2 ^ 63 | None => True end) timestamps ->
  CounterRateWindow_evaluate_all counters timestamps num_rows = Some out ->
  Forall (fun o => match o with Some r => PrimFloat.ltb r 0%float = false | None => True end) out.
Proof.
  intros Hts. unfold CounterRateWindow_evaluate_all.
  generalize (seq 0 num_rows) as l. intros l. revert out.
  induction l as [|idx l IH]; intros out H; simpl in H.
  - injection H as <-. constructor.
  - destruct (counter_rate_row counters timestamps idx) as [o|] eqn:Eo; [|done].
    simpl in H. destruct (mapM _ l) as [out'|]; [|done]. injection H as <-.
    constructor; [|by apply IH].
    unfold counter_rate_row in Eo.
    destruct (counters !! idx) as [c|], (timestamps !! idx) as [t1|] eqn:Ht1; try done.
    destruct (idx =? 0)%nat; [by injection Eo as <-|].
    destruct (counters !! (idx - 1)%nat) as [p|], (timestamps !! (idx - 1)%nat) as [t0|] eqn:Ht0;
      try done.
    destruct c as [c|], p as [p|], t1 as [t1|], t0 as [t0|]; try (by injection Eo as <-).
    pose proof (proj1 (Forall_lookup _ _) Hts _ _ Ht1) as B1.
    pose proof (proj1 (Forall_lookup _ _) Hts _ _ Ht0) as B0. simpl in B1, B0.
    destruct ((t1 <=? t0) || PrimFloat.ltb c p) eqn:E; [by injection Eo as <-|].
    destruct (PrimFloat.is_infinity (float_of_int (t1 - t0))); [done|].
    injection Eo as <-.
    apply orb_false_iff in E as [E1 E2].
    rewrite float_of_int_of_Z by lia. apply div_nonneg; [|lia].
    rewrite sub_ltb_zero. exact E2.
Qed.

(** Extra X7. ts_bucket(ts, step) with step > 0 returns the multiple b of step with b <= ts < b + step; with step < 0 the multiple b with ts <= b < ts - step; with step 0 it returns null. *)
Theorem ts_bucket_bounds (ts step : Z) :
  (0 < step -> exists b, bucket_value (Some ts) (Some step) = Some b /\
                 b <= ts < b + step /\ (step | b)) /\
  (step < 0 -> exists b, bucket_value (Some ts) (Some step) = Some b /\
                 ts <= b < ts - step /\ (step | b)) /\
  bucket_value (Some ts) (Some 0) = None.
Proof.
  unfold bucket_value. split; [|split]; [intros Hs..|reflexivity].
  - replace (step =? 0) with false by lia. eexists. split; [reflexivity|].
    split; [|exists (ts / step); done].
    pose proof (Z.mod_pos_bound ts step Hs).
    pose proof (Z.div_mod ts step ltac:(lia)). lia.
  - replace (step =? 0) with false by lia. eexists. split; [reflexivity|].
    split; [|exists (ts / step); done].
    pose proof (Z.mod_neg_bound ts step Hs).
    pose proof (Z.div_mod ts step ltac:(lia)). lia.
Qed.

(** Extra X8. Bucketing a bucket start again with the same step returns it unchanged. *)
Theorem ts_bucket_idempotent (ts step b : Z) :
  bucket_value (Some ts) (Some step) = Some b -> bucket_value (Some b) (Some step) = Some b.
Proof.
  unfold bucket_value. destruct (step =? 0) eqn:E; [discriminate|].
  intros [= <-]. apply Z.eqb_neq in E. rewrite Z.div_mul by exact E. reflexivity.
Qed.

Lemma align_value_eq (ts step o : Z) :
  align_value (Some ts) (Some step) (Some o) =
    if step =? 0 then None else Some (((ts - o) / step) * step + o).
Proof.
  unfold align_value. destruct (step =? 0); [done|].
  destruct (o =? 0) eqn:E; [apply Z.eqb_eq in E; subst o|]; done.
Qed.

(** Extra X9. align_time(ts, step, origin) is ts_bucket(ts - origin, step) + origin; with origin null or 0 it is ts_bucket(ts, step). Moving the origin by a multiple of step does not change the result. *)
Theorem align_time_grid (ts step o : Z) :
  align_value (Some ts) (Some step) (Some o) =
    option_map (fun b => b + o) (bucket_value (Some (ts - o)) (Some step)) /\
  align_value (Some ts) (Some step) None = bucket_value (Some ts) (Some step) /\
  align_value (Some ts) (Some step) (Some 0) = bucket_value (Some ts) (Some step) /\
  (forall k, align_value (Some ts) (Some step) (Some (o + k * step)) =
             align_value (Some ts) (Some step) (Some o)).
Proof.
  split; [|split; [|split]].
  - rewrite align_value_eq. unfold bucket_value. by destruct (step =? 0).
  - unfold align_value, bucket_value. destruct (step =? 0); [done|].
    rewrite Z.sub_0_r, Z.add_0_r. done.
  - rewrite align_value_eq. unfold bucket_value. destruct (step =? 0); [done|].
    rewrite Z.sub_0_r, Z.add_0_r. done.
  - intros k. rewrite !align_value_eq. destruct (step =? 0) eqn:E; [done|].
    apply Z.eqb_neq in E. f_equal.
    replace (ts - (o + k * step)) with (ts - o + (- k) * step) by ring.
    rewrite Z.div_add by exact E. ring.
Qed.


Lemma Z_compare_opp (a b : Z) : Z.compare (- a) (- b) = CompOpp (Z.compare a b).
Proof. rewrite Z.compare_opp, Z.compare_antisym. reflexivity. Qed.

Lemma SFcompare_key (x y : spec_float) :
  x <> S754_nan -> y <> S754_nan -> SFcompare x y = Some (lexcmp (sf_key x) (sf_key y)).
Proof.
  intros Hx Hy.
  destruct x as [sx|sx| |sx mx ex], y as [sy|sy| |sy my ey]; try congruence;
    try destruct sx; try destruct sy; try reflexivity; unfold lexcmp; simpl;
    rewrite ?Z_compare_opp; destruct (Z.compare ex ey); try reflexivity; simpl;
    rewrite ?Z_compare_opp; simpl; rewrite ?Pos2Z.inj_compare; reflexivity.
Qed.



Lemma lexcmp_spec (a b : Z * Z * Z) :
  (lexcmp a b = Lt <-> key_lt a b) /\ (lexcmp a b = Gt <-> key_lt b a).
Proof.
  destruct a as [[a1 a2] a3], b as [[b1 b2] b3]. unfold lexcmp, key_lt. simpl.
  destruct (Z.compare_spec a1 b1); destruct (Z.compare_spec a2 b2);
    destruct (Z.compare_spec a3 b3);
    (split; split; intros; try discriminate; try reflexivity; try lia).
Qed.

Lemma compare_nan (x y : float) :
  is_nan_sf x \/ is_nan_sf y -> SFcompare (Prim2SF x) (Prim2SF y) = None.
Proof. unfold is_nan_sf. intros [->| ->]; [done|]. by destruct (Prim2SF x). Qed.

Lemma ltb_nan (x y : float) : is_nan_sf x \/ is_nan_sf y -> PrimFloat.ltb x y = false.
Proof. intros H. rewrite FloatAxioms.ltb_spec. unfold SFltb. by rewrite compare_nan. Qed.
Lemma leb_nan (x y : float) : is_nan_sf x \/ is_nan_sf y -> PrimFloat.leb x y = false.
Proof. intros H. rewrite FloatAxioms.leb_spec. unfold SFleb. by rewrite compare_nan. Qed.
Lemma eqb_nan (x y : float) : is_nan_sf x \/ is_nan_sf y -> PrimFloat.eqb x y = false.
Proof. intros H. rewrite FloatAxioms.eqb_spec. unfold SFeqb. by rewrite compare_nan. Qed.

Lemma compare_key (x y : float) :
  ~ is_nan_sf x -> ~ is_nan_sf y ->
  SFcompare (Prim2SF x) (Prim2SF y) = Some (lexcmp (fkey x) (fkey y)).
Proof. intros Hx Hy. apply SFcompare_key; assumption. Qed.

Lemma float_ltb_key (x y : float) :
  ~ is_nan_sf x -> ~ is_nan_sf y -> (PrimFloat.ltb x y = true <-> key_lt (fkey x) (fkey y)).
Proof.
  intros Hx Hy. rewrite FloatAxioms.ltb_spec. unfold SFltb. rewrite compare_key by done.
  rewrite <- (proj1 (lexcmp_spec _ _)). by destruct (lexcmp _ _).
Qed.

Lemma float_leb_key (x y : float) :
  ~ is_nan_sf x -> ~ is_nan_sf y -> (PrimFloat.leb x y = true <-> ~ key_lt (fkey y) (fkey x)).
Proof.
  intros Hx Hy. rewrite FloatAxioms.leb_spec. unfold SFleb. rewrite compare_key by done.
  rewrite <- (proj2 (lexcmp_spec _ _)). destruct (lexcmp _ _); split; done.
Qed.

Lemma float_eqb_key (x y : float) :
  ~ is_nan_sf x -> ~ is_nan_sf y ->
  (PrimFloat.eqb x y = true <-> ~ key_lt (fkey x) (fkey y) /\ ~ key_lt (fkey y) (fkey x)).
Proof.
  intros Hx Hy. rewrite FloatAxioms.eqb_spec. unfold SFeqb. rewrite compare_key by done.
  rewrite <- (proj1 (lexcmp_spec _ _)), <- (proj2 (lexcmp_spec _ _)).
  destruct (lexcmp _ _); split; try done; intros [H1 H2]; done.
Qed.

Lemma nan_dec (x : float) : is_nan_sf x \/ ~ is_nan_sf x.
Proof. unfold is_nan_sf. destruct (Prim2SF x); [right; discriminate..|left; reflexivity|right; discriminate]. Qed.

Lemma leb_not_nan (x y : float) : PrimFloat.leb x y = true -> ~ is_nan_sf x /\ ~ is_nan_sf y.
Proof.
  intros H. split; intros Hn; rewrite leb_nan in H; auto; discriminate.
Qed.
Lemma ltb_not_nan (x y : float) : PrimFloat.ltb x y = true -> ~ is_nan_sf x /\ ~ is_nan_sf y.
Proof.
  intros H. split; intros Hn; rewrite ltb_nan in H; auto; discriminate.
Qed.

Ltac float_order :=
  repeat match goal with
  | H : PrimFloat.ltb ?a ?b = true |- _ => apply float_ltb_key in H; [|assumption|assumption]
  | H : PrimFloat.ltb ?a ?b = false |- _ =>
      assert (~ key_lt (fkey a) (fkey b)) by (rewrite <- float_ltb_key by assumption; congruence);
      clear H
  | H : PrimFloat.leb ?a ?b = true |- _ => apply float_leb_key in H; [|assumption|assumption]
  | H : PrimFloat.leb ?a ?b = false |- _ =>
      assert (~ ~ key_lt (fkey b) (fkey a)) by (rewrite <- float_leb_key by assumption; congruence);
      clear H
  | |- PrimFloat.leb ?a ?b = true => apply float_leb_key; [assumption|assumption|]
  | |- PrimFloat.ltb ?a ?b = true => apply float_ltb_key; [assumption|assumption|]
  | |- PrimFloat.eqb ?a ?b = true => apply float_eqb_key; [assumption|assumption|]
  end;
  unfold key_lt in *; lia.

(** Extra X10. When lo <= hi, clamp(v, lo, hi) returns a value r with lo <= r <= hi, also when v is NaN. *)
Theorem clamp_within (v lo hi : float) :
  PrimFloat.leb lo hi = true ->
  exists r, clamp_value (Some v) (Some lo) (Some hi) = Some r /\
            PrimFloat.leb lo r = true /\ PrimFloat.leb r hi = true.
Proof.
  intros H. destruct (leb_not_nan _ _ H) as [Nl Nh].
  unfold clamp_value, py_max, py_min. eexists. split; [reflexivity|].
  destruct (nan_dec v) as [Nv|Nv].
  - rewrite (ltb_nan hi v) by auto. rewrite (ltb_nan lo v) by auto.
    split; [|exact H]. float_order.
  - destruct (PrimFloat.ltb hi v) eqn:E1.
    + destruct (PrimFloat.ltb lo hi) eqn:E2; split; float_order.
    + destruct (PrimFloat.ltb lo v) eqn:E2; split; float_order.
Qed.

(** Extra X11. When hi < lo, clamp(v, lo, hi) returns lo whatever v is. *)
Theorem clamp_inverted (v lo hi : float) :
  PrimFloat.ltb hi lo = true -> clamp_value (Some v) (Some lo) (Some hi) = Some lo.
Proof.
  intros H. destruct (ltb_not_nan _ _ H) as [Nh Nl].
  unfold clamp_value, py_max, py_min. f_equal.
  destruct (nan_dec v) as [Nv|Nv].
  - rewrite (ltb_nan hi v) by auto. rewrite (ltb_nan lo v) by auto. reflexivity.
  - destruct (PrimFloat.ltb hi v) eqn:E1.
    + destruct (PrimFloat.ltb lo hi) eqn:E2; [exfalso; float_order|reflexivity].
    + destruct (PrimFloat.ltb lo v) eqn:E2; [exfalso; float_order|reflexivity].
Qed.

(** Extra X12. When lo <= hi and null_if_outside keeps v, clamp returns a value equal to v. When null_if_outside returns null, v is NaN, or v < lo and clamp returns lo, or hi < v and clamp returns a value equal to hi. *)
Theorem clamp_agrees_with_null_if_outside (v lo hi : float) :
  PrimFloat.leb lo hi = true ->
  match keep_or_null (Some v) (Some lo) (Some hi) with
  | Some v' => v' = v /\ exists r, clamp_value (Some v) (Some lo) (Some hi) = Some r /\
                                 PrimFloat.eqb r v = true
  | None => is_nan_sf v \/
            (PrimFloat.ltb v lo = true /\ clamp_value (Some v) (Some lo) (Some hi) = Some lo) \/
            (PrimFloat.ltb hi v = true /\ exists r, clamp_value (Some v) (Some lo) (Some hi) = Some r /\
                                                 PrimFloat.eqb r hi = true)
  end.
Proof.
  intros H. destruct (leb_not_nan _ _ H) as [Nl Nh].
  unfold keep_or_null, clamp_value, py_max, py_min.
  destruct (nan_dec v) as [Nv|Nv].
  - rewrite (leb_nan lo v) by auto. simpl. left. exact Nv.
  - destruct (PrimFloat.leb lo v) eqn:E1, (PrimFloat.leb v hi) eqn:E2; simpl.
    + split; [reflexivity|]. eexists. split; [reflexivity|].
      destruct (PrimFloat.ltb hi v) eqn:E3; [exfalso; float_order|].
      destruct (PrimFloat.ltb lo v) eqn:E4; float_order.
    + right. right.
      destruct (PrimFloat.ltb hi v) eqn:E3; [|exfalso; float_order].
      split; [float_order|]. eexists. split; [reflexivity|].
      destruct (PrimFloat.ltb lo hi) eqn:E4; float_order.
    + right. left.
      destruct (PrimFloat.ltb hi v) eqn:E3; [exfalso; float_order|].
      destruct (PrimFloat.ltb lo v) eqn:E4; [exfalso; float_order|].
      split; [float_order|reflexivity].
    + exfalso. float_order.
Qed.



Lemma read_range_no_meta (s : store) (id a b : Z) :
  _ensure_u32 id = inr tt -> metas s !! id = None -> read_range id a b s = (inr [], s).
Proof.
  intros Hu Hm. unfold read_range. destruct (b <? a); [done|]. tsimpl.
  rewrite Hu, Hm. done.
Qed.

(** Extra X14. delete_metric on a metric that has a meta succeeds and removes its meta, its meta info and all its value slots, so every later read_range of it is empty. Other metrics' meta, info and values, and the id counter, are unchanged. *)
Theorem delete_metric_clears (s : store) (id P S ty : Z) :
  0 <= id <= 0xFFFFFFFF -> metas s !! id = Some (P, S, ty) ->
  exists s', delete_metric id s = (inr tt, s') /\
    metas s' !! id = None /\ infos s' !! id = None /\
    (forall k, values s' !! (id, k) = None) /\
    (forall a b, read_range id a b s' = (inr [], s')) /\
    (forall id', id' <> id ->
       metas s' !! id' = metas s !! id' /\ infos s' !! id' = infos s !! id' /\
       forall k, values s' !! (id', k) = values s !! (id', k)) /\
    id_counter s' = id_counter s.
Proof.
  intros Hid Hm. apply ensure_u32_ok in Hid.
  eexists. split; [exact (delete_metric_ok s id P S ty Hid Hm)|]. simpl.
  assert (Hm' : delete id (metas s) !! id = None) by apply lookup_delete_eq.
  split; [exact Hm'|]. split; [apply lookup_delete_eq|].
  split; [|split; [|split; [|done]]].
  - intros k. rewrite map_lookup_filter. destruct (values s !! (id, k)); simpl; [|done].
    rewrite option_guard_False; [done|]. simpl. tauto.
  - intros a b. apply read_range_no_meta; [exact Hid|]. simpl. exact Hm'.
  - intros id' Hne. rewrite !lookup_delete_ne by congruence. split; [done|split; [done|]].
    intros k. rewrite map_lookup_filter. destruct (values s !! (id', k)); simpl; [|done].
    rewrite option_guard_True; [done|]. simpl. exact Hne.
Qed.

(** Extra X15. For a metric id (in the uint32 range) with stored meta and meta info, delete_metric removes only the descriptor keyed by the metric's current name and tags, and only when the name is non-empty; with an empty name no descriptor changes. Every other descriptor is kept, including older ones that point to the same id. *)
Theorem delete_metric_descriptors (s : store) (id P S ty : Z) (i : meta_info) :
  0 <= id <= 0xFFFFFFFF -> metas s !! id = Some (P, S, ty) -> infos s !! id = Some i ->
  let s' := snd (delete_metric id s) in
  (forall k, k <> _descriptor_key (info_name i) (info_tags i) ->
     descriptors s' !! k = descriptors s !! k) /\
  (String.eqb (info_name i) "" = false ->
     descriptors s' !! _descriptor_key (info_name i) (info_tags i) = None) /\
  (String.eqb (info_name i) "" = true -> descriptors s' = descriptors s).
Proof.
  intros Hid Hm Hi s'. apply ensure_u32_ok in Hid. subst s'.
  rewrite (delete_metric_ok s id P S ty Hid Hm). simpl.
  unfold info_name_of, info_tags_of. rewrite Hi. simpl. split; [|split].
  - intros k Hk. destruct (String.eqb (info_name i) ""); [done|].
    by rewrite lookup_delete_ne by congruence.
  - intros ->. apply lookup_delete_eq.
  - intros ->. reflexivity.
Qed.

(** Extra X16. When a descriptor still points to an id whose meta and info were deleted, write_gauge by that name and tags fails with ValueError 'metric not found'. Before failing it has re-created the meta info of that id. *)
Theorem write_gauge_dangling_descriptor (self : tsdb) (s : store) (mid : option Z)
    (n : string) (t : tags) (eid ts : Z) (v : float) (st sl : option Z) :
  match mid with Some m => 0 <= m <= 0xFFFFFFFF | None => True end ->
  String.eqb n "" = false -> descriptors s !! _descriptor_key n t = Some eid ->
  0 <= eid <= 0xFFFFFFFF -> metas s !! eid = None -> infos s !! eid = None ->
  NoDup (map fst t) ->
  write_gauge self mid ts v (Some n) (Some t) st sl s =
    (inl (ValueError "metric not found"),
     set_infos s (<[eid := {| info_name := n; info_tags := t |}]> (infos s))).
Proof.
  intros Hmid Hn Hd Hu Hm Hi Hnd. apply ensure_u32_ok in Hu.
  pose proof (ensure_meta_info_fresh s eid n t Hu Hi Hnd) as Hf.
  unfold py_truthy_str in Hf. rewrite Hn in Hf.
  unfold write_gauge, ensure_metric_descriptor. tsimpl.
  destruct mid as [m|]; [rewrite (ensure_u32_ok m Hmid)|]; cbn iota beta; simpl; rewrite Hn; simpl;
    rewrite Hd; simpl; rewrite Hu; simpl; rewrite Hm; simpl; rewrite Hf; simpl;
    unfold _write_value; tsimpl; rewrite Hu; simpl; rewrite Hm; done.
Qed.

Lemma delete_metric_clears_witness :
  exists s', delete_metric 7 store_A0 = (inr tt, s') /\
    metas s' !! 7 = None /\ infos s' !! 7 = None /\
    (forall k, values s' !! (7, k) = None) /\
    (forall a b, read_range 7 a b s' = (inr [], s')) /\
    (forall id', id' <> 7 ->
       metas s' !! id' = metas store_A0 !! id' /\ infos s' !! id' = infos store_A0 !! id' /\
       forall k, values s' !! (id', k) = values store_A0 !! (id', k)) /\
    id_counter s' = id_counter store_A0.
Proof. exact (delete_metric_clears store_A0 7 1 3 0 ltac:(lia) store_A0_meta). Defined.

Lemma delete_metric_descriptors_witness :
  descriptors (snd (delete_metric 7 store_two_desc)) !! _descriptor_key "cpu" [("host", "a")]
    = Some 7.
Proof.
  destruct (delete_metric_descriptors store_two_desc 7 1 3 0 info_two_desc ltac:(lia)
              ltac:(vm_compute; reflexivity) ltac:(vm_compute; reflexivity)) as [Hk _].
  rewrite Hk; [vm_compute; reflexivity|]. vm_compute. intros H. discriminate H.
Defined.

Lemma write_gauge_dangling_descriptor_witness :
  write_gauge cfg3 None 5 1%float (Some "cpu") (Some [("host", "a")]) None None
    (snd (delete_metric 7 store_two_desc)) =
    (inl (ValueError "metric not found"),
     set_infos (snd (delete_metric 7 store_two_desc))
       (<[7 := {| info_name := "cpu"; info_tags := [("host", "a")] |}]>
          (infos (snd (delete_metric 7 store_two_desc))))).
Proof.
  apply (write_gauge_dangling_descriptor cfg3 _ None "cpu" [("host", "a")] 7 5 1%float None None I);
    first [vm_compute; reflexivity | lia | (constructor; [apply not_elem_of_nil | constructor])].
Defined.

(** Extra X17. delete_metric of an in-range id with no meta succeeds and leaves the store unchanged. *)
Theorem delete_metric_no_meta (s : store) (id : Z) :
  0 <= id <= 0xFFFFFFFF -> metas s !! id = None -> delete_metric id s = (inr tt, s).
Proof.
  intros Hid Hm. apply ensure_u32_ok in Hid. unfold delete_metric. tsimpl.
  rewrite Hid. simpl. rewrite ?Hid, Hm. done.
Qed.

(** Extra X18. When ensure_metric_descriptor is called without a metric_id, with a non-empty name and tags that have no descriptor, the id after the counter (in the uint32 range) is allocated. If a meta with another step, slots or type already exists at that id, the call fails and leaves the store unchanged: with struct.error when the requested step, slots and type do not pack, and otherwise with 'metric already registered with different metadata'. *)
Theorem allocate_meta_collision (self : tsdb) (s : store) (ty : Z) (st sl : option Z)
    (n : string) (t : tags) (P S ty0 : Z) :
  let next := match id_counter s with Some c => c + 1 | None => 1 end in
  let step := py_or_int st (default_step self) in
  let slots := py_or_int sl (default_slots self) in
  String.eqb n "" = false -> descriptors s !! _descriptor_key n t = None ->
  0 <= next <= 0xFFFFFFFF -> metas s !! next = Some (P, S, ty0) ->
  (P, S, ty0) <> (step, slots, ty) ->
  ensure_metric_descriptor self None ty st sl (Some n) (Some t) s =
    (match _pack_meta step slots ty with
     | inl e => inl e
     | inr _ => inl (ValueError "metric already registered with different metadata")
     end, s).
Proof.
  intros next step slots Hn Hd Hnext Hm Hne.
  unfold ensure_metric_descriptor. tsimpl. simpl. rewrite Hn. simpl. rewrite Hd. simpl.
  unfold _allocate_metric_id. tsimpl. fold next. unfold pack_q. rewrite in_range_true by lia. simpl.
  rewrite (ensure_u32_ok next Hnext). simpl. fold step slots.
  destruct (_pack_meta step slots ty) as [e|q] eqn:Hp; [reflexivity|].
  assert (Hq : q = (step, slots, ty)).
  { unfold _pack_meta in Hp. destruct (_ && _ && _); [|discriminate].
    by injection Hp as <-. }
  subst q. simpl. rewrite Hm.
  destruct (negb (P =? step) || negb (S =? slots) || negb (ty0 =? ty)) eqn:E; [done|].
  exfalso. apply Hne. apply orb_false_iff in E as [E E3]. apply orb_false_iff in E as [E1 E2].
  apply negb_false_iff, Z.eqb_eq in E1, E2, E3. by subst.
Qed.

(** Extra X19. For a metric id in the uint32 range with no meta and no meta info, a step k with -2^31 <= k < 0, and effective slots within the signed 32-bit range: write_gauge by that id with no name or tags stores a meta (k, slots, 0) and then fails with 'step must be positive'. ensure_metric with the same id, step and slots fails with 'step and slots must be positive' and changes nothing. *)
Theorem write_gauge_negative_step (self : tsdb) (s : store) (id k : Z) (sl : option Z)
    (ts : Z) (v : float) :
  0 <= id <= 0xFFFFFFFF -> metas s !! id = None -> infos s !! id = None ->
  - 2 ^ 31 <= k < 0 -> - 2 ^ 31 <= py_or_int sl (default_slots self) < 2 ^ 31 ->
  (exists s', write_gauge self (Some id) ts v None None (Some k) sl s =
                (inl (ValueError "step must be positive"), s') /\
              metas s' !! id = Some (k, py_or_int sl (default_slots self), 0)) /\
  ensure_metric self id 0 (Some k) sl None None s =
    (inl (ValueError "step and slots must be positive"), s).
Proof.
  intros Hid Hm Hi Hk Hsl. apply ensure_u32_ok in Hid. split.
  - set (S := py_or_int sl (default_slots self)) in *.
    set (s1 := set_metas s (<[id := (k, S, 0)]> (metas s))).
    assert (Hi1 : infos s1 !! id = None) by exact Hi.
    pose proof (ensure_meta_info_fresh s1 id "" [] Hid Hi1 (NoDup_nil_2)) as Hf.
    set (s2 := set_infos s1 _) in Hf. simpl in Hf.
    exists s2. split; [|unfold s2, s1; simpl; apply lookup_insert_eq].
    unfold write_gauge, ensure_metric_descriptor. tsimpl. rewrite Hid. cbn iota beta.
    unfold py_or_int at 1. replace (k =? 0) with false by lia. fold S. simpl.
    unfold _pack_meta. rewrite !in_range_true by lia. simpl. rewrite Hm. fold s1. rewrite Hf. cbn iota beta.
    unfold _write_value. tsimpl. rewrite Hid. cbn iota beta.
    unfold s2, s1 at 1. simpl. rewrite lookup_insert_eq. cbn iota beta.
    unfold _slot_for. replace (k <=? 0) with true by lia. reflexivity.
  - unfold ensure_metric. tsimpl. rewrite Hid. cbn iota beta.
    unfold py_or_int at 1. replace (k =? 0) with false by lia.
    replace (k <=? 0) with true by lia. reflexivity.
Qed.

Lemma delete_metric_no_meta_witness : delete_metric 8 store_A0 = (inr tt, store_A0).
Proof. apply (delete_metric_no_meta store_A0 8); [lia | vm_compute; reflexivity]. Defined.

Lemma allocate_meta_collision_witness :
  ensure_metric_descriptor cfg3 None 1 None None (Some "cpu") (Some []) store_id1 =
    (inl (ValueError "metric already registered with different metadata"), store_id1).
Proof.
  apply (allocate_meta_collision cfg3 store_id1 1 None None "cpu" [] 1 3 0);
    first [vm_compute; reflexivity | vm_compute; split; intros H; discriminate H
          | vm_compute; intros H; discriminate H].
Defined.

Lemma write_gauge_negative_step_witness :
  (exists s', write_gauge cfg3 (Some 7) 5 1%float None None (Some (-2)) None empty_store =
                (inl (ValueError "step must be positive"), s') /\
              metas s' !! 7 = Some (-2, 3, 0)) /\
  ensure_metric cfg3 7 0 (Some (-2)) None None None empty_store =
    (inl (ValueError "step and slots must be positive"), empty_store).
Proof.
  apply (write_gauge_negative_step cfg3 empty_store 7 (-2) None 5 1%float);
    (vm_compute; reflexivity) || (simpl; lia).
Defined.

Lemma counter_rate_is_bucket_rate_witness :
  CounterRateWindow_evaluate_all counters_ex timestamps_ex 3 = Some [None; Some 3%float; None] /\
  CounterRateWindow_evaluate_all counters_ex timestamps_ex 4 = None.
Proof.
  destruct (counter_rate_is_bucket_rate counters_ex timestamps_ex 4 eq_refl) as [H1 H2].
  - repeat constructor; lia.
  - split; [refine (eq_trans H1 _); vm_compute; reflexivity|apply H2; simpl; lia].
Defined.

Lemma counter_rate_nonneg_witness :
  Forall (fun o => match o with Some r => PrimFloat.ltb r 0%float = false | None => True end)
    [None; Some 3%float; None].
Proof.
  apply (counter_rate_nonneg counters_ex timestamps_ex 3); [repeat constructor; lia|].
  vm_compute. reflexivity.
Defined.

Lemma ts_bucket_bounds_witness :
  exists b, bucket_value (Some 7) (Some 3) = Some b /\ b <= 7 < b + 3 /\ (3 | b).
Proof. exact (proj1 (ts_bucket_bounds 7 3) ltac:(lia)). Defined.

Lemma ts_bucket_idempotent_witness : bucket_value (Some 6) (Some 3) = Some 6.
Proof. apply (ts_bucket_idempotent 7 3 6). vm_compute. reflexivity. Defined.

Lemma clamp_within_witness :
  exists r, clamp_value (Some 5%float) (Some 1%float) (Some 2%float) = Some r /\
            PrimFloat.leb 1%float r = true /\ PrimFloat.leb r 2%float = true.
Proof. apply (clamp_within 5%float 1%float 2%float). vm_compute. reflexivity. Defined.

Lemma clamp_inverted_witness :
  clamp_value (Some 5%float) (Some 2%float) (Some 1%float) = Some 2%float.
Proof. apply (clamp_inverted 5%float 2%float 1%float). vm_compute. reflexivity. Defined.

Lemma clamp_agrees_with_null_if_outside_witness :
  match keep_or_null (Some 5%float) (Some 1%float) (Some 2%float) with
  | Some v' => v' = 5%float /\ exists r, clamp_value (Some 5%float) (Some 1%float) (Some 2%float) = Some r /\
                                      PrimFloat.eqb r 5%float = true
  | None => is_nan_sf 5%float \/
            (PrimFloat.ltb 5%float 1%float = true /\
             clamp_value (Some 5%float) (Some 1%float) (Some 2%float) = Some 1%float) \/
            (PrimFloat.ltb 2%float 5%float = true /\
             exists r, clamp_value (Some 5%float) (Some 1%float) (Some 2%float) = Some r /\
                       PrimFloat.eqb r 2%float = true)
  end.
Proof. apply (clamp_agrees_with_null_if_outside 5%float 1%float 2%float). vm_compute. reflexivity. Defined.
Lemma list_metrics_loop_ok (s : store) (ids : list Z) (acc : list metric_row) :
  Forall (fun mid => 0 <= mid <= 0xFFFFFFFF) ids ->
  list_metrics_loop ids acc s = (inr (acc ++ omap (metric_row_of s) ids), s).
Proof.
  revert acc. induction ids as [|mid ids IH]; intros acc Hids; simpl.
  - by rewrite app_nil_r.
  - apply Forall_cons in Hids as [Hm Hids]. apply ensure_u32_ok in Hm.
    tsimpl. rewrite Hm. cbn iota beta. unfold metric_row_of.
    destruct (metas s !! mid) as [[[step slots] typ]|]; cbn iota beta.
    + rewrite ?Hm. cbn iota beta. rewrite IH by done. by rewrite <- app_assoc.
    + by apply IH.
Qed.

Lemma meta_key_ids_facts (s : store) :
  NoDup (meta_key_ids s) /\ StronglySorted Z.le (meta_key_ids s) /\
  length (meta_key_ids s) = Nat.min (Z.to_nat 10000) (size (metas s)) /\
  (forall mid, mid ∈ meta_key_ids s -> is_Some (metas s !! mid)) /\
  (forall mid, is_Some (metas s !! mid) ->
     mid ∈ meta_key_ids s \/ forall x, x ∈ meta_key_ids s -> x < mid).
Proof.
  set (K := map fst (map_to_list (metas s))).
  set (L := merge_sort Z.le K).
  assert (HP : L ≡ₚ K) by apply merge_sort_Permutation.
  assert (HK : NoDup K) by apply NoDup_fst_map_to_list.
  assert (HL : NoDup L) by (by rewrite HP).
  assert (HS : StronglySorted Z.le L).
  { apply StronglySorted_merge_sort; [intros x y z; lia | intros x y; lia]. }
  assert (HE : forall mid, mid ∈ L <-> is_Some (metas s !! mid)).
  { intros mid. rewrite HP. unfold K. rewrite list_elem_of_fmap. split.
    - intros [[k x] [-> Hin]]. apply elem_of_map_to_list in Hin. by exists x.
    - intros [x Hx]. exists (mid, x). split; [done|]. by apply elem_of_map_to_list. }
  pose proof (take_drop (Z.to_nat 10000) L) as HTD.
  unfold meta_key_ids. fold K L.
  assert (HND : NoDup (take (Z.to_nat 10000) L ++ drop (Z.to_nat 10000) L)) by (by rewrite HTD).
  assert (HSS : StronglySorted Z.le (take (Z.to_nat 10000) L ++ drop (Z.to_nat 10000) L))
    by (by rewrite HTD).
  apply NoDup_app in HND as (HN1 & HN12 & _).
  split; [done|]. split; [exact (StronglySorted_app_1_l _ _ _ HSS)|].
  split; [rewrite length_take, (Permutation_length HP); unfold K;
          rewrite length_map, length_map_to_list; done|].
  split.
  - intros mid Hin. apply HE. rewrite <- HTD. apply elem_of_app. by left.
  - intros mid Hm. apply HE in Hm. rewrite <- HTD in Hm.
    apply elem_of_app in Hm as [Hm|Hm]; [by left|right].
    intros x Hx. assert (x <= mid) by (exact (StronglySorted_app_1_elem_of _ _ _ _ _ HSS Hx Hm)).
    assert (x <> mid) by (intros ->; exact (HN12 _ Hx Hm)). lia.
Qed.

Lemma metric_row_of_id (s : store) (mid : Z) (r : metric_row) :
  metric_row_of s mid = Some r -> metric_id r = mid.
Proof.
  unfold metric_row_of. destruct (metas s !! mid) as [[[? ?] ?]|]; [|done].
  intros H. by injection H as <-.
Qed.

Lemma metric_row_of_ids (s : store) (ids : list Z) :
  Forall (fun mid => is_Some (metas s !! mid)) ids ->
  map metric_id (omap (metric_row_of s) ids) = ids.
Proof.
  induction ids as [|mid ids IH]; intros Hids; [done|].
  apply Forall_cons in Hids as [[x Hx] Hids].
  change (omap (metric_row_of s) (mid :: ids)) with
    (match metric_row_of s mid with
     | Some y => y :: omap (metric_row_of s) ids | None => omap (metric_row_of s) ids end).
  destruct (metric_row_of s mid) as [r|] eqn:E.
  - rewrite map_cons, (metric_row_of_id s mid r E), IH by done. done.
  - unfold metric_row_of in E. rewrite Hx in E. by destruct x as [[? ?] ?].
Qed.

Lemma StronglySorted_id_lt (l : list metric_row) :
  StronglySorted metric_id_le l -> NoDup (map metric_id l) ->
  StronglySorted (fun a b => metric_id a < metric_id b) l.
Proof.
  induction l as [|x l IH]; intros Hs Hnd; [constructor|].
  apply StronglySorted_cons in Hs as [Hx Hs]. simpl in Hnd.
  apply NoDup_cons in Hnd as [Hni Hnd]. constructor; [by apply IH|].
  apply Forall_forall. intros y Hy. rewrite Forall_forall in Hx.
  pose proof (Hx y Hy) as Hle. unfold metric_id_le in Hle.
  assert (metric_id x <> metric_id y).
  { intros E. apply Hni. apply list_elem_of_fmap. by exists y. }
  lia.
Qed.

(** Extra X20. list_metrics leaves the store unchanged and returns one row per metric with a meta, with strictly increasing ids, limited to the 10000 smallest ids. Each row carries the metric's step, slots and type, and its name and tags ('' and no tags when it has no info). *)
Theorem list_metrics_spec (s : store) :
  map_Forall (fun k _ => 0 <= k <= 0xFFFFFFFF) (metas s) ->
  exists rows, list_metrics s = (inr rows, s) /\
    StronglySorted (fun a b => metric_id a < metric_id b) rows /\
    length rows = Nat.min (Z.to_nat 10000) (size (metas s)) /\
    (forall r, r ∈ rows ->
       metas s !! metric_id r = Some (metric_step r, metric_slots r, metric_type r) /\
       metric_name r = match infos s !! metric_id r with Some i => info_name i | None => "" end /\
       metric_tags r = match infos s !! metric_id r with Some i => info_tags i | None => [] end) /\
    (forall mid, is_Some (metas s !! mid) ->
       (exists r, r ∈ rows /\ metric_id r = mid) \/ (forall r, r ∈ rows -> metric_id r < mid)).
Proof.
  intros Hu.
  destruct (meta_key_ids_facts s) as (Hnd & _ & Hlen & Hin & Hcov).
  assert (Hsome : Forall (fun mid => is_Some (metas s !! mid)) (meta_key_ids s))
    by (apply Forall_forall; exact Hin).
  assert (Hids : Forall (fun mid => 0 <= mid <= 0xFFFFFFFF) (meta_key_ids s)).
  { apply Forall_forall. intros mid Hm. destruct (Hin mid Hm) as [x Hx]. exact (Hu mid x Hx). }
  set (R0 := omap (metric_row_of s) (meta_key_ids s)).
  assert (HR0 : map metric_id R0 = meta_key_ids s) by (by apply metric_row_of_ids).
  assert (HR0in : forall r, r ∈ R0 -> metric_row_of s (metric_id r) = Some r).
  { intros r Hr. apply list_elem_of_omap in Hr as [x [_ Hx]].
    by rewrite (metric_row_of_id s x r Hx). }
  exists (merge_sort metric_id_le R0).
  assert (HP : merge_sort metric_id_le R0 ≡ₚ R0) by apply merge_sort_Permutation.
  split.
  { unfold list_metrics. tsimpl. rewrite list_metrics_loop_ok by done. done. }
  split.
  { apply StronglySorted_id_lt.
    - apply StronglySorted_merge_sort;
        [intros x y z; unfold metric_id_le; lia | intros x y; unfold metric_id_le; lia].
    - rewrite HP, HR0. exact Hnd. }
  split.
  { rewrite (Permutation_length HP), <- Hlen, <- HR0. by rewrite length_map. }
  split.
  { intros r Hr. rewrite HP in Hr. pose proof (HR0in r Hr) as E. unfold metric_row_of in E.
    destruct (metas s !! metric_id r) as [[[step slots] typ]|]; [|done].
    injection E as <-. simpl. done. }
  intros mid Hm. destruct (Hcov mid Hm) as [Hk|Hlt].
  - left. rewrite <- HR0 in Hk. apply list_elem_of_fmap in Hk as [r [-> Hr]].
    exists r. split; [by rewrite HP|done].
  - right. intros r Hr. apply Hlt. rewrite <- HR0. apply list_elem_of_fmap.
    exists r. split; [done|]. by rewrite <- HP.
Qed.

Lemma existsb_negb_forallb {A} (f : A -> bool) (l : list A) :
  existsb (fun x => negb (f x)) l = negb (forallb f l).
Proof. induction l as [|x l IH]; simpl; [done|]. rewrite IH. by destruct (f x). Qed.

Lemma find_loop_skip name t limit m ms acc :
  metric_matches name t m = false ->
  find_metrics_loop name t limit (m :: ms) acc = find_metrics_loop name t limit ms acc.
Proof.
  unfold metric_matches. intros H. simpl. rewrite existsb_negb_forallb.
  destruct (py_truthy_str name) as [n|]; simpl in *.
  - destruct (String.eqb (metric_name m) n); simpl in *; [|done]. by rewrite H.
  - by rewrite H.
Qed.

Lemma find_loop_take name t limit m ms acc :
  metric_matches name t m = true ->
  find_metrics_loop name t limit (m :: ms) acc =
    if match limit with
       | Some l => negb (l =? 0) && (l <=? Z.of_nat (length (acc ++ [m])))
       | None => false
       end
    then (acc ++ [m], true)
    else find_metrics_loop name t limit ms (acc ++ [m]).
Proof.
  unfold metric_matches. intros H. simpl. rewrite existsb_negb_forallb.
  apply andb_true_iff in H as [H1 H2]. rewrite H2. simpl.
  destruct (py_truthy_str name) as [n|]; simpl in *; [by rewrite H1|done].
Qed.

Lemma find_loop_unlimited name t limit ms acc :
  match limit with Some l => l = 0 | None => True end ->
  find_metrics_loop name t limit ms acc = (acc ++ filter (metric_matches name t) ms, false).
Proof.
  intros Hl. revert acc. induction ms as [|m ms IH]; intros acc.
  - simpl. by rewrite app_nil_r.
  - destruct (metric_matches name t m) eqn:E.
    + rewrite find_loop_take by done. rewrite filter_cons_True by (by rewrite E).
      destruct limit as [l|]; [subst l; simpl|]; rewrite IH; by rewrite <- app_assoc.
    + rewrite find_loop_skip by done. rewrite filter_cons_False by (cbn; rewrite E; intros Hc; inversion Hc). apply IH.
Qed.

Lemma find_loop_limited name t l ms acc :
  l <> 0 -> (length acc < Z.to_nat (Z.max 1 l))%nat ->
  find_metrics_loop name t (Some l) ms acc =
    (acc ++ take (Z.to_nat (Z.max 1 l) - length acc) (filter (metric_matches name t) ms),
     bool_decide (Z.to_nat (Z.max 1 l) <= length acc + length (filter (metric_matches name t) ms))%nat).
Proof.
  intros Hl. revert acc. induction ms as [|m ms IH]; intros acc Hacc.
  - simpl. rewrite filter_nil, take_nil, app_nil_r. simpl length. rewrite Nat.add_0_r. f_equal. symmetry.
    apply bool_decide_eq_false_2. lia.
  - destruct (metric_matches name t m) eqn:E.
    + rewrite find_loop_take by done. rewrite filter_cons_True by (by rewrite E).
      rewrite length_app. simpl length.
      replace (negb (l =? 0)) with true by lia. simpl.
      destruct (l <=? Z.of_nat (length acc + 1)) eqn:E2;
        [apply Z.leb_le in E2 | apply Z.leb_gt in E2].
      * replace (Z.to_nat (Z.max 1 l) - length acc)%nat with 1%nat by lia. simpl.
        rewrite take_0. f_equal. symmetry. apply bool_decide_eq_true_2. lia.
      * rewrite IH by (rewrite length_app; simpl; lia). rewrite length_app. simpl length.
        rewrite <- app_assoc. simpl.
        replace (Z.to_nat (Z.max 1 l) - length acc)%nat
          with (S (Z.to_nat (Z.max 1 l) - (length acc + 1)))%nat by lia. simpl. f_equal. apply bool_decide_ext. lia.
    + rewrite find_loop_skip by done. rewrite filter_cons_False by (cbn; rewrite E; intros Hc; inversion Hc). by apply IH.
Qed.

(** Extra X21. find_metrics returns, in id order, the listed metrics whose name equals the given non-empty name and that carry every requested tag. With no limit or limit 0 it returns all of them with hit_limit false; otherwise the first max(1, limit), with hit_limit true exactly when at least that many match. *)
Theorem find_metrics_spec (name : option string) (t : option tags) (limit : option Z)
    (s : store) (rows : list metric_row) :
  list_metrics s = (inr rows, s) ->
  let hits := filter (metric_matches name (default [] t)) rows in
  find_metrics name t limit s =
    (inr (match limit with
          | Some l =>
              if l =? 0 then (hits, false)
              else (take (Z.to_nat (Z.max 1 l)) hits,
                    bool_decide (Z.to_nat (Z.max 1 l) <= length hits)%nat)
          | None => (hits, false)
          end), s).
Proof.
  intros Hl hits. unfold find_metrics. tsimpl. rewrite Hl. cbn iota beta. f_equal. f_equal.
  destruct limit as [l|].
  - destruct (l =? 0) eqn:E.
    + apply Z.eqb_eq in E. rewrite find_loop_unlimited by done. done.
    + rewrite find_loop_limited by (simpl; lia). simpl. by rewrite Nat.sub_0_r.
  - by rewrite find_loop_unlimited.
Qed.

Lemma existsb_eqb_In (n : string) (l : list string) : existsb (String.eqb n) l = true <-> In n l.
Proof.
  rewrite existsb_exists. split.
  - intros [x [Hx E]]. apply String.eqb_eq in E. by subst.
  - intros H. exists n. split; [done|]. apply String.eqb_refl.
Qed.

Lemma names_loop_ok (limit : Z) (ms : list metric_row) (names seen : list string) :
  (forall x, In x seen <-> In x names) -> NoDup names -> Forall (fun x => x <> "") names ->
  (length names < Z.to_nat (Z.max 1 limit))%nat ->
  let out := list_metric_names_loop limit ms names seen in
  NoDup out /\
  (forall x, In x out -> In x names \/ exists r, In r ms /\ metric_name r = x) /\
  Forall (fun x => x <> "") out /\
  (length out <= Z.to_nat (Z.max 1 limit))%nat /\
  ((length out < Z.to_nat (Z.max 1 limit))%nat ->
     forall r, In r ms -> metric_name r <> "" -> In (metric_name r) out) /\
  (forall x, In x names -> In x out).
Proof.
  revert names seen. induction ms as [|m ms IH]; intros names seen Hseen Hnd Hne Hlen out.
  - subst out. simpl. split; [done|]. split; [by left|]. split; [done|]. split; [lia|].
    split; [by intros _ r []|done].
  - subst out. simpl.
    destruct (String.eqb (metric_name m) "" || existsb (String.eqb (metric_name m)) seen) eqn:E.
    + destruct (IH names seen Hseen Hnd Hne Hlen) as (H1 & H2 & H3 & H4 & H5 & H6).
      split; [done|]. split.
      { intros x Hx. destruct (H2 x Hx) as [?|[r [Hr Hrx]]]; [by left|right]. exists r. by split; [right|]. }
      split; [done|]. split; [done|]. split; [|done].
      intros Hl r [<-|Hr] Hrn; [|by apply H5].
      apply orb_true_iff in E as [E|E]; [by apply String.eqb_eq in E|].
      apply H6, Hseen, existsb_eqb_In, E.
    + apply orb_false_iff in E as [E1 E2].
      assert (Hni : ~ In (metric_name m) names).
      { intros Hin. apply Hseen, existsb_eqb_In in Hin. congruence. }
      assert (Hnd' : NoDup (names ++ [metric_name m])).
      { apply NoDup_app. split; [done|]. split; [|by apply NoDup_singleton].
        intros x Hx Hx'. apply list_elem_of_singleton in Hx' as ->. by apply Hni, list_elem_of_In. }
      assert (Hne' : Forall (fun x => x <> "") (names ++ [metric_name m])).
      { apply Forall_app. split; [done|]. constructor; [|constructor]. by apply String.eqb_neq. }
      rewrite length_app. simpl length.
      destruct (limit <=? Z.of_nat (length names + 1)) eqn:El;
        [apply Z.leb_le in El | apply Z.leb_gt in El].
      * split; [done|]. split.
        { intros x Hx. apply in_app_or in Hx as [Hx|[<-|[]]]; [by left|right].
          exists m. by split; [left|]. }
        split; [done|]. rewrite length_app. simpl length. split; [lia|]. split; [lia|].
        intros x Hx. apply in_or_app. by left.
      * assert (Hseen' : forall x, In x (metric_name m :: seen) <-> In x (names ++ [metric_name m])).
        { intros x. rewrite in_app_iff. simpl. rewrite Hseen. tauto. }
        destruct (IH (names ++ [metric_name m]) (metric_name m :: seen) Hseen' Hnd' Hne')
          as (H1 & H2 & H3 & H4 & H5 & H6); [rewrite length_app; simpl; lia|].
        split; [done|]. split.
        { intros x Hx. destruct (H2 x Hx) as [Hx'|[r [Hr Hrx]]].
          - apply in_app_or in Hx' as [Hx'|[<-|[]]]; [by left|right]. exists m. by split; [left|].
          - right. exists r. by split; [right|]. }
        split; [done|]. split; [done|]. split.
        { intros Hl r [<-|Hr] Hrn; [|by apply H5]. apply H6, in_or_app. right. by left. }
        intros x Hx. apply H6, in_or_app. by left.
Qed.

(** Extra X22. list_metric_names returns sorted, distinct, non-empty names of listed metrics, at most max(1, limit) of them. When it returns fewer, every non-empty metric name is among them. *)
Theorem list_metric_names_spec (limit : Z) (s : store) (rows : list metric_row) :
  list_metrics s = (inr rows, s) ->
  exists names, list_metric_names limit s = (inr names, s) /\
    Sorted str_le names /\ NoDup names /\
    (forall n, In n names -> n <> "" /\ exists r, In r rows /\ metric_name r = n) /\
    (length names <= Z.to_nat (Z.max 1 limit))%nat /\
    ((length names < Z.to_nat (Z.max 1 limit))%nat ->
       forall r, In r rows -> metric_name r <> "" -> In (metric_name r) names).
Proof.
  intros Hl. unfold list_metric_names. tsimpl. rewrite Hl. cbn iota beta.
  destruct (names_loop_ok limit rows [] [] ltac:(done) NoDup_nil_2 ltac:(constructor)
              ltac:(simpl; lia)) as (H1 & H2 & H3 & H4 & H5 & _).
  set (out := list_metric_names_loop limit rows [] []) in *.
  assert (HP : merge_sort str_le out ≡ₚ out) by apply merge_sort_Permutation.
  exists (merge_sort str_le out). split; [done|].
  split; [apply Sorted_merge_sort; intros a b; apply String.leb_total|].
  split; [by rewrite HP|].
  assert (Hin : forall x, In x (merge_sort str_le out) <-> In x out).
  { intros x. rewrite <- !list_elem_of_In. by rewrite HP. }
  split.
  { intros n Hn. apply Hin in Hn. split.
    - rewrite Forall_forall in H3. apply H3. by apply list_elem_of_In.
    - destruct (H2 n Hn) as [[]|?]; done. }
  rewrite (Permutation_length HP). split; [done|].
  intros Hlt r Hr Hrn. apply Hin. by apply H5.
Qed.

Lemma pair_inr_inj {E A S} (x y : A) (s t : S) :
  ((inr x : E + A), s) = (inr y, t) -> x = y.
Proof. intros H. injection H as H _. exact H. Qed.

Lemma list_metrics_store_list : list_metrics store_list = (inr rows_list, store_list).
Proof. vm_compute. reflexivity. Qed.

Lemma list_metrics_spec_witness :
  exists rows, list_metrics store_list = (inr rows, store_list) /\ length rows = 3%nat /\
    map metric_id rows = [1; 2; 3].
Proof.
  destruct (list_metrics_spec store_list) as (rows & Hl & _ & Hlen & _).
  - apply (bool_decide_unpack _). vm_compute. reflexivity.
  - exists rows. split; [exact Hl|]. split; [rewrite Hlen; vm_compute; reflexivity|].
    rewrite list_metrics_store_list in Hl. apply pair_inr_inj in Hl. subst rows.
    vm_compute. reflexivity.
Defined.

Lemma find_metrics_spec_witness :
  find_metrics (Some "cpu") None (Some 2) store_list =
    (inr (filter (metric_matches (Some "cpu") []) rows_list, true), store_list).
Proof.
  refine (eq_trans (find_metrics_spec (Some "cpu") None (Some 2) store_list rows_list
                      list_metrics_store_list) _).
  vm_compute. reflexivity.
Defined.

Lemma list_metric_names_spec_witness :
  exists names, list_metric_names 1 store_list = (inr names, store_list) /\
    (length names <= 1)%nat /\ Sorted str_le names.
Proof.
  destruct (list_metric_names_spec 1 store_list rows_list list_metrics_store_list)
    as (names & Hl & Hs & _ & _ & Hlen & _).
  exists names. split; [done|]. split; [exact Hlen|exact Hs].
Defined.

Lemma cat_mem_cons (a : string) (vals : list string) c k v :
  cat_mem ((a, vals) :: c) k v <-> (k = a /\ In v vals) \/ cat_mem c k v.
Proof.
  unfold cat_mem. split.
  - intros [vs [[E|H] Hv]]; [injection E as -> ->; by left|right; by exists vs].
  - intros [[-> Hv]|[vs [H Hv]]]; [exists vals; by split; [left|]|exists vs; by split; [right|]].
Qed.

Lemma catalog_add_ok c k v :
  cat_ok c ->
  cat_ok (catalog_add c k v) /\
  (forall x, In x (map fst (catalog_add c k v)) <-> In x (map fst c) \/ x = k) /\
  (forall k' v', cat_mem (catalog_add c k v) k' v' <-> cat_mem c k' v' \/ (k' = k /\ v' = v)).
Proof.
  induction c as [|[k0 vals] c IH]; intros [Hnd Hvs].
  - simpl. split; [split; [apply NoDup_singleton | intros ? ? [E|[]]; injection E as <- <-; apply NoDup_singleton]|].
    split; [intros x; simpl; intuition congruence|].
    intros k' v'. rewrite cat_mem_cons. unfold cat_mem. simpl. split.
    + intros [[-> [->|[]]]|[vs [[] _]]]. by right.
    + intros [[vs [[] _]]|[-> ->]]. left. by split; [|left].
  - simpl in Hnd. apply NoDup_cons in Hnd as [Hk0 Hnd].
    assert (Hvs0 : NoDup vals) by (apply (Hvs k0); by left).
    assert (Hc : cat_ok c) by (split; [done|intros k1 vs Hin; apply (Hvs k1); by right]).
    simpl. destruct (String.eqb k k0) eqn:E.
    + apply String.eqb_eq in E as ->.
      set (vals' := if existsb (String.eqb v) vals then vals else vals ++ [v]).
      assert (Hv' : NoDup vals' /\ forall x, In x vals' <-> In x vals \/ x = v).
      { unfold vals'. destruct (existsb (String.eqb v) vals) eqn:Ev.
        - apply existsb_eqb_In in Ev. split; [done|]. intros x. split; [by left|].
          intros [?| ->]; done.
        - split.
          + apply NoDup_app. split; [done|]. split; [|apply NoDup_singleton].
            intros x Hx Hx'. apply list_elem_of_singleton in Hx' as ->.
            apply list_elem_of_In, existsb_eqb_In in Hx. congruence.
          + intros x. rewrite in_app_iff. simpl. intuition congruence. }
      destruct Hv' as [Hnd' Hin'].
      split; [split|split].
      * simpl. by constructor.
      * intros k1 vs [E|Hin]; [injection E as <- <-; done|]. apply (Hvs k1). by right.
      * intros x. simpl. intuition congruence.
      * intros k' v'. rewrite !cat_mem_cons, Hin'. tauto.
    + apply String.eqb_neq in E. destruct (IH Hc) as [[Hnd2 Hvs2] [Hkeys Hmem]].
      split; [split|split].
      * simpl. constructor; [|done]. rewrite list_elem_of_In, Hkeys. intros [H|H]; [apply Hk0, list_elem_of_In, H|congruence].
      * intros k1 vs [E'|Hin]; [injection E' as <- <-; done|]. by apply (Hvs2 k1).
      * intros x. simpl. rewrite Hkeys. tauto.
      * intros k' v'. rewrite !cat_mem_cons, Hmem. tauto.
Qed.

Lemma catalog_fold_ok (t : tags) c :
  cat_ok c ->
  cat_ok (fold_left (fun c kv => catalog_add c kv.1 kv.2) t c) /\
  (forall k v, cat_mem (fold_left (fun c kv => catalog_add c kv.1 kv.2) t c) k v <->
               cat_mem c k v \/ In (k, v) t).
Proof.
  revert c. induction t as [|[k v] t IH]; intros c Hc; simpl.
  - split; [done|]. tauto.
  - destruct (catalog_add_ok c k v Hc) as [Hc' [_ Hm]].
    destruct (IH _ Hc') as [Hok Hm']. split; [done|].
    intros k' v'. rewrite Hm', Hm. split; [intros [[?|[-> ->]]|?]; tauto|].
    intros [?|[E|?]]; [tauto| injection E as -> ->; tauto|tauto].
Qed.

Lemma tag_loop_skip_test name m :
  match py_truthy_str name with
  | Some n => negb (String.eqb (metric_name m) n)
  | None => false
  end = negb (metric_matches name [] m).
Proof. unfold metric_matches. simpl. rewrite andb_true_r. by destruct (py_truthy_str name). Qed.

Lemma tag_loop_ok name limit ms cat count :
  cat_ok cat -> 0 <= count < Z.max 1 limit ->
  let out := tag_catalog_loop name limit ms cat count in
  cat_ok out /\
  forall k v, cat_mem out k v <->
    cat_mem cat k v \/
    exists r, In r (take (Z.to_nat (Z.max 1 limit - count)) (filter (metric_matches name []) ms)) /\
              In (k, v) (metric_tags r).
Proof.
  revert cat count. induction ms as [|m ms IH]; intros cat count Hc Hcount out; subst out.
  - simpl. split; [done|]. intros k v. rewrite filter_nil, take_nil. simpl.
    split; [by left|]. intros [?|[r [[] _]]]. done.
  - simpl. rewrite tag_loop_skip_test. destruct (metric_matches name [] m) eqn:E; simpl.
    + rewrite filter_cons_True by (by rewrite E).
      destruct (catalog_fold_ok (metric_tags m) cat Hc) as [Hc1 Hm1].
      destruct (limit <=? count + 1) eqn:El; [apply Z.leb_le in El | apply Z.leb_gt in El].
      * replace (Z.to_nat (Z.max 1 limit - count)) with 1%nat by lia. simpl.
        split; [done|]. intros k v. rewrite Hm1. split.
        -- intros [?|?]; [by left|right]. exists m. by split; [left|].
        -- intros [?|[r [[<-|[]] Hr]]]; [by left|by right].
      * destruct (IH _ (count + 1) Hc1 ltac:(lia)) as [Hok Hm]. split; [done|].
        replace (Z.to_nat (Z.max 1 limit - count)) with (S (Z.to_nat (Z.max 1 limit - (count + 1))))
          by lia. simpl.
        intros k v. rewrite Hm, Hm1. split.
        -- intros [[?|?]|[r [Hr Hkv]]]; [by left|right; exists m; by split; [left|]|].
           right. exists r. by split; [right|].
        -- intros [?|[r [[<-|Hr] Hkv]]]; [by left; left|by left; right|].
           right. exists r. by split.
    + rewrite filter_cons_False by (cbn; rewrite E; intros Hf; inversion Hf). by apply IH.
Qed.

(** Extra X23. tag_catalog has distinct keys and sorted value lists without duplicates. A pair k = v appears in it exactly when it is a tag of one of the first max(1, limit) listed metrics with the given name (all metrics when the name is null or empty). *)
Theorem tag_catalog_spec (name : option string) (limit : Z) (s : store) (rows : list metric_row) :
  list_metrics s = (inr rows, s) ->
  exists catalog, tag_catalog name limit s = (inr catalog, s) /\
    NoDup (map fst catalog) /\
    (forall k vals, In (k, vals) catalog -> Sorted str_le vals /\ NoDup vals) /\
    (forall k v, (exists vals, In (k, vals) catalog /\ In v vals) <->
       exists r, In r (take (Z.to_nat (Z.max 1 limit)) (filter (metric_matches name []) rows)) /\
                 In (k, v) (metric_tags r)).
Proof.
  intros Hl. unfold tag_catalog. tsimpl. rewrite Hl. cbn iota beta.
  destruct (tag_loop_ok name limit rows [] 0) as [[Hnd Hvs] Hm];
    [split; [constructor|intros ? ? []] | lia |].
  set (out := tag_catalog_loop name limit rows [] 0) in *.
  eexists. split; [reflexivity|]. split; [|split].
  - by rewrite map_map.
  - intros k vals Hin. apply in_map_iff in Hin as [[k' vs] [E Hin]]. simpl in E.
    injection E as <- <-. split.
    + apply Sorted_merge_sort. intros a b. apply String.leb_total.
    + rewrite merge_sort_Permutation. by apply (Hvs k').
  - intros k v. rewrite Z.sub_0_r in Hm. transitivity (cat_mem out k v).
    + unfold cat_mem. split.
      * intros [vals [Hin Hv]]. apply in_map_iff in Hin as [[k' vs] [E Hin]]. simpl in E.
        injection E as <- <-. exists vs. split; [done|].
        apply list_elem_of_In. rewrite <- (merge_sort_Permutation str_le vs).
        by apply list_elem_of_In.
      * intros [vs [Hin Hv]]. exists (merge_sort str_le vs). split.
        -- apply in_map_iff. exists (k, vs). by split.
        -- apply list_elem_of_In. rewrite (merge_sort_Permutation str_le vs).
           by apply list_elem_of_In.
    + rewrite Hm. split; [intros [[vs [[] _]]|?]; done|intros ?; by right].
Qed.

Lemma tag_catalog_spec_witness :
  exists catalog, tag_catalog (Some "cpu") 1000 store_list = (inr catalog, store_list) /\
    NoDup (map fst catalog) /\ catalog = [("host", ["a"; "b"])].
Proof.
  destruct (tag_catalog_spec (Some "cpu") 1000 store_list rows_list list_metrics_store_list)
    as (catalog & Hc & Hnd & _).
  exists catalog. split; [exact Hc|]. split; [exact Hnd|].
  assert (E : tag_catalog (Some "cpu") 1000 store_list = (inr [("host", ["a"; "b"])], store_list))
    by (vm_compute; reflexivity).
  rewrite Hc in E. exact (pair_inr_inj _ _ _ _ E).
Defined.
